(** * secure-kit: the adaptive rate limiter and the security event monitor

    A shallow embedding of [src/core/advanced-rate-limiter.ts] and
    [src/core/security-monitor.ts], and the properties of the event
    pipeline proved about it.

    Modelling conventions.
    - A JavaScript [number] that holds a count or a millisecond instant is
      an integer of [Z]; the truthiness tests of the source ([a || b],
      [x && ...]) are written out: [0] and [undefined] are falsy.
    - An optional property of an object that is spread is absent or
      present, and a present one may hold [undefined]; the spread copies
      every present key.
    - [Date.now()] is an argument [now] of every operation that reads the
      clock: one synchronous call runs at one instant.
    - [Math.random()] is a sequence [random : nat -> string] of suffixes,
      and the monitor counts how many it has drawn.
    - A [Map] whose iteration order is observable is an association list
      in insertion order; a [Map] that is only looked up is a [gmap].
    - [EventEmitter.emit] appends to a log of notifications; the
      listeners are outside the model.
    - A [condition] of a rule is a total function that returns a boolean
      or throws. *)

From stdpp Require Import base option list strings gmap pretty sorting.
From Stdlib Require Import ZArith Lia.

Local Open Scope Z_scope.

(** ** JavaScript helpers *)

(** [a || b] on an optional number: [undefined] and [0] are falsy. *)
Definition js_or (a : option Z) (b : Z) : Z :=
  match a with
  | Some v => if decide (v = 0) then b else v
  | None => b
  end.

(** [a || b] where [b] may itself be [undefined]. *)
Definition js_or_opt (a b : option Z) : option Z :=
  match a with
  | Some v => if decide (v = 0) then b else Some v
  | None => b
  end.

(** An optional property of an object: the key is absent, or it is
    present, and a present key may hold [undefined]
    ([{ max: 5, maxRequests: undefined }] type-checks as an options
    object). *)
Inductive Property (A : Type) :=
  | Absent
  | Present (v : option A).
Arguments Absent {A}.
Arguments Present {A} v.

(** Reading a property: an absent key reads as [undefined]. *)
Definition read {A} (p : Property A) : option A :=
  match p with
  | Absent => None
  | Present v => v
  end.

(** [{ k: d, ...config }] for one key: a key present in [config] wins,
    also when it holds [undefined]. *)
Definition spread {A} (d : A) (c : Property A) : Property A :=
  match c with
  | Present v => Present v
  | Absent => Present (Some d)
  end.

(** [Math.ceil(a / b)] for an integer [a] and a positive integer [b]. *)
Definition ceil_div (a b : Z) : Z := - ((- a) / b).

(** ** The rate limiter (advanced-rate-limiter.ts) *)

Module AdvancedRateLimiter.

Record AdvancedRateLimitOptions := {
  windowMs : Property Z;
  max : Property Z;
  maxRequests : Property Z;
}.

Record RateLimitEntry := {
  count : Z;
  resetTime : Z;
  violations : Z;
}.

Record t := {
  store : gmap string RateLimitEntry;
  config : AdvancedRateLimitOptions;
}.

(** The object [isAllowed] returns; [retryAfter] is absent on success. *)
Record Decision := {
  allowed : bool;
  remaining : Z;
  resetAt : Z;
  retryAfter : option Z;
}.

Record Limits := {
  lim_windowMs : Z;
  lim_maxRequests : Z;
}.

Definition constructor (cfg : AdvancedRateLimitOptions) : t :=
  {| store := ∅;
     config := {| windowMs := spread (15 * 60 * 1000) (windowMs cfg);
                  max := spread 100 (max cfg);
                  maxRequests := spread 100 (maxRequests cfg) |} |}.

Definition limits (rl : t) : Limits :=
  {| lim_windowMs := js_or (read (windowMs (config rl))) (15 * 60 * 1000);
     lim_maxRequests :=
       js_or (js_or_opt (read (maxRequests (config rl)))
                        (read (max (config rl)))) 100 |}.

(** [entry?.violations || 0] *)
Definition carried_violations (entry : option RateLimitEntry) : Z :=
  match entry with
  | Some e => js_or (Some (violations e)) 0
  | None => 0
  end.

(** The entry the call works on: the stored one, or a fresh window when
    there is none or [now > entry.resetTime]. *)
Definition current_entry (now : Z) (lim : Limits)
    (entry : option RateLimitEntry) : RateLimitEntry :=
  match entry with
  | Some e =>
      if decide (now > resetTime e)
      then {| count := 0; resetTime := now + lim_windowMs lim;
              violations := carried_violations entry |}
      else e
  | None => {| count := 0; resetTime := now + lim_windowMs lim;
               violations := carried_violations entry |}
  end.

Definition isAllowed (now : Z) (identifier : string) (rl : t)
    : t * Decision :=
  let lim := limits rl in
  let entry := current_entry now lim (store rl !! identifier) in
  if decide (count entry >= lim_maxRequests lim) then
    let entry' := {| count := count entry; resetTime := resetTime entry;
                     violations := violations entry + 1 |} in
    ({| store := <[identifier := entry']> (store rl); config := config rl |},
     {| allowed := false; remaining := 0; resetAt := resetTime entry';
        retryAfter := Some (ceil_div (resetTime entry' - now) 1000) |})
  else
    let entry' := {| count := count entry + 1; resetTime := resetTime entry;
                     violations := violations entry |} in
    ({| store := <[identifier := entry']> (store rl); config := config rl |},
     {| allowed := true;
        remaining := lim_maxRequests lim - count entry';
        resetAt := resetTime entry'; retryAfter := None |}).

Definition cleanup (now : Z) (rl : t) : t :=
  {| store := filter (λ kv, ¬ (now > resetTime kv.2 ∧ violations kv.2 = 0))
                     (store rl);
     config := config rl |}.

Definition reset (identifier : string) (rl : t) : t :=
  {| store := delete identifier (store rl); config := config rl |}.

Definition destroy (rl : t) : t :=
  {| store := ∅; config := config rl |}.

(** [calls now_s k rl]: one [isAllowed(k)] per instant of [now_s], in
    order; the final limiter and the decisions. *)
Fixpoint calls (nows : list Z) (k : string) (rl : t) : t * list Decision :=
  match nows with
  | [] => (rl, [])
  | now :: rest =>
      let '(rl1, d) := isAllowed now k rl in
      let '(rl2, ds) := calls rest k rl1 in
      (rl2, d :: ds)
  end.

(** The key has no live window at [now]: the next call opens one. *)
Definition opens_window (now : Z) (k : string) (rl : t) : Prop :=
  match store rl !! k with
  | Some e => now > resetTime e
  | None => True
  end.

(** [getStats()]: the loop over [store.values()] adds up, so the order
    of the entries plays no part. *)
Record Stats := {
  totalEntries : Z;
  activeEntries : Z;
  totalViolations : Z;
}.

Definition getStats (now : Z) (rl : t) : Stats :=
  {| totalEntries := Z.of_nat (size (store rl));
     activeEntries :=
       map_fold (λ _ entry n,
                   if decide (now <= resetTime entry) then n + 1 else n)
                0 (store rl);
     totalViolations :=
       map_fold (λ _ entry n, n + violations entry) 0 (store rl) |}.

(** The calls a limiter receives: the public methods, and the sweep the
    timer of the constructor runs. *)
Inductive Op :=
  | IsAllowed (now : Z) (identifier : string)
  | Cleanup (now : Z)
  | Reset (identifier : string)
  | Destroy.

Definition step (rl : t) (op : Op) : t :=
  match op with
  | IsAllowed now k => (isAllowed now k rl).1
  | Cleanup now => cleanup now rl
  | Reset k => reset k rl
  | Destroy => destroy rl
  end.

Definition run (ops : list Op) (rl : t) : t := foldl step rl ops.

End AdvancedRateLimiter.

(** ** Arrays and insertion-ordered maps *)

(** [Array.prototype.slice(start)]: a negative [start] counts from the
    end, and both cases are clamped to the array. *)
Definition slice_from {A} (start : Z) (l : list A) : list A :=
  let len := Z.of_nat (length l) in
  let k := if decide (start < 0) then Z.max (len + start) 0
           else Z.min start len in
  drop (Z.to_nat k) l.

(** [Array.prototype.shift()], keeping the array. *)
Definition shift {A} (l : list A) : list A := tail l.

(** [Array.prototype.sort(cmp)]: the sort is stable, so for a comparator
    that orders by a key the result is the one insertion from the right
    computes: each element goes behind the elements that come strictly
    before it ([cmp x y > 0]) and stays in front of its ties, which were
    behind it in the array. *)
Fixpoint sort_insert {A} (cmp : A → A → Z) (x : A) (l : list A) : list A :=
  match l with
  | [] => [x]
  | y :: r => if decide (cmp x y <= 0) then x :: y :: r
              else y :: sort_insert cmp x r
  end.

Definition js_sort {A} (cmp : A → A → Z) (l : list A) : list A :=
  foldr (sort_insert cmp) [] l.

(** A [Map] in insertion order: [get], [set] (a present key keeps its
    place), [delete]. *)
Fixpoint assoc_get {K V} `{EqDecision K} (k : K) (m : list (K * V))
    : option V :=
  match m with
  | [] => None
  | (k', v) :: r => if decide (k' = k) then Some v else assoc_get k r
  end.

Fixpoint assoc_set {K V} `{EqDecision K} (k : K) (v : V) (m : list (K * V))
    : list (K * V) :=
  match m with
  | [] => [(k, v)]
  | (k', v') :: r => if decide (k' = k) then (k, v) :: r
                     else (k', v') :: assoc_set k v r
  end.

Definition assoc_delete {K V} `{EqDecision K} (k : K) (m : list (K * V))
    : list (K * V) :=
  filter (λ kv, kv.1 ≠ k) m.

(** [keys.forEach(k => m.set(k, (m.get(k) || 0) + 1))] from a map [m]. *)
Definition tally_from {K} `{EqDecision K} (m : list (K * Z)) (keys : list K)
    : list (K * Z) :=
  foldl (λ m k, assoc_set k (js_or (assoc_get k m) 0 + 1) m) m keys.

Definition tally {K} `{EqDecision K} (keys : list K) : list (K * Z) :=
  tally_from [] keys.

(** [obj[k]++] on an object that holds every key. *)
Definition incr_key {K} `{EqDecision K} (k : K) (m : list (K * Z))
    : list (K * Z) :=
  (λ kv, if decide (kv.1 = k) then (kv.1, kv.2 + 1) else kv) <$> m.

Definition sum_values {K} (m : list (K * Z)) : Z :=
  foldr (λ kv acc, kv.2 + acc) 0 m.

(** How many elements of [l] satisfy [P]. *)
Definition count_where {A} (P : A → Prop) `{∀ x, Decision (P x)}
    (l : list A) : Z :=
  Z.of_nat (length (filter P l)).

(** ** The security monitor (security-monitor.ts) *)

Module SecurityMonitor.

Inductive SecurityEventType :=
  | RATE_LIMIT_EXCEEDED
  | SUSPICIOUS_INPUT
  | AUTHENTICATION_FAILURE
  | UNAUTHORIZED_ACCESS
  | SQL_INJECTION_ATTEMPT
  | XSS_ATTEMPT
  | CSRF_TOKEN_MISMATCH
  | FILE_UPLOAD_VIOLATION
  | SECURITY_HEADER_MISSING
  | MALFORMED_REQUEST
  | BRUTE_FORCE_ATTEMPT
  | ANOMALOUS_BEHAVIOR.

Inductive Severity := low | medium | high | critical.

Inductive Action := log | alert | block.

#[global] Instance SecurityEventType_eq_dec : EqDecision SecurityEventType.
Proof. solve_decision. Defined.

#[global] Instance Severity_eq_dec : EqDecision Severity.
Proof. solve_decision. Defined.

#[global] Instance Action_eq_dec : EqDecision Action.
Proof. solve_decision. Defined.

(** [Object.values(SecurityEventType)], in declaration order. *)
Definition SecurityEventType_values : list SecurityEventType :=
  [ RATE_LIMIT_EXCEEDED; SUSPICIOUS_INPUT; AUTHENTICATION_FAILURE;
    UNAUTHORIZED_ACCESS; SQL_INJECTION_ATTEMPT; XSS_ATTEMPT;
    CSRF_TOKEN_MISMATCH; FILE_UPLOAD_VIOLATION; SECURITY_HEADER_MISSING;
    MALFORMED_REQUEST; BRUTE_FORCE_ATTEMPT; ANOMALOUS_BEHAVIOR ].

Definition Action_string (a : Action) : string :=
  match a with log => "log" | alert => "alert" | block => "block" end.

(** A value of the open [details] record. *)
Inductive JsValue := JStr (s : string) | JNum (n : Z) | JBool (b : bool).

Record Metadata := {
  userAgent : option string;
  ip : option string;
  userId : option string;
  sessionId : option string;
  requestId : option string;
}.

Record SecurityEvent := {
  id : string;
  timestamp : Z;
  type : SecurityEventType;
  severity : Severity;
  source : string;
  details : list (string * JsValue);
  metadata : Metadata;
}.

(** [Omit<SecurityEvent, 'id' | 'timestamp'>], the argument of
    [recordEvent].  The type leaves [id] and [timestamp] out of what the
    argument must have, it does not forbid them: a [SecurityEvent] is
    accepted.  [in_id] and [in_timestamp] are the [id] and the
    [timestamp] the argument carries, when it carries them. *)
Record EventInput := {
  in_id : option string;
  in_timestamp : option Z;
  in_type : SecurityEventType;
  in_severity : Severity;
  in_source : string;
  in_details : list (string * JsValue);
  in_metadata : Metadata;
}.

(** What a call of a user-supplied closure does: it returns or throws. *)
Inductive Outcome (A : Type) :=
  | Returns (a : A)
  | Throws (err : string).
Arguments Returns {A} a.
Arguments Throws {A} err.

(** [condition] reads the clock in the default rules, so it receives the
    instant of the call with the event history. *)
Record ThreatDetectionRule := {
  rule_id : string;
  name : string;
  description : string;
  eventTypes : list SecurityEventType;
  condition : Z → list SecurityEvent → Outcome bool;
  action : Action;
  rule_severity : Severity;
  cooldown : Z;
}.

Record SourceCount := { sc_source : string; sc_count : Z }.

Record AlertThresholds := {
  rateLimit : Z;
  authFailures : Z;
  injectionAttempts : Z;
}.

Record SecurityMetrics := {
  totalEvents : Z;
  eventsByType : list (SecurityEventType * Z);
  eventsBySeverity : list (Severity * Z);
  recentEvents : list SecurityEvent;
  topSources : list SourceCount;
  alertThresholds : AlertThresholds;
}.

(** The notifications [emit] sends, by event name. *)
Inductive Emission :=
  | securityEvent (e : SecurityEvent)
  | threatDetected (rule : ThreatDetectionRule)
      (triggerEvent threatEvent : SecurityEvent)
  | blockRequest (src : string) (rule : ThreatDetectionRule)
  | securityAlert (rule : ThreatDetectionRule) (triggerEvent : SecurityEvent).

(** The instance state, with the two pieces of the outside world the
    class writes to or draws from: the emitted notifications and the
    random suffixes of the event ids. *)
Record t := {
  events : list SecurityEvent;
  metrics : SecurityMetrics;
  threatRules : list (string * ThreatDetectionRule);
  lastRuleTrigger : gmap string Z;
  maxEventsHistory : Z;
  emitted : list Emission;
  random : nat → string;
  drawn : nat;
}.

Definition with_events (f : list SecurityEvent → list SecurityEvent)
    (m : t) : t :=
  {| events := f (events m); metrics := metrics m;
     threatRules := threatRules m; lastRuleTrigger := lastRuleTrigger m;
     maxEventsHistory := maxEventsHistory m; emitted := emitted m;
     random := random m; drawn := drawn m |}.

Definition with_metrics (f : SecurityMetrics → SecurityMetrics) (m : t) : t :=
  {| events := events m; metrics := f (metrics m);
     threatRules := threatRules m; lastRuleTrigger := lastRuleTrigger m;
     maxEventsHistory := maxEventsHistory m; emitted := emitted m;
     random := random m; drawn := drawn m |}.

Definition with_threatRules
    (f : list (string * ThreatDetectionRule) →
         list (string * ThreatDetectionRule)) (m : t) : t :=
  {| events := events m; metrics := metrics m;
     threatRules := f (threatRules m); lastRuleTrigger := lastRuleTrigger m;
     maxEventsHistory := maxEventsHistory m; emitted := emitted m;
     random := random m; drawn := drawn m |}.

Definition with_lastRuleTrigger (f : gmap string Z → gmap string Z)
    (m : t) : t :=
  {| events := events m; metrics := metrics m;
     threatRules := threatRules m; lastRuleTrigger := f (lastRuleTrigger m);
     maxEventsHistory := maxEventsHistory m; emitted := emitted m;
     random := random m; drawn := drawn m |}.

Definition emit (x : Emission) (m : t) : t :=
  {| events := events m; metrics := metrics m;
     threatRules := threatRules m; lastRuleTrigger := lastRuleTrigger m;
     maxEventsHistory := maxEventsHistory m; emitted := emitted m ++ [x];
     random := random m; drawn := drawn m |}.

(** *** Calls that may throw

    A method runs on the instance and either returns or throws; what it
    wrote before throwing stays written. *)
Definition M (A : Type) : Type := t → t * Outcome A.

Definition ret {A} (a : A) : M A := λ m, (m, Returns a).

Definition bind {A B} (c : M A) (k : A → M B) : M B :=
  λ m, match c m with
       | (m', Returns a) => k a m'
       | (m', Throws err) => (m', Throws err)
       end.

Definition modify (f : t → t) : M unit := λ m, (f m, Returns tt).

Definition gets {A} (f : t → A) : M A := λ m, (m, Returns (f m)).

(** Calling a closure of the user: its outcome becomes the call's. *)
Definition call {A} (o : Outcome A) : M A := λ m, (m, o).

Notation "'do' x <- c ; k" := (bind c (λ x, k))
  (at level 10, x name, c at level 100, k at level 200, only parsing).
Notation "c ;; k" := (bind c (λ _, k))
  (at level 100, k at level 200, right associativity, only parsing).

(** *** Metrics *)

Definition initializeMetrics : SecurityMetrics :=
  {| totalEvents := 0;
     eventsByType := (λ ty, (ty, 0)) <$> SecurityEventType_values;
     eventsBySeverity := [(low, 0); (medium, 0); (high, 0); (critical, 0)];
     recentEvents := [];
     topSources := [];
     alertThresholds :=
       {| rateLimit := 100; authFailures := 10; injectionAttempts := 5 |} |}.

(** [find(s => s.source === source)] followed by [existing.count++]:
    [None] when no entry has the source. *)
Fixpoint bump_existing (src : string) (l : list SourceCount)
    : option (list SourceCount) :=
  match l with
  | [] => None
  | s :: r =>
      if decide (sc_source s = src)
      then Some ({| sc_source := sc_source s; sc_count := sc_count s + 1 |} :: r)
      else (s ::.) <$> bump_existing src r
  end.

(** The list [updateTopSources] sorts: the entry counted, or pushed. *)
Definition counted (src : string) (l : list SourceCount) : list SourceCount :=
  match bump_existing src l with
  | Some l' => l'
  | None => l ++ [{| sc_source := src; sc_count := 1 |}]
  end.

Definition by_count_desc (a b : SourceCount) : Z := sc_count b - sc_count a.

Definition updateTopSources (src : string) (l : list SourceCount)
    : list SourceCount :=
  take 10 (js_sort by_count_desc (counted src l)).

Definition updateMetrics (event : SecurityEvent) (x : SecurityMetrics)
    : SecurityMetrics :=
  {| totalEvents := totalEvents x + 1;
     eventsByType := incr_key (type event) (eventsByType x);
     eventsBySeverity := incr_key (severity event) (eventsBySeverity x);
     recentEvents :=
       (let r := recentEvents x ++ [event] in
        if decide (Z.of_nat (length r) > 10) then shift r else r);
     topSources := updateTopSources (source event) (topSources x);
     alertThresholds := alertThresholds x |}.

Definition getMetrics (m : t) : SecurityMetrics := metrics m.

(** *** Event ids *)

Definition generateEventId (now : Z) : M string :=
  λ m, ({| events := events m; metrics := metrics m;
           threatRules := threatRules m;
           lastRuleTrigger := lastRuleTrigger m;
           maxEventsHistory := maxEventsHistory m; emitted := emitted m;
           random := random m; drawn := S (drawn m) |},
        Returns ("sec_" +:+ pretty now +:+ "_" +:+ random m (drawn m))).

(** *** Threat rules *)

Definition handleThreatDetection (now : Z) (rule : ThreatDetectionRule)
    (triggerEvent : SecurityEvent) : M unit :=
  do eid <- generateEventId now;
  let threatEvent :=
    {| id := eid;
       timestamp := now;
       type := ANOMALOUS_BEHAVIOR;
       severity := rule_severity rule;
       source := source triggerEvent;
       details := [ ("ruleName", JStr (name rule));
                    ("ruleDescription", JStr (description rule));
                    ("triggerEvent", JStr (id triggerEvent));
                    ("action", JStr (Action_string (action rule))) ];
       metadata := metadata triggerEvent |} in
  modify (with_events (λ evs, evs ++ [threatEvent])) ;;
  modify (with_metrics (updateMetrics threatEvent)) ;;
  modify (emit (threatDetected rule triggerEvent threatEvent)) ;;
  match action rule with
  | block => modify (emit (blockRequest (source triggerEvent) rule))
  | alert => modify (emit (securityAlert rule triggerEvent))
  | log => ret tt
  end.

(** [lastTrigger && Date.now() - lastTrigger < rule.cooldown] *)
Definition in_cooldown (now : Z) (lastTrigger : option Z)
    (rule : ThreatDetectionRule) : bool :=
  match lastTrigger with
  | Some last => bool_decide (last ≠ 0 ∧ now - last < cooldown rule)
  | None => false
  end.

(** The body of the loop of [checkThreatRules] for one map entry. *)
Definition checkThreatRule (now : Z) (event : SecurityEvent)
    (ruleId : string) (rule : ThreatDetectionRule) : M unit :=
  if negb (bool_decide (type event ∈ eventTypes rule)) then ret tt
  else
    do lastTrigger <- gets (λ m, lastRuleTrigger m !! ruleId);
    if in_cooldown now lastTrigger rule then ret tt
    else
      do evs <- gets events;
      do fires <- call (condition rule now evs);
      if (fires : bool) then
        modify (with_lastRuleTrigger (<[ruleId := now]>)) ;;
        handleThreatDetection now rule event
      else ret tt.

Fixpoint checkThreatRules_loop (now : Z) (event : SecurityEvent)
    (rules : list (string * ThreatDetectionRule)) : M unit :=
  match rules with
  | [] => ret tt
  | (ruleId, rule) :: rest =>
      checkThreatRule now event ruleId rule ;;
      checkThreatRules_loop now event rest
  end.

Definition checkThreatRules (now : Z) (event : SecurityEvent) : M unit :=
  do rules <- gets threatRules;
  checkThreatRules_loop now event rules.

Definition addThreatRule (rule : ThreatDetectionRule) (m : t) : t :=
  with_threatRules (assoc_set (rule_id rule) rule) m.

Definition removeThreatRule (ruleId : string) (m : t) : t :=
  with_lastRuleTrigger (delete ruleId)
    (with_threatRules (assoc_delete ruleId) m).

(** *** Recording *)

(** [{ id: this.generateEventId(), timestamp: Date.now(), ...event }]:
    the argument is spread last, so an [id] or a [timestamp] it carries
    replaces the generated one. *)
Definition recordEvent (now : Z) (event : EventInput) : M SecurityEvent :=
  do eid <- generateEventId now;
  let fullEvent :=
    {| id := default eid (in_id event);
       timestamp := default now (in_timestamp event);
       type := in_type event;
       severity := in_severity event; source := in_source event;
       details := in_details event; metadata := in_metadata event |} in
  modify (with_events (λ evs, evs ++ [fullEvent])) ;;
  do cap <- gets maxEventsHistory;
  do len <- gets (λ m, Z.of_nat (length (events m)));
  (if decide (len > cap) then modify (with_events shift) else ret tt) ;;
  modify (with_metrics (updateMetrics fullEvent)) ;;
  checkThreatRules now fullEvent ;;
  modify (emit (securityEvent fullEvent)) ;;
  ret fullEvent.

(** *** Reading the log *)

(** [getRecentEvents(limit = 100)]: [None] is the omitted argument. *)
Definition getRecentEvents (limit : option Z) (m : t) : list SecurityEvent :=
  slice_from (- default 100 limit) (events m).

Definition getEventsByType (ty : SecurityEventType) (limit : option Z)
    (m : t) : list SecurityEvent :=
  slice_from (- default 100 limit) (filter (λ e, type e = ty) (events m)).

Definition getEventsBySeverity (sev : Severity) (limit : option Z)
    (m : t) : list SecurityEvent :=
  slice_from (- default 100 limit) (filter (λ e, severity e = sev) (events m)).

Definition getEventsInRange (startTime endTime : Z) (m : t)
    : list SecurityEvent :=
  filter (λ e, timestamp e >= startTime ∧ timestamp e <= endTime) (events m).

(** [isSuspiciousSource(source, timeWindow = 300000)] *)
Definition isSuspiciousSource (now : Z) (src : string) (timeWindow : option Z)
    (m : t) : bool :=
  let cutoff := now - default 300000 timeWindow in
  let recentEvents :=
    filter (λ e, source e = src ∧ timestamp e > cutoff ∧
                 (severity e = high ∨ severity e = critical)) (events m) in
  bool_decide (Z.of_nat (length recentEvents) > 5).

(** *** Reports *)

Record Summary := {
  sum_totalEvents : Z;
  criticalEvents : Z;
  highSeverityEvents : Z;
  uniqueSources : Z;
}.

Record Report := {
  summary : Summary;
  topThreats : list (SecurityEventType * Z);
  suspiciousSources : list string;
  recommendations : list string;
}.

Definition generateRecommendations (evs : list SecurityEvent) : list string :=
  let criticalCount := count_where (λ e, severity e = critical) evs in
  let highCount := count_where (λ e, severity e = high) evs in
  let injectionAttempts :=
    count_where (λ e, type e = SQL_INJECTION_ATTEMPT ∨ type e = XSS_ATTEMPT)
      evs in
  let authFailures :=
    count_where (λ e, type e = AUTHENTICATION_FAILURE) evs in
  (if decide (criticalCount > 0)
   then [pretty criticalCount +:+
         " critical security events detected - immediate action required"]
   else []) ++
  (if decide (highCount > 10)
   then ["High volume of high-severity events - consider tightening security policies"]
   else []) ++
  (if decide (injectionAttempts > 5)
   then ["Multiple injection attempts detected - review input validation and sanitization"]
   else []) ++
  (if decide (authFailures > 20)
   then ["High number of authentication failures - consider implementing account lockout policies"]
   else []).

Definition generateReport (startTime endTime : Z) (m : t) : Report :=
  let evs := getEventsInRange startTime endTime m in
  let threatCounts := tally (type <$> evs) in
  let sourceCounts := tally (source <$> evs) in
  {| summary :=
       {| sum_totalEvents := Z.of_nat (length evs);
          criticalEvents := count_where (λ e, severity e = critical) evs;
          highSeverityEvents := count_where (λ e, severity e = high) evs;
          uniqueSources :=
            Z.of_nat (length (remove_dups (source <$> evs))) |};
     topThreats :=
       take 10 (js_sort (λ a b, b.2 - a.2) threatCounts);
     suspiciousSources :=
       fst <$> filter (λ sc, sc.2 > 10) sourceCounts;
     recommendations := generateRecommendations evs |}.

(** *** Construction and reset *)

Definition clear (m : t) : t :=
  {| events := []; metrics := initializeMetrics;
     threatRules := threatRules m; lastRuleTrigger := ∅;
     maxEventsHistory := maxEventsHistory m; emitted := emitted m;
     random := random m; drawn := drawn m |}.

(** [values().some(count => count >= n)] over the per-source counts. *)
Definition some_source_at_least (n : Z) (evs : list SecurityEvent) : bool :=
  bool_decide (Exists (λ sc : string * Z, sc.2 >= n) (tally (source <$> evs))).

Definition brute_force_detection : ThreatDetectionRule :=
  {| rule_id := "brute_force_detection";
     name := "Brute Force Attack Detection";
     description :=
       "Detects multiple authentication failures from the same source";
     eventTypes := [AUTHENTICATION_FAILURE];
     condition := λ now evs,
       let recent :=
         filter (λ e, type e = AUTHENTICATION_FAILURE ∧
                      now - timestamp e < 300000) evs in
       Returns (some_source_at_least 5 recent);
     action := block;
     rule_severity := high;
     cooldown := 600000 |}.

Definition injection_attack_pattern : ThreatDetectionRule :=
  {| rule_id := "injection_attack_pattern";
     name := "Injection Attack Pattern";
     description := "Detects patterns of SQL/NoSQL injection attempts";
     eventTypes := [SQL_INJECTION_ATTEMPT];
     condition := λ now evs,
       let recent :=
         filter (λ e, type e = SQL_INJECTION_ATTEMPT ∧
                      now - timestamp e < 600000) evs in
       Returns (bool_decide (Z.of_nat (length recent) >= 3));
     action := alert;
     rule_severity := high;
     cooldown := 300000 |}.

Definition rate_limit_abuse : ThreatDetectionRule :=
  {| rule_id := "rate_limit_abuse";
     name := "Rate Limit Abuse";
     description := "Detects persistent rate limit violations";
     eventTypes := [RATE_LIMIT_EXCEEDED];
     condition := λ now evs,
       let recent :=
         filter (λ e, type e = RATE_LIMIT_EXCEEDED ∧
                      now - timestamp e < 3600000) evs in
       Returns (some_source_at_least 10 recent);
     action := block;
     rule_severity := medium;
     cooldown := 1800000 |}.

Definition defaultRules : list ThreatDetectionRule :=
  [brute_force_detection; injection_attack_pattern; rate_limit_abuse].

Definition loadDefaultThreatRules (m : t) : t :=
  foldl (λ m rule, addThreatRule rule m) m defaultRules.

Record Config := {
  cfg_maxEventsHistory : option Z;
  threatDetectionRules : option (list ThreatDetectionRule);
}.

(** [new SecurityMonitor(config)], given the random suffixes the ids
    will draw from. *)
Definition constructor (rnd : nat → string) (config : Config) : t :=
  let m0 :=
    {| events := []; metrics := initializeMetrics; threatRules := [];
       lastRuleTrigger := ∅;
       maxEventsHistory := js_or (cfg_maxEventsHistory config) 10000;
       emitted := []; random := rnd; drawn := 0%nat |} in
  let m1 := loadDefaultThreatRules m0 in
  match threatDetectionRules config with
  | Some rules => foldl (λ m rule, addThreatRule rule m) m1 rules
  | None => m1
  end.

(** *** Sequences of calls *)

(** The instance after [recordEvent(event)] at [now], whether the call
    returned or threw. *)
Definition record (now : Z) (event : EventInput) (m : t) : t :=
  (recordEvent now event m).1.

(** One [recordEvent] per element, in order. *)
Definition recordAll (calls : list (Z * EventInput)) (m : t) : t :=
  foldl (λ m c, record c.1 c.2 m) m calls.

(** The notifications of a given rule among [threatDetected]. *)
Definition is_threatDetected (x : Emission) : bool :=
  match x with threatDetected _ _ _ => true | _ => false end.

Definition fired (ruleId : string) (x : Emission) : bool :=
  match x with
  | threatDetected rule _ _ => bool_decide (rule_id rule = ruleId)
  | _ => false
  end.

Definition countThreats (l : list Emission) : Z :=
  Z.of_nat (length (filter (λ x, is_threatDetected x = true) l)).

Definition threatsDetected (m : t) : Z := countThreats (emitted m).

(** The synthetic events of the [threatDetected] notifications of [l],
    in order. *)
Definition threatEvents (l : list Emission) : list SecurityEvent :=
  omap (λ x, match x with
             | threatDetected _ _ threatEvent => Some threatEvent
             | _ => None
             end) l.

(** How many [threatDetected] notifications name the rule [ruleId]. *)
Definition countFirings (ruleId : string) (l : list Emission) : Z :=
  Z.of_nat (length (filter (λ x, fired ruleId x = true) l)).

Definition firings (ruleId : string) (m : t) : Z :=
  countFirings ruleId (emitted m).

(** A [threatDetected] notification that comes from submitting [event]
    to the rules: [event] is its trigger, its rule listens to the type
    of [event], and its synthetic event is in the history [evs]. *)
Definition triggered_by (event : SecurityEvent) (evs : list SecurityEvent)
    (x : Emission) : Prop :=
  match x with
  | threatDetected rule triggerEvent threatEvent =>
      triggerEvent = event
      ∧ type event ∈ eventTypes rule
      ∧ type threatEvent = ANOMALOUS_BEHAVIOR
      ∧ threatEvent ∈ evs
  | _ => True
  end.

(** The entries of a rule map whose rule listens to the type [ty]. *)
Definition listening (ty : SecurityEventType)
    (rules : list (string * ThreatDetectionRule))
    : list (string * ThreatDetectionRule) :=
  filter (λ kv, ty ∈ eventTypes kv.2) rules.

(** [eventsByType] holds every type once and adds up to [totalEvents]. *)
Definition by_type_consistent (x : SecurityMetrics) : Prop :=
  (eventsByType x).*1 = SecurityEventType_values
  ∧ sum_values (eventsByType x) = totalEvents x.

(** The event [recordEvent] builds from its argument, given its id. *)
Definition fullEventOf (eid : string) (now : Z) (event : EventInput)
    : SecurityEvent :=
  {| id := default eid (in_id event);
     timestamp := default now (in_timestamp event);
     type := in_type event;
     severity := in_severity event; source := in_source event;
     details := in_details event; metadata := in_metadata event |}.

(** The first half of [recordEvent], up to the call of
    [checkThreatRules]: the event stored, the history capped, the
    metrics updated. *)
Definition storeEvent (now : Z) (event : EventInput) : M SecurityEvent :=
  do eid <- generateEventId now;
  let fullEvent := fullEventOf eid now event in
  modify (with_events (λ evs, evs ++ [fullEvent])) ;;
  do cap <- gets maxEventsHistory;
  do len <- gets (λ m, Z.of_nat (length (events m)));
  (if decide (len > cap) then modify (with_events shift) else ret tt) ;;
  modify (with_metrics (updateMetrics fullEvent)) ;;
  ret fullEvent.

(** The instance after the rule under [ruleId] has fired for [event]:
    the two statements of the [if (rule.condition(...))] branch. *)
Definition fire (now : Z) (event : SecurityEvent)
    (kv : string * ThreatDetectionRule) (m : t) : t :=
  (bind (modify (with_lastRuleTrigger (<[kv.1 := now]>)))
        (λ _, handleThreatDetection now kv.2 event) m).1.

(** The rule map is a [Map] filled by [addThreatRule]: keys are
    distinct and each is the id of its rule. *)
Definition rules_wf (m : t) : Prop :=
  NoDup (threatRules m).*1 ∧
  Forall (λ kv, kv.1 = rule_id kv.2) (threatRules m).

(** Descending by count. *)
Definition count_desc (l : list SourceCount) : Prop :=
  StronglySorted (λ a b, sc_count a >= sc_count b) l.

(** The entries of a list of sources that have the count [c]. *)
Definition with_count (c : Z) (l : list SourceCount) : list SourceCount :=
  filter (λ s, sc_count s = c) l.

(** The calls that change a monitor. *)
Inductive Op :=
  | RecordEvent (now : Z) (event : EventInput)
  | AddThreatRule (rule : ThreatDetectionRule)
  | RemoveThreatRule (ruleId : string)
  | Clear.

Definition step (m : t) (op : Op) : t :=
  match op with
  | RecordEvent now event => record now event m
  | AddThreatRule rule => addThreatRule rule m
  | RemoveThreatRule ruleId => removeThreatRule ruleId m
  | Clear => clear m
  end.

Definition run (ops : list Op) (m : t) : t := foldl step m ops.

(** Only registered ids have a last firing time. *)
Definition triggers_registered (m : t) : Prop :=
  ∀ rid, is_Some (lastRuleTrigger m !! rid) → rid ∈ (threatRules m).*1.

(** The metrics are those of the log: its length, and for each type and
    severity the number of its events that have it. *)
Definition metrics_match_log (m : t) : Prop :=
  Z.of_nat (length (events m)) = totalEvents (metrics m)
  ∧ (∀ ty, assoc_get ty (eventsByType (metrics m))
           = Some (count_where (λ e, type e = ty) (events m)))
  ∧ (∀ sev, assoc_get sev (eventsBySeverity (metrics m))
            = Some (count_where (λ e, severity e = sev) (events m))).

(** The timestamps one call can write, in the order it writes them:
    that of the recorded event (the one its argument carries, or else
    the clock), then the clock, for the synthetic events. *)
Definition stamps (c : Z * EventInput) : list Z :=
  [default c.1 (in_timestamp c.2); c.1].

(** The report of a range that holds no event. *)
Definition empty_report : Report :=
  {| summary := {| sum_totalEvents := 0; criticalEvents := 0;
                   highSeverityEvents := 0; uniqueSources := 0 |};
     topThreats := []; suspiciousSources := []; recommendations := [] |}.

End SecurityMonitor.

(** ** Concrete instances used as witnesses and counterexamples *)

Module Scenarios.

Definition limiter_1_per_second : AdvancedRateLimiter.t :=
  AdvancedRateLimiter.constructor
    {| AdvancedRateLimiter.windowMs := Present (Some 1000);
       AdvancedRateLimiter.max := Absent;
       AdvancedRateLimiter.maxRequests := Present (Some 1) |}.

Definition limiter_2_per_second : AdvancedRateLimiter.t :=
  AdvancedRateLimiter.constructor
    {| AdvancedRateLimiter.windowMs := Present (Some 1000);
       AdvancedRateLimiter.max := Absent;
       AdvancedRateLimiter.maxRequests := Present (Some 2) |}.

Import SecurityMonitor.

Definition no_metadata : Metadata :=
  {| userAgent := None; ip := None; userId := None; sessionId := None;
     requestId := None |}.

Definition input (ty : SecurityEventType) (sev : Severity) (src : string)
    : EventInput :=
  {| in_id := None; in_timestamp := None; in_type := ty;
     in_severity := sev; in_source := src; in_details := [];
     in_metadata := no_metadata |}.

(** [new SecurityMonitor({ maxEventsHistory: 5 })] *)
Definition monitor_cap_5 : t :=
  constructor (λ n, pretty n)
    {| cfg_maxEventsHistory := Some 5; threatDetectionRules := None |}.

(** Five authentication failures of one source within one second. *)
Definition five_auth_failures : list (Z * EventInput) :=
  (λ i, (1000 + i, input AUTHENTICATION_FAILURE medium "1.2.3.4"))
    <$> [0; 1; 2; 3; 4].

(** [new SecurityMonitor()] *)
Definition monitor_default : t :=
  constructor (λ n, pretty n)
    {| cfg_maxEventsHistory := None; threatDetectionRules := None |}.

(** A rule whose condition throws, registered before one that always
    fires. *)
Definition faulty_rule : ThreatDetectionRule :=
  {| rule_id := "faulty"; name := "Faulty"; description := "throws";
     eventTypes := [XSS_ATTEMPT];
     condition := λ _ _, Throws "boom";
     action := log; rule_severity := low; cooldown := 0 |}.

Definition eager_rule : ThreatDetectionRule :=
  {| rule_id := "eager"; name := "Eager"; description := "always fires";
     eventTypes := [XSS_ATTEMPT];
     condition := λ _ _, Returns true;
     action := log; rule_severity := low; cooldown := 1000 |}.

Definition monitor_faulty : t :=
  constructor (λ n, pretty n)
    {| cfg_maxEventsHistory := None;
       threatDetectionRules := Some [faulty_rule; eager_rule] |}.

Definition monitor_eager : t :=
  constructor (λ n, pretty n)
    {| cfg_maxEventsHistory := None;
       threatDetectionRules := Some [eager_rule] |}.

Definition xss (src : string) : EventInput := input XSS_ATTEMPT high src.

(** [monitor_eager] once [eager_rule] has fired, at 5000. *)
Definition monitor_eager_fired : t := record 5000 (xss "6.6.6.6") monitor_eager.

(** [eager_rule] redefined under the same id with a cooldown of 10 ms. *)
Definition quick_rule : ThreatDetectionRule :=
  {| rule_id := "eager"; name := "Quick"; description := "always fires";
     eventTypes := [XSS_ATTEMPT];
     condition := λ _ _, Returns true;
     action := log; rule_severity := low; cooldown := 10 |}.

(** The first four of [five_auth_failures]. *)
Definition four_auth_failures : list (Z * EventInput) :=
  (λ i, (1000 + i, input AUTHENTICATION_FAILURE medium "1.2.3.4"))
    <$> [0; 1; 2; 3].

(** An event that carries a timestamp of its own, as a [SecurityEvent]
    passed to [recordEvent] does. *)
Definition stamped (ts : Z) (src : string) : EventInput :=
  {| in_id := Some "replayed"; in_timestamp := Some ts;
     in_type := XSS_ATTEMPT; in_severity := low; in_source := src;
     in_details := []; in_metadata := no_metadata |}.

(** Source A, then B twice, then A again. *)
Definition a_b_b_a : list (Z * EventInput) :=
  [(1, xss "A"); (2, xss "B"); (3, xss "B"); (4, xss "A")].

End Scenarios.

(** * Properties *)

(** ** Rate limiter *)

Module AdvancedRateLimiterProps.
Import AdvancedRateLimiter Scenarios.

#[local] Arguments limits : simpl never.

Lemma ceil_div_nonneg (a : Z) : 0 <= a → 0 <= ceil_div a 1000.
Proof.
  intros Ha. unfold ceil_div.
  assert (- a / 1000 <= 0) by (apply Z.div_le_upper_bound; lia). lia.
Qed.

Lemma ceil_div_pos (a : Z) : 0 < a → 0 < ceil_div a 1000.
Proof.
  intros Ha. unfold ceil_div.
  assert (- a / 1000 < 0) by (apply Z.div_lt_upper_bound; lia). lia.
Qed.

Lemma isAllowed_config (now : Z) (k : string) (rl : t) :
  config (isAllowed now k rl).1 = config rl.
Proof. unfold isAllowed. by case_decide. Qed.

Lemma isAllowed_limits (now : Z) (k : string) (rl : t) :
  limits (isAllowed now k rl).1 = limits rl.
Proof. unfold limits. by rewrite isAllowed_config. Qed.

(** The first call on a key without a live window opens one and counts
    itself. *)
Lemma isAllowed_opens (now : Z) (k : string) (rl : t) :
  opens_window now k rl →
  0 < lim_maxRequests (limits rl) →
  ∃ v, store (isAllowed now k rl).1 !! k
       = Some {| count := 1; resetTime := now + lim_windowMs (limits rl);
                 violations := v |}
     ∧ allowed (isAllowed now k rl).2 = true.
Proof.
  intros Hopen Hmax. unfold opens_window in Hopen. unfold isAllowed.
  exists (carried_violations (store rl !! k)).
  generalize dependent (limits rl). intros lim Hmax.
  assert (current_entry now lim (store rl !! k)
          = {| count := 0; resetTime := now + lim_windowMs lim;
               violations := carried_violations (store rl !! k) |}) as ->.
  { unfold current_entry. destruct (store rl !! k) as [e|]; [|done].
    by rewrite decide_True. }
  cbn. rewrite decide_False by lia. cbn. by rewrite lookup_insert_eq.
Qed.

Lemma current_entry_live (now : Z) (lim : Limits) (e : RateLimitEntry) :
  now <= resetTime e → current_entry now lim (Some e) = e.
Proof. intros. unfold current_entry. by rewrite decide_False by lia. Qed.

(** A call inside a live window that still has room takes one unit. *)
Lemma isAllowed_counts (now : Z) (k : string) (rl : t) (e : RateLimitEntry) :
  store rl !! k = Some e →
  now <= resetTime e →
  count e < lim_maxRequests (limits rl) →
  store (isAllowed now k rl).1 !! k
    = Some {| count := count e + 1; resetTime := resetTime e;
              violations := violations e |}
  ∧ allowed (isAllowed now k rl).2 = true.
Proof.
  intros Hk Hnow Hroom. unfold isAllowed.
  rewrite Hk, current_entry_live by done.
  generalize dependent (limits rl). intros lim Hroom. cbn zeta.
  rewrite decide_False by lia. cbn.
  by rewrite lookup_insert_eq.
Qed.

(** A call inside a live window that is full is refused and counted as
    a violation. *)
Lemma isAllowed_full (now : Z) (k : string) (rl : t) (e : RateLimitEntry) :
  store rl !! k = Some e →
  now <= resetTime e →
  count e >= lim_maxRequests (limits rl) →
  isAllowed now k rl
  = ({| store := <[k := {| count := count e; resetTime := resetTime e;
                           violations := violations e + 1 |}]> (store rl);
        config := config rl |},
     {| allowed := false; remaining := 0; resetAt := resetTime e;
        retryAfter := Some (ceil_div (resetTime e - now) 1000) |}).
Proof.
  intros Hk Hnow Hfull. unfold isAllowed.
  rewrite Hk, current_entry_live by done.
  generalize dependent (limits rl). intros lim Hfull. cbn zeta.
  by rewrite decide_True by lia.
Qed.

Lemma calls_in_window (ts : list Z) (k : string) (rl : t)
    (e : RateLimitEntry) :
  store rl !! k = Some e →
  Forall (λ ti, ti <= resetTime e) ts →
  count e + Z.of_nat (length ts) <= lim_maxRequests (limits rl) →
  store (calls ts k rl).1 !! k
    = Some {| count := count e + Z.of_nat (length ts);
              resetTime := resetTime e; violations := violations e |}
  ∧ Forall (λ d, allowed d = true) (calls ts k rl).2
  ∧ limits (calls ts k rl).1 = limits rl.
Proof.
  revert rl e. induction ts as [|now ts IH]; intros rl e Hk Hts Hroom.
  - cbn. rewrite Hk. split_and!; [|done..].
    destruct e; cbn. do 2 f_equal. lia.
  - inversion Hts as [|? ? Hnow Hrest]; subst.
    cbn [length] in Hroom.
    destruct (isAllowed_counts now k rl e Hk Hnow) as [Hk1 Hd]; [lia|].
    pose proof (isAllowed_limits now k rl) as Hlim.
    cbn [calls]. destruct (isAllowed now k rl) as [rl1 d]. cbn in *.
    specialize (IH rl1 _ Hk1). cbn in IH.
    destruct IH as (Hk2 & Hds & Hlim2); [done|rewrite Hlim; lia|].
    destruct (calls ts k rl1) as [rl2 ds]. cbn in *.
    split_and!.
    + rewrite Hk2. do 2 f_equal. lia.
    + by constructor.
    + congruence.
Qed.

(** The limit is [maxRequests || max || 100] on a configuration in
    which the constructor has defaulted [maxRequests] to 100: a [max]
    given alone is not the limit.  It is the limit when the options
    hold the key [maxRequests] with [undefined], which the spread copies
    over the default. *)
Lemma max_alone_is_not_the_limit :
  lim_maxRequests
    (limits (constructor {| windowMs := Absent; max := Present (Some 5);
                            maxRequests := Absent |})) = 100
  ∧ lim_maxRequests
      (limits (constructor {| windowMs := Absent; max := Present (Some 5);
                              maxRequests := Present None |})) = 5.
Proof. split; reflexivity. Qed.

(** C4, as amended: a key without a live window at [t0] makes
    [max] calls at [t0 :: ts], none later than the reset instant
    [t0 + windowMs].  All of them are allowed, and one more call at
    [now <= t0 + windowMs] is refused with [remaining = 0], counts one
    more violation and returns
    [retryAfter = ceil((resetTime - now) / 1000)], which is never
    negative and is strictly positive when [now] is before the reset
    instant. *)
Theorem isAllowed_denies_after_max (rl : t) (k : string) (t0 : Z)
    (ts : list Z) (now : Z) :
  opens_window t0 k rl →
  Z.of_nat (length (t0 :: ts)) = lim_maxRequests (limits rl) →
  Forall (λ ti, ti <= t0 + lim_windowMs (limits rl)) ts →
  now <= t0 + lim_windowMs (limits rl) →
  let resetAt' := t0 + lim_windowMs (limits rl) in
  let rl1 := (calls (t0 :: ts) k rl).1 in
  Forall (λ d, allowed d = true) (calls (t0 :: ts) k rl).2
  ∧ (∃ e1, store rl1 !! k = Some e1
        ∧ (violations <$> store (isAllowed now k rl1).1 !! k)
          = Some (violations e1 + 1))
  ∧ (isAllowed now k rl1).2
    = {| allowed := false; remaining := 0; resetAt := resetAt';
         retryAfter := Some (ceil_div (resetAt' - now) 1000) |}
  ∧ 0 <= ceil_div (resetAt' - now) 1000
  ∧ (now < resetAt' → 0 < ceil_div (resetAt' - now) 1000).
Proof.
  intros Hopen Hlen Hts Hnow. cbn zeta. cbn [length] in Hlen.
  destruct (isAllowed_opens t0 k rl Hopen) as (v & Hk1 & Hd1); [lia|].
  pose proof (isAllowed_limits t0 k rl) as Hlim.
  cbn [calls]. destruct (isAllowed t0 k rl) as [rl1 d1]. cbn in Hk1, Hd1, Hlim.
  destruct (calls_in_window ts k rl1 _ Hk1) as (Hk2 & Hds & Hlim2);
    [done|cbn; rewrite Hlim; lia|].
  destruct (calls ts k rl1) as [rl2 ds]. cbn in Hk2, Hds, Hlim2 |- *.
  split_and!.
  - by constructor.
  - eexists. split; [exact Hk2|].
    erewrite isAllowed_full; [| exact Hk2 | cbn; lia
                              | cbn; rewrite Hlim2, Hlim; lia ].
    cbn. by rewrite lookup_insert_eq.
  - erewrite isAllowed_full; [| exact Hk2 | cbn; lia
                              | cbn; rewrite Hlim2, Hlim; lia ].
    done.
  - apply ceil_div_nonneg. lia.
  - intros. apply ceil_div_pos. lia.
Qed.

Lemma isAllowed_denies_after_max_witness :
  let rl1 := (calls [5000; 5001] "10.0.0.1" limiter_2_per_second).1 in
  (isAllowed 5500 "10.0.0.1" rl1).2
  = {| allowed := false; remaining := 0; resetAt := 6000;
       retryAfter := Some 1 |}.
Proof.
  pose proof (isAllowed_denies_after_max limiter_2_per_second "10.0.0.1"
                5000 [5001] 5500) as H.
  destruct H as (_ & _ & H & _).
  - exact I.
  - reflexivity.
  - repeat constructor. vm_compute. discriminate.
  - vm_compute. discriminate.
  - exact H.
Defined.

(** C4, as stated, fails at the reset instant itself: the window of a
    limiter of 1 request per 1000 ms opened at 5000 is still live at
    6000 ([now > resetTime] is false), so the second call is refused
    there, and its [retryAfter] is [ceil(0 / 1000) = 0], not strictly
    positive. *)
Lemma isAllowed_retryAfter_zero_at_reset :
  let '(rl1, d1) := isAllowed 5000 "10.0.0.1" limiter_1_per_second in
  let '(rl2, d2) := isAllowed 6000 "10.0.0.1" rl1 in
  allowed d1 = true
  ∧ allowed d2 = false ∧ remaining d2 = 0 ∧ resetAt d2 = 6000
  ∧ (violations <$> store rl2 !! "10.0.0.1") = Some 1
  ∧ retryAfter d2 = Some 0
  ∧ ¬ (∃ s, retryAfter d2 = Some s ∧ 0 < s).
Proof.
  vm_compute. split_and!; try reflexivity.
  intros (s & Hs & Hpos). injection Hs as <-. discriminate Hpos.
Qed.

End AdvancedRateLimiterProps.

(** ** Security monitor *)

Module SecurityMonitorProps.
Import SecurityMonitor Scenarios.

(** *** How one call runs *)

Lemma recordEvent_unfold (now : Z) (event : EventInput) (m : t) :
  recordEvent now event m
  = match storeEvent now event m with
    | (m0, Returns fullEvent) =>
        match checkThreatRules_loop now fullEvent (threatRules m0) m0 with
        | (m1, Returns _) =>
            (emit (securityEvent fullEvent) m1, Returns fullEvent)
        | (m1, Throws err) => (m1, Throws err)
        end
    | (m0, Throws err) => (m0, Throws err)
    end.
Proof.
  unfold recordEvent, storeEvent, checkThreatRules, bind, gets, modify, ret,
    generateEventId, fullEventOf; cbn.
  case_decide; cbn;
    match goal with
    | |- context [checkThreatRules_loop ?a ?b ?c ?d] =>
        destruct (checkThreatRules_loop a b c d) as [? [[]|?]]
    end; reflexivity.
Qed.

(** The state in which the rules run: the event is the last of the
    history (unless the cap evicted it from an empty one), it is counted,
    and nothing else moved. *)
Lemma storeEvent_spec (now : Z) (event : EventInput) (m : t) :
  ∃ eid m0,
    let fullEvent := fullEventOf eid now event in
    storeEvent now event m = (m0, Returns fullEvent)
    ∧ events m0
      = (if decide (Z.of_nat (length (events m ++ [fullEvent]))
                    > maxEventsHistory m)
         then shift (events m ++ [fullEvent])
         else events m ++ [fullEvent])
    ∧ metrics m0 = updateMetrics fullEvent (metrics m)
    ∧ threatRules m0 = threatRules m
    ∧ lastRuleTrigger m0 = lastRuleTrigger m
    ∧ emitted m0 = emitted m
    ∧ maxEventsHistory m0 = maxEventsHistory m.
Proof.
  exists ("sec_" +:+ pretty now +:+ "_" +:+ random m (drawn m)).
  unfold storeEvent, bind, gets, modify, ret, generateEventId; cbn.
  case_decide; cbn; eexists; (split; [reflexivity|]); done.
Qed.

(** [handleThreatDetection] never throws: it appends one synthetic
    [ANOMALOUS_BEHAVIOR] event, counts it, and notifies. *)
Lemma handleThreatDetection_spec (now : Z) (rule : ThreatDetectionRule)
    (trigger : SecurityEvent) (m : t) :
  ∃ threat acts m',
    handleThreatDetection now rule trigger m = (m', Returns tt)
    ∧ events m' = events m ++ [threat]
    ∧ metrics m' = updateMetrics threat (metrics m)
    ∧ emitted m' = emitted m ++ threatDetected rule trigger threat :: acts
    ∧ Forall (λ x, is_threatDetected x = false) acts
    ∧ type threat = ANOMALOUS_BEHAVIOR
    ∧ source threat = source trigger
    ∧ severity threat = rule_severity rule
    ∧ threatRules m' = threatRules m
    ∧ lastRuleTrigger m' = lastRuleTrigger m
    ∧ maxEventsHistory m' = maxEventsHistory m.
Proof.
  unfold handleThreatDetection, bind, modify, ret, generateEventId; cbn.
  destruct (action rule); cbn.
  - eexists _, [], _. split; [reflexivity|]. cbn. split_and!; done.
  - eexists _, [_], _. split; [reflexivity|]. cbn.
    rewrite <- app_assoc. cbn. split_and!; try done. by repeat constructor.
  - eexists _, [_], _. split; [reflexivity|]. cbn.
    rewrite <- app_assoc. cbn. split_and!; try done. by repeat constructor.
Qed.

(** What firing does to the instance. *)
Lemma fire_spec (now : Z) (trigger : SecurityEvent)
    (kv : string * ThreatDetectionRule) (m : t) :
  ∃ threat acts,
    events (fire now trigger kv m) = events m ++ [threat]
    ∧ metrics (fire now trigger kv m) = updateMetrics threat (metrics m)
    ∧ emitted (fire now trigger kv m)
      = emitted m ++ threatDetected kv.2 trigger threat :: acts
    ∧ Forall (λ x, is_threatDetected x = false) acts
    ∧ type threat = ANOMALOUS_BEHAVIOR
    ∧ source threat = source trigger
    ∧ threatRules (fire now trigger kv m) = threatRules m
    ∧ lastRuleTrigger (fire now trigger kv m)
      = <[kv.1 := now]> (lastRuleTrigger m)
    ∧ maxEventsHistory (fire now trigger kv m) = maxEventsHistory m.
Proof.
  unfold fire, bind, modify.
  destruct (handleThreatDetection_spec now kv.2 trigger
              (with_lastRuleTrigger <[kv.1:=now]> m))
    as (threat & acts & m' & Hrun & He & Hm & Hem & Hacts & Hty & Hsrc & _
        & Hr & Hl & Hcap).
  rewrite Hrun. cbn. exists threat, acts. split_and!; done.
Qed.

(** The loop body, with its calls run. *)
Lemma checkThreatRule_eq (now : Z) (event : SecurityEvent)
    (ruleId : string) (rule : ThreatDetectionRule) (m : t) :
  checkThreatRule now event ruleId rule m
  = if bool_decide (type event ∈ eventTypes rule) then
      if in_cooldown now (lastRuleTrigger m !! ruleId) rule
      then (m, Returns tt)
      else match condition rule now (events m) with
           | Returns true => (fire now event (ruleId, rule) m, Returns tt)
           | Returns false => (m, Returns tt)
           | Throws err => (m, Throws err)
           end
    else (m, Returns tt).
Proof.
  unfold checkThreatRule.
  destruct (bool_decide (type event ∈ eventTypes rule)); [|done].
  cbn [negb]. unfold bind, gets, call, ret, modify. cbv beta iota.
  destruct (in_cooldown now (lastRuleTrigger m !! ruleId) rule); [done|].
  destruct (condition rule now (events m)) as [[]|err]; [|done..].
  unfold fire, bind, modify. cbv beta iota.
  destruct (handleThreatDetection_spec now rule event
              (with_lastRuleTrigger <[ruleId:=now]> m))
    as (? & ? & m' & Hrun & _).
  cbn [fst snd]. by rewrite Hrun.
Qed.

(** One rule is passed over, throws, or fires. *)
Lemma checkThreatRule_cases (now : Z) (event : SecurityEvent)
    (ruleId : string) (rule : ThreatDetectionRule) (m : t) :
  (checkThreatRule now event ruleId rule m = (m, Returns tt)
   ∧ (type event ∉ eventTypes rule
      ∨ in_cooldown now (lastRuleTrigger m !! ruleId) rule = true
      ∨ condition rule now (events m) = Returns false))
  ∨ (∃ err, checkThreatRule now event ruleId rule m = (m, Throws err)
      ∧ type event ∈ eventTypes rule
      ∧ in_cooldown now (lastRuleTrigger m !! ruleId) rule = false
      ∧ condition rule now (events m) = Throws err)
  ∨ (checkThreatRule now event ruleId rule m
     = (fire now event (ruleId, rule) m, Returns tt)
     ∧ type event ∈ eventTypes rule
     ∧ in_cooldown now (lastRuleTrigger m !! ruleId) rule = false
     ∧ condition rule now (events m) = Returns true).
Proof.
  rewrite checkThreatRule_eq.
  destruct (decide (type event ∈ eventTypes rule)) as [Hin|Hin].
  2: { left. rewrite bool_decide_false by done. auto. }
  rewrite bool_decide_true by done.
  destruct (in_cooldown now (lastRuleTrigger m !! ruleId) rule) eqn:Hcd.
  { left. auto. }
  destruct (condition rule now (events m)) as [[]|err] eqn:Hc.
  - right; right. done.
  - left. auto.
  - right; left. exists err. auto.
Qed.

Lemma loop_cons (now : Z) (event : SecurityEvent) (ruleId : string)
    (rule : ThreatDetectionRule) (rest : list (string * ThreatDetectionRule))
    (m : t) :
  checkThreatRules_loop now event ((ruleId, rule) :: rest) m
  = match checkThreatRule now event ruleId rule m with
    | (m', Returns _) => checkThreatRules_loop now event rest m'
    | (m', Throws err) => (m', Throws err)
    end.
Proof. reflexivity. Qed.

Lemma loop_app (now : Z) (event : SecurityEvent)
    (pre post : list (string * ThreatDetectionRule)) (m : t) :
  checkThreatRules_loop now event (pre ++ post) m
  = match checkThreatRules_loop now event pre m with
    | (m', Returns _) => checkThreatRules_loop now event post m'
    | (m', Throws err) => (m', Throws err)
    end.
Proof.
  revert m. induction pre as [|[rid rule] pre IH]; intros m; [done|].
  rewrite <- app_comm_cons, !loop_cons.
  destruct (checkThreatRule now event rid rule m) as [m' [[]|err]]; [|done].
  apply IH.
Qed.

(** A property that firing keeps is kept by the whole loop, whether it
    ends normally or by a throw. *)
Lemma loop_invariant (P : t → Prop) (now : Z) (event : SecurityEvent)
    (rules : list (string * ThreatDetectionRule)) (m : t) :
  P m →
  (∀ kv m0, kv ∈ rules → P m0 →
     type event ∈ eventTypes kv.2 →
     in_cooldown now (lastRuleTrigger m0 !! kv.1) kv.2 = false →
     P (fire now event kv m0)) →
  P (checkThreatRules_loop now event rules m).1.
Proof.
  revert m. induction rules as [|[rid rule] rules IH]; intros m Hm Hfire.
  { done. }
  rewrite loop_cons.
  destruct (checkThreatRule_cases now event rid rule m)
    as [[-> _]|[(err & -> & _)|(-> & Hty & Hcd & _)]].
  - apply IH; [done|]. intros kv m0 Hkv. apply Hfire. by right.
  - done.
  - apply IH.
    + apply (Hfire (rid, rule)); [by left|done..].
    + intros kv m0 Hkv. apply Hfire. by right.
Qed.

(** The same for a whole call: the property has to survive the storing
    of the event, each firing, and the final notification. *)
Lemma record_invariant (P : t → Prop) (now : Z) (event : EventInput)
    (m : t) :
  (∀ m0 fullEvent,
     storeEvent now event m = (m0, Returns fullEvent) →
     P m0
     ∧ (∀ kv m1, kv ∈ threatRules m0 → P m1 →
          type fullEvent ∈ eventTypes kv.2 →
          in_cooldown now (lastRuleTrigger m1 !! kv.1) kv.2 = false →
          P (fire now fullEvent kv m1))
     ∧ (∀ m1, P m1 → P (emit (securityEvent fullEvent) m1))) →
  P (record now event m).
Proof.
  intros H. unfold record. rewrite recordEvent_unfold.
  destruct (storeEvent_spec now event m) as (eid & m0 & Hrun & _).
  cbn zeta in Hrun. rewrite Hrun.
  destruct (H _ _ Hrun) as (H0 & Hfire & Hemit).
  pose proof (loop_invariant P now _ (threatRules m0) m0 H0 Hfire) as Hloop.
  destruct (checkThreatRules_loop now _ (threatRules m0) m0)
    as [m1 [[]|err]]; cbn in Hloop |- *; auto.
Qed.

Lemma recordAll_snoc (calls : list (Z * EventInput)) (c : Z * EventInput)
    (m : t) :
  recordAll (calls ++ [c]) m = record c.1 c.2 (recordAll calls m).
Proof. unfold recordAll. by rewrite foldl_snoc. Qed.

(** *** Construction *)

Lemma addThreatRules_frame (rules : list ThreatDetectionRule) (m : t) :
  let m' := foldl (λ m rule, addThreatRule rule m) m rules in
  events m' = events m ∧ metrics m' = metrics m
  ∧ lastRuleTrigger m' = lastRuleTrigger m
  ∧ maxEventsHistory m' = maxEventsHistory m ∧ emitted m' = emitted m.
Proof.
  revert m. induction rules as [|rule rules IH]; intros m; [done|].
  cbn. destruct (IH (addThreatRule rule m)) as (-> & -> & -> & -> & ->).
  done.
Qed.

Lemma constructor_fresh (rnd : nat → string) (config : Config) :
  events (constructor rnd config) = []
  ∧ metrics (constructor rnd config) = initializeMetrics
  ∧ lastRuleTrigger (constructor rnd config) = ∅
  ∧ maxEventsHistory (constructor rnd config)
    = js_or (cfg_maxEventsHistory config) 10000
  ∧ emitted (constructor rnd config) = [].
Proof.
  unfold constructor, loadDefaultThreatRules.
  destruct (threatDetectionRules config) as [rules|].
  - match goal with
    | |- context [foldl ?f (foldl ?g ?m0 ?d) rules] =>
        destruct (addThreatRules_frame rules (foldl g m0 d))
          as (H1 & H2 & H3 & H4 & H5);
        destruct (addThreatRules_frame d m0) as (G1 & G2 & G3 & G4 & G5)
    end.
    cbn zeta in *. rewrite H1, H2, H3, H4, H5, G1, G2, G3, G4, G5. done.
  - match goal with
    | |- context [foldl ?g ?m0 ?d] =>
        destruct (addThreatRules_frame d m0) as (G1 & G2 & G3 & G4 & G5)
    end.
    cbn zeta in *. rewrite G1, G2, G3, G4, G5. done.
Qed.

(** *** Counting *)

Lemma countThreats_app (l1 l2 : list Emission) :
  countThreats (l1 ++ l2) = countThreats l1 + countThreats l2.
Proof. unfold countThreats. rewrite filter_app, length_app. lia. Qed.

Lemma countThreats_none (l : list Emission) :
  Forall (λ x, is_threatDetected x = false) l → countThreats l = 0.
Proof.
  unfold countThreats. induction 1 as [|x l Hx _ IH]; [done|].
  rewrite filter_cons_False by congruence. done.
Qed.

Lemma countThreats_cons (x : Emission) (l : list Emission) :
  countThreats (x :: l)
  = (if is_threatDetected x then 1 else 0) + countThreats l.
Proof.
  unfold countThreats. destruct (is_threatDetected x) eqn:Hx.
  - rewrite filter_cons_True by done. cbn [length]. lia.
  - rewrite filter_cons_False by congruence. lia.
Qed.

Lemma countFirings_cons (rid : string) (x : Emission) (l : list Emission) :
  countFirings rid (x :: l)
  = (if fired rid x then 1 else 0) + countFirings rid l.
Proof.
  unfold countFirings. destruct (fired rid x) eqn:Hx.
  - rewrite filter_cons_True by done. cbn [length]. lia.
  - rewrite filter_cons_False by congruence. lia.
Qed.

Lemma countThreats_nonneg (l : list Emission) : 0 <= countThreats l.
Proof. unfold countThreats. lia. Qed.

Lemma countFirings_app (rid : string) (l1 l2 : list Emission) :
  countFirings rid (l1 ++ l2) = countFirings rid l1 + countFirings rid l2.
Proof. unfold countFirings. rewrite filter_app, length_app. lia. Qed.

Lemma countFirings_none (rid : string) (l : list Emission) :
  Forall (λ x, is_threatDetected x = false) l → countFirings rid l = 0.
Proof.
  unfold countFirings. induction 1 as [|x l Hx _ IH]; [done|].
  rewrite filter_cons_False; [done|]. by destruct x.
Qed.

Lemma incr_key_cons {K} `{EqDecision K} (k k' : K) (v : Z)
    (m : list (K * Z)) :
  incr_key k ((k', v) :: m)
  = (if decide (k' = k) then (k', v + 1) else (k', v)) :: incr_key k m.
Proof. reflexivity. Qed.

Lemma sum_values_cons {K} (kv : K * Z) (m : list (K * Z)) :
  sum_values (kv :: m) = kv.2 + sum_values m.
Proof. reflexivity. Qed.

Lemma incr_key_keys {K} `{EqDecision K} (k : K) (m : list (K * Z)) :
  (incr_key k m).*1 = m.*1.
Proof.
  induction m as [|[k' v] m IH]; [done|].
  rewrite incr_key_cons, !fmap_cons, IH. by case_decide.
Qed.

Lemma sum_values_incr_key {K} `{EqDecision K} (k : K) (m : list (K * Z)) :
  sum_values (incr_key k m)
  = sum_values m + Z.of_nat (length (filter (λ k', k' = k) m.*1)).
Proof.
  induction m as [|[k' v] m IH]; [done|].
  rewrite incr_key_cons, !sum_values_cons, IH, fmap_cons. cbn [fst snd].
  case_decide.
  - rewrite filter_cons_True by done. cbn [length snd]. lia.
  - rewrite filter_cons_False by done. cbn [snd]. lia.
Qed.

Lemma SecurityEventType_values_once (ty : SecurityEventType) :
  length (filter (λ ty', ty' = ty) SecurityEventType_values) = 1%nat.
Proof. by destruct ty. Qed.

Lemma updateMetrics_by_type (event : SecurityEvent) (x : SecurityMetrics) :
  by_type_consistent x → by_type_consistent (updateMetrics event x).
Proof.
  intros [Hkeys Hsum].
  split; unfold updateMetrics; cbn [eventsByType totalEvents].
  - by rewrite incr_key_keys.
  - rewrite sum_values_incr_key, Hkeys, SecurityEventType_values_once. lia.
Qed.

Lemma initializeMetrics_by_type : by_type_consistent initializeMetrics.
Proof. done. Qed.

(** One call counts the recorded event and one synthetic event for each
    [threatDetected] it emits, whether it returns or throws. *)
Lemma record_counts (now : Z) (event : EventInput) (m : t) :
  by_type_consistent (metrics m) →
  by_type_consistent (metrics (record now event m))
  ∧ totalEvents (metrics (record now event m))
    - threatsDetected (record now event m)
    = totalEvents (metrics m) - threatsDetected m + 1.
Proof.
  intros Hm.
  apply (record_invariant
           (λ m', by_type_consistent (metrics m')
                  ∧ totalEvents (metrics m') - threatsDetected m'
                    = totalEvents (metrics m) - threatsDetected m + 1)).
  intros m0 fullEvent Hrun.
  destruct (storeEvent_spec now event m)
    as (eid & m0' & Hrun' & _ & Hmet & _ & _ & Hem & _).
  cbn zeta in Hrun'. rewrite Hrun in Hrun'. injection Hrun' as <- Hfull.
  split; [|split].
  - split.
    + rewrite Hmet. by apply updateMetrics_by_type.
    + unfold threatsDetected. rewrite Hmet, Hem. cbn. lia.
  - intros kv m1 _ [Hc Ht] _ _.
    destruct (fire_spec now fullEvent kv m1)
      as (threat & acts & _ & Hmet1 & Hem1 & Hacts & _).
    split.
    + rewrite Hmet1. by apply updateMetrics_by_type.
    + unfold threatsDetected in *. rewrite Hmet1, Hem1.
      rewrite countThreats_app, countThreats_cons,
        (countThreats_none acts) by done.
      cbn. lia.
  - intros m1 [Hc Ht]. split; [done|].
    unfold threatsDetected in *. cbn [emit emitted metrics].
    rewrite countThreats_app, countThreats_cons. cbn.
    change (countThreats []) with 0. lia.
Qed.

Lemma recordAll_counts (calls : list (Z * EventInput)) (m : t) :
  by_type_consistent (metrics m) →
  by_type_consistent (metrics (recordAll calls m))
  ∧ totalEvents (metrics (recordAll calls m))
    - threatsDetected (recordAll calls m)
    = totalEvents (metrics m) - threatsDetected m
      + Z.of_nat (length calls).
Proof.
  intros Hm. induction calls as [|c calls IH] using rev_ind.
  { cbn. split; [done|lia]. }
  rewrite recordAll_snoc, length_app. cbn [length].
  destruct IH as [IH1 IH2].
  destruct (record_counts c.1 c.2 _ IH1) as [H1 H2].
  split; [done|lia].
Qed.

(** C2, as amended: after [n] calls of [recordEvent] on a fresh monitor,
    [totalEvents] is [n] plus the number of [threatDetected]
    notifications (each fired rule appends and counts one synthetic
    event), and the values of [eventsByType] add up to [totalEvents]. *)
Theorem totalEvents_counts_calls_and_threats (rnd : nat → string)
    (config : Config) (calls : list (Z * EventInput)) :
  let m := recordAll calls (constructor rnd config) in
  totalEvents (getMetrics m) = Z.of_nat (length calls) + threatsDetected m
  ∧ sum_values (eventsByType (getMetrics m)) = totalEvents (getMetrics m).
Proof.
  cbn zeta. unfold getMetrics.
  destruct (constructor_fresh rnd config) as (_ & Hmet & _ & _ & Hem).
  destruct (recordAll_counts calls (constructor rnd config)) as [[_ Hs] Ht].
  { rewrite Hmet. apply initializeMetrics_by_type. }
  split; [|done].
  unfold threatsDetected in Ht at 2. rewrite Hmet, Hem in Ht.
  change (totalEvents initializeMetrics) with 0 in Ht.
  change (countThreats []) with 0 in Ht. lia.
Qed.

(** C2, as stated, fails when a rule fires: five authentication
    failures of one source make [brute_force_detection] fire on the
    fifth call, and [totalEvents] is 6 after 5 calls. *)
Lemma totalEvents_exceeds_calls_when_rule_fires :
  let m := recordAll five_auth_failures monitor_cap_5 in
  length five_auth_failures = 5%nat
  ∧ totalEvents (getMetrics m) = 6
  ∧ threatsDetected m = 1
  ∧ totalEvents (getMetrics m) ≠ Z.of_nat (length five_auth_failures).
Proof. vm_compute. split_and!; congruence. Qed.

(** C1: the cap is not kept when a rule fires.  With
    [maxEventsHistory = 5], the fifth authentication failure of one
    source is stored within the cap, then [handleThreatDetection] pushes
    the synthetic event without the size check of [recordEvent]: the
    history holds 6 events. *)
Theorem history_exceeds_cap_when_rule_fires :
  let m := recordAll five_auth_failures monitor_cap_5 in
  maxEventsHistory m = 5
  ∧ length (events m) = 6%nat
  ∧ type <$> events m
    = replicate 5 AUTHENTICATION_FAILURE ++ [ANOMALOUS_BEHAVIOR]
  ∧ ¬ (Z.of_nat (length (events m)) <= maxEventsHistory m).
Proof. vm_compute. split_and!; congruence. Qed.

(** *** A condition that throws *)

Lemma loop_events_grow (now : Z) (event : SecurityEvent)
    (rules : list (string * ThreatDetectionRule)) (m : t) :
  ∃ extra, events (checkThreatRules_loop now event rules m).1
           = events m ++ extra.
Proof.
  apply (loop_invariant (λ m', ∃ extra, events m' = events m ++ extra)).
  - exists []. by rewrite app_nil_r.
  - intros kv m0 _ [extra Hextra] _ _.
    destruct (fire_spec now event kv m0) as (threat & _ & He & _).
    exists (extra ++ [threat]). by rewrite He, Hextra, app_assoc.
Qed.

Lemma loop_totalEvents_grow (now : Z) (event : SecurityEvent)
    (rules : list (string * ThreatDetectionRule)) (m : t) :
  totalEvents (metrics m)
  <= totalEvents (metrics (checkThreatRules_loop now event rules m).1).
Proof.
  apply (loop_invariant
           (λ m', totalEvents (metrics m) <= totalEvents (metrics m'))).
  - lia.
  - intros kv m0 _ Hle _ _.
    destruct (fire_spec now event kv m0) as (threat & _ & _ & Hmet & _).
    rewrite Hmet. cbn. lia.
Qed.

(** With a positive cap the stored event is in the history, whether or
    not the oldest was evicted. *)
Lemma storeEvent_stores (now : Z) (event : EventInput) (m m0 : t)
    (fullEvent : SecurityEvent) :
  storeEvent now event m = (m0, Returns fullEvent) →
  0 < maxEventsHistory m →
  fullEvent ∈ events m0
  ∧ totalEvents (metrics m0) = totalEvents (metrics m) + 1.
Proof.
  intros Hrun Hcap.
  destruct (storeEvent_spec now event m)
    as (eid & m0' & Hrun' & Hev & Hmet & _).
  cbn zeta in Hrun'. rewrite Hrun in Hrun'. injection Hrun' as <- ->.
  split; [|by rewrite Hmet].
  rewrite Hev. case_decide as Hlen.
  - rewrite length_app in Hlen. cbn in Hlen.
    destruct (events m) as [|e evs]; cbn in *; [lia|].
    apply elem_of_app. right. by left.
  - apply elem_of_app. right. by left.
Qed.

(** The push of [recordEvent] is capped: a history within a
    non-negative cap stays within it while no rule fires, and when it
    was full exactly the oldest event is evicted. *)
Lemma storeEvent_within_cap (now : Z) (event : EventInput) (m m0 : t)
    (fullEvent : SecurityEvent) :
  storeEvent now event m = (m0, Returns fullEvent) →
  0 <= maxEventsHistory m →
  Z.of_nat (length (events m)) <= maxEventsHistory m →
  Z.of_nat (length (events m0)) <= maxEventsHistory m0
  ∧ (Z.of_nat (length (events m)) = maxEventsHistory m →
     events m0 = tail (events m ++ [fullEvent])).
Proof.
  intros Hrun Hcap Hlen.
  destruct (storeEvent_spec now event m)
    as (eid & m0' & Hrun' & Hev & _ & _ & _ & _ & Hmax).
  cbn zeta in Hrun'. rewrite Hrun in Hrun'. injection Hrun' as <- ->.
  rewrite Hev, Hmax. clear Hev.
  case_decide as Hover; rewrite length_app in Hover; cbn [length] in Hover;
    split.
  - unfold shift. destruct (events m); cbn in *; [lia|].
    rewrite length_app. cbn. lia.
  - done.
  - rewrite length_app. cbn. lia.
  - lia.
Qed.

(** C3, as amended: when the condition of a rule throws, nothing
    catches it.  [recordEvent] throws the same error to its caller and
    leaves the instance as the rules registered before the faulty one
    left it: the event is stored and counted, the rules after the faulty
    one are not evaluated, no event records the failure and
    [securityEvent] is not emitted. *)
Theorem condition_throw_propagates (m m0 m1 : t) (now : Z)
    (event : EventInput) (fullEvent : SecurityEvent)
    (pre post : list (string * ThreatDetectionRule)) (ruleId : string)
    (rule : ThreatDetectionRule) (err : string) :
  threatRules m = pre ++ (ruleId, rule) :: post →
  0 < maxEventsHistory m →
  storeEvent now event m = (m0, Returns fullEvent) →
  checkThreatRules_loop now fullEvent pre m0 = (m1, Returns tt) →
  type fullEvent ∈ eventTypes rule →
  in_cooldown now (lastRuleTrigger m1 !! ruleId) rule = false →
  condition rule now (events m1) = Throws err →
  recordEvent now event m = (m1, Throws err)
  ∧ fullEvent ∈ events m1
  ∧ totalEvents (metrics m) + 1 <= totalEvents (metrics m1).
Proof.
  intros Hrules Hcap Hstore Hpre Hty Hcd Hthrow.
  destruct (storeEvent_stores _ _ _ _ _ Hstore Hcap) as [Hin Htot].
  destruct (storeEvent_spec now event m)
    as (eid & m0' & Hrun' & _ & _ & Hr & _).
  cbn zeta in Hrun'. rewrite Hstore in Hrun'. injection Hrun' as <- _.
  split_and!.
  - rewrite recordEvent_unfold, Hstore, Hr, Hrules, loop_app, Hpre, loop_cons.
    rewrite checkThreatRule_eq, bool_decide_true, Hcd, Hthrow by done.
    done.
  - destruct (loop_events_grow now fullEvent pre m0) as [extra Hextra].
    rewrite Hpre in Hextra. cbn in Hextra. rewrite Hextra.
    apply elem_of_app. by left.
  - pose proof (loop_totalEvents_grow now fullEvent pre m0) as Hle.
    rewrite Hpre in Hle. cbn in Hle. lia.
Qed.

Lemma condition_throw_propagates_witness :
  (recordEvent 1000 (input XSS_ATTEMPT high "6.6.6.6") monitor_faulty).2
  = Throws "boom".
Proof.
  pose (st := storeEvent 1000 (input XSS_ATTEMPT high "6.6.6.6")
                monitor_faulty).
  pose proof (condition_throw_propagates monitor_faulty st.1 st.1 1000
                (input XSS_ATTEMPT high "6.6.6.6")
                (fullEventOf "sec_1000_0" 1000
                   (input XSS_ATTEMPT high "6.6.6.6"))
                [("brute_force_detection", brute_force_detection);
                 ("injection_attack_pattern", injection_attack_pattern);
                 ("rate_limit_abuse", rate_limit_abuse)]
                [("eager", eager_rule)] "faulty" faulty_rule "boom") as H.
  destruct H as (H & _).
  - reflexivity.
  - reflexivity.
  - reflexivity.
  - reflexivity.
  - apply (bool_decide_unpack _). vm_compute. exact I.
  - reflexivity.
  - reflexivity.
  - rewrite H. reflexivity.
Defined.

(** C3, as stated, fails: with a faulty rule registered before a rule
    that would fire, [recordEvent] throws; the history holds the
    recorded event and no low-severity event for the failure, and the
    later rule has not fired, although it fires for the same call when
    the faulty rule is not registered. *)
Lemma condition_throw_is_not_caught :
  let '(m', out) :=
    recordEvent 1000 (input XSS_ATTEMPT high "6.6.6.6") monitor_faulty in
  out = Throws "boom"
  ∧ (λ e, (type e, severity e)) <$> events m' = [(XSS_ATTEMPT, high)]
  ∧ firings "eager" m' = 0
  ∧ firings "eager"
      (record 1000 (input XSS_ATTEMPT high "6.6.6.6") monitor_eager) = 1.
Proof. vm_compute. done. Qed.

(** *** Cooldown *)

Lemma assoc_get_elem_of {K V} `{EqDecision K} (k : K) (v : V)
    (m : list (K * V)) :
  assoc_get k m = Some v → (k, v) ∈ m.
Proof.
  induction m as [|[k' v'] m IH]; [done|]. cbn. case_decide.
  - intros [= <-]. subst. by left.
  - intros. right. auto.
Qed.

Lemma assoc_get_unique {K V} `{EqDecision K} (k : K) (v : V)
    (m : list (K * V)) :
  NoDup m.*1 → (k, v) ∈ m → assoc_get k m = Some v.
Proof.
  induction m as [|[k' v'] m IH]; intros Hnd Hin.
  { by apply elem_of_nil in Hin. }
  rewrite fmap_cons in Hnd. apply NoDup_cons in Hnd as [Hk' Hnd].
  apply elem_of_cons in Hin as [[= <- <-]|Hin]; cbn.
  - by rewrite decide_True.
  - case_decide as Heq; [|auto]. subst. destruct Hk'.
    apply (list_elem_of_fmap_2 fst) in Hin. done.
Qed.

Lemma in_cooldown_active (now last : Z) (rule : ThreatDetectionRule) :
  last ≠ 0 → now - last < cooldown rule →
  in_cooldown now (Some last) rule = true.
Proof. intros. unfold in_cooldown. by rewrite bool_decide_true. Qed.

Lemma in_cooldown_expired (now last : Z) (rule : ThreatDetectionRule) :
  last + cooldown rule <= now →
  in_cooldown now (Some last) rule = false.
Proof.
  intros. unfold in_cooldown. rewrite bool_decide_false; [done|].
  intros [_ ?]. lia.
Qed.

(** Firing a rule registered under another id leaves the cooldown state
    and the firings of [rid] alone. *)
Lemma fire_other (now : Z) (event : SecurityEvent)
    (kv : string * ThreatDetectionRule) (rid : string) (m : t) :
  kv.1 ≠ rid → kv.1 = rule_id kv.2 →
  lastRuleTrigger (fire now event kv m) !! rid = lastRuleTrigger m !! rid
  ∧ firings rid (fire now event kv m) = firings rid m
  ∧ threatRules (fire now event kv m) = threatRules m.
Proof.
  intros Hne Hid.
  destruct (fire_spec now event kv m)
    as (threat & acts & _ & _ & Hem & Hacts & _ & _ & Hr & Hl & _).
  split_and!; [|  |done].
  - by rewrite Hl, lookup_insert_ne.
  - unfold firings. rewrite Hem, countFirings_app, countFirings_cons.
    rewrite (countFirings_none rid acts) by done. cbn [fired].
    rewrite bool_decide_false by congruence. lia.
Qed.

(** Firing the rule registered under [rid] is one more firing of it and
    starts its cooldown at [now]. *)
Lemma fire_self (now : Z) (event : SecurityEvent) (rid : string)
    (rule : ThreatDetectionRule) (m : t) :
  rid = rule_id rule →
  lastRuleTrigger (fire now event (rid, rule) m) !! rid = Some now
  ∧ firings rid (fire now event (rid, rule) m) = firings rid m + 1
  ∧ threatRules (fire now event (rid, rule) m) = threatRules m.
Proof.
  intros Hid.
  destruct (fire_spec now event (rid, rule) m)
    as (threat & acts & _ & _ & Hem & Hacts & _ & _ & Hr & Hl & _).
  split_and!; [|  |done].
  - by rewrite Hl, lookup_insert_eq.
  - unfold firings. rewrite Hem, countFirings_app, countFirings_cons.
    rewrite (countFirings_none rid acts) by done. cbn [fired snd].
    rewrite bool_decide_true by done. lia.
Qed.

Lemma loop_others (now : Z) (event : SecurityEvent) (rid : string)
    (rules : list (string * ThreatDetectionRule)) (m : t) :
  Forall (λ kv, kv.1 ≠ rid ∧ kv.1 = rule_id kv.2) rules →
  let m' := (checkThreatRules_loop now event rules m).1 in
  lastRuleTrigger m' !! rid = lastRuleTrigger m !! rid
  ∧ firings rid m' = firings rid m
  ∧ threatRules m' = threatRules m.
Proof.
  intros Hrules. cbn zeta.
  apply (loop_invariant
           (λ m', lastRuleTrigger m' !! rid = lastRuleTrigger m !! rid
                  ∧ firings rid m' = firings rid m
                  ∧ threatRules m' = threatRules m)); [done|].
  intros kv m0 Hkv (Hl & Hf & Hr) _ _.
  rewrite Forall_forall in Hrules. destruct (Hrules kv Hkv) as [Hne Hid].
  destruct (fire_other now event kv rid m0 Hne Hid) as (-> & -> & ->).
  done.
Qed.

Lemma emit_securityEvent_firings (rid : string) (e : SecurityEvent) (m : t) :
  firings rid (emit (securityEvent e) m) = firings rid m.
Proof.
  unfold firings. cbn [emit emitted].
  rewrite countFirings_app, countFirings_cons. cbn.
  change (countFirings rid []) with 0. lia.
Qed.

(** While the cooldown of [rid] runs, a call fires nothing under [rid]
    and leaves its last firing time alone. *)
Lemma record_in_cooldown (m : t) (rid : string) (rule : ThreatDetectionRule)
    (last now : Z) (event : EventInput) :
  rules_wf m →
  assoc_get rid (threatRules m) = Some rule →
  lastRuleTrigger m !! rid = Some last →
  last ≠ 0 → now - last < cooldown rule →
  threatRules (record now event m) = threatRules m
  ∧ lastRuleTrigger (record now event m) !! rid = Some last
  ∧ firings rid (record now event m) = firings rid m.
Proof.
  intros [Hnd Hids] Hrule Hlast Hnz Hnow.
  apply (record_invariant
           (λ m', threatRules m' = threatRules m
                  ∧ lastRuleTrigger m' !! rid = Some last
                  ∧ firings rid m' = firings rid m)).
  intros m0 fullEvent Hrun.
  destruct (storeEvent_spec now event m)
    as (eid & m0' & Hrun' & _ & _ & Hr & Hl & Hem & _).
  cbn zeta in Hrun'. rewrite Hrun in Hrun'. injection Hrun' as <- ->.
  split; [|split].
  - unfold firings. by rewrite Hr, Hl, Hem.
  - intros kv m1 Hkv (Hr1 & Hl1 & Hf1) _ Hcd. rewrite Hr in Hkv.
    rewrite Forall_forall in Hids. pose proof (Hids kv Hkv) as Hid.
    destruct (decide (kv.1 = rid)) as [Heq|Hne].
    + destruct kv as [k r]. cbn in Heq. subst k.
      apply (assoc_get_unique _ _ _ Hnd) in Hkv.
      rewrite Hrule in Hkv. injection Hkv as <-.
      cbn in Hcd. rewrite Hl1, in_cooldown_active in Hcd by done. done.
    + destruct (fire_other now (fullEventOf eid now event) kv rid m1 Hne Hid)
        as (-> & -> & ->).
      done.
  - intros m1 (Hr1 & Hl1 & Hf1).
    by rewrite emit_securityEvent_firings.
Qed.

Lemma rules_split (m : t) (rid : string) (rule : ThreatDetectionRule)
    (pre post : list (string * ThreatDetectionRule)) :
  rules_wf m →
  threatRules m = pre ++ (rid, rule) :: post →
  Forall (λ kv, kv.1 ≠ rid ∧ kv.1 = rule_id kv.2) pre
  ∧ Forall (λ kv, kv.1 ≠ rid ∧ kv.1 = rule_id kv.2) post
  ∧ rid = rule_id rule.
Proof.
  intros [Hnd Hids] Hsplit. rewrite Hsplit in Hnd, Hids.
  rewrite fmap_app, fmap_cons in Hnd.
  apply NoDup_app in Hnd as (_ & Hpre & Hnd).
  apply NoDup_cons in Hnd as [Hpost _].
  apply Forall_app in Hids as [Hids_pre Hids].
  apply Forall_cons in Hids as [Hid Hids_post].
  split_and!; [| |done].
  - rewrite Forall_forall in Hids_pre |- *. intros kv Hkv.
    split; [|auto]. intros Heq.
    apply (Hpre kv.1); [by apply list_elem_of_fmap_2|].
    rewrite Heq. by left.
  - rewrite Forall_forall in Hids_post |- *. intros kv Hkv.
    split; [|auto]. intros Heq. apply Hpost. cbn. rewrite <- Heq.
    by apply list_elem_of_fmap_2.
Qed.

(** A call whose event the rule listens to, outside its cooldown, with
    its condition true when it is reached, fires it once. *)
Lemma record_fires (m m0 m1 : t) (rid : string) (rule : ThreatDetectionRule)
    (pre post : list (string * ThreatDetectionRule)) (now : Z)
    (event : EventInput) (fullEvent : SecurityEvent) :
  rules_wf m →
  threatRules m = pre ++ (rid, rule) :: post →
  storeEvent now event m = (m0, Returns fullEvent) →
  checkThreatRules_loop now fullEvent pre m0 = (m1, Returns tt) →
  type fullEvent ∈ eventTypes rule →
  in_cooldown now (lastRuleTrigger m !! rid) rule = false →
  condition rule now (events m1) = Returns true →
  firings rid (record now event m) = firings rid m + 1
  ∧ lastRuleTrigger (record now event m) !! rid = Some now.
Proof.
  intros Hwf Hsplit Hstore Hpre Hty Hcd Hcond.
  destruct (rules_split m rid rule pre post Hwf Hsplit)
    as (Hopre & Hopost & Hid).
  destruct (storeEvent_spec now event m)
    as (eid & m0' & Hrun' & _ & _ & Hr & Hl & Hem & _).
  cbn zeta in Hrun'. rewrite Hstore in Hrun'. injection Hrun' as <- ->.
  destruct (loop_others now (fullEventOf eid now event) rid pre m0 Hopre)
    as (Hl1 & Hf1 & _).
  rewrite Hpre in Hl1, Hf1. cbn [fst] in Hl1, Hf1.
  unfold record.
  rewrite recordEvent_unfold, Hstore, Hr, Hsplit, loop_app, Hpre, loop_cons.
  rewrite checkThreatRule_eq, bool_decide_true, Hl1, Hl, Hcd, Hcond by done.
  destruct (fire_self now (fullEventOf eid now event) rid rule m1 Hid)
    as (Hl2 & Hf2 & _).
  destruct (loop_others now (fullEventOf eid now event) rid post
              (fire now (fullEventOf eid now event) (rid, rule) m1) Hopost)
    as (Hl3 & Hf3 & _).
  destruct (checkThreatRules_loop now (fullEventOf eid now event) post
              (fire now (fullEventOf eid now event) (rid, rule) m1))
    as [m3 [[]|err]]; cbn [fst] in *.
  - rewrite emit_securityEvent_firings. cbn [emit lastRuleTrigger].
    rewrite Hl3, Hf3, Hl2, Hf2, Hf1. unfold firings. rewrite Hem. done.
  - rewrite Hl3, Hf3, Hl2, Hf2, Hf1. unfold firings. rewrite Hem. done.
Qed.

Lemma recordAll_in_cooldown (m : t) (rid : string)
    (rule : ThreatDetectionRule) (last : Z) (calls : list (Z * EventInput)) :
  rules_wf m →
  assoc_get rid (threatRules m) = Some rule →
  lastRuleTrigger m !! rid = Some last →
  last ≠ 0 →
  Forall (λ c, last <= c.1 < last + cooldown rule) calls →
  threatRules (recordAll calls m) = threatRules m
  ∧ lastRuleTrigger (recordAll calls m) !! rid = Some last
  ∧ firings rid (recordAll calls m) = firings rid m.
Proof.
  intros Hwf Hrule Hlast Hnz.
  induction calls as [|c calls IH] using rev_ind; intros Hcalls; [done|].
  apply Forall_app in Hcalls as [Hcalls Hc].
  apply Forall_cons in Hc as [Hc _].
  destruct (IH Hcalls) as (Hr & Hl & Hf).
  rewrite recordAll_snoc.
  destruct (record_in_cooldown (recordAll calls m) rid rule last c.1 c.2)
    as (Hr' & Hl' & Hf'); try done.
  - unfold rules_wf. by rewrite Hr.
  - by rewrite Hr.
  - lia.
  - rewrite Hr', Hl', Hf'. done.
Qed.

(** C5: a rule registered under [rid] with cooldown [C] last fired at
    [t] (an instant of the clock, so not 0).  However many events are
    recorded at instants of [[t, t + C)], none makes the rule fire again
    and its last firing time stays [t].  An event recorded at or after
    [t + C] that the rule listens to makes it fire again when its
    condition holds on the history it is given. *)
Theorem cooldown_suppresses_then_expires (m : t) (rid : string)
    (rule : ThreatDetectionRule) (t0 : Z) :
  rules_wf m →
  assoc_get rid (threatRules m) = Some rule →
  lastRuleTrigger m !! rid = Some t0 →
  t0 ≠ 0 →
  (∀ calls,
     Forall (λ c, t0 <= c.1 < t0 + cooldown rule) calls →
     firings rid (recordAll calls m) = firings rid m
     ∧ lastRuleTrigger (recordAll calls m) !! rid = Some t0
     ∧ threatRules (recordAll calls m) = threatRules m)
  ∧ (∀ now event pre post m0 m1 fullEvent,
       t0 + cooldown rule <= now →
       threatRules m = pre ++ (rid, rule) :: post →
       storeEvent now event m = (m0, Returns fullEvent) →
       checkThreatRules_loop now fullEvent pre m0 = (m1, Returns tt) →
       type fullEvent ∈ eventTypes rule →
       condition rule now (events m1) = Returns true →
       firings rid (record now event m) = firings rid m + 1
       ∧ lastRuleTrigger (record now event m) !! rid = Some now).
Proof.
  intros Hwf Hrule Hlast Hnz. split.
  - intros calls Hcalls.
    destruct (recordAll_in_cooldown m rid rule t0 calls) as (? & ? & ?);
      done.
  - intros now event pre post m0 m1 fullEvent Hnow Hsplit Hstore Hpre Hty Hc.
    apply (record_fires m m0 m1 rid rule pre post now event fullEvent);
      try done.
    rewrite Hlast. by apply in_cooldown_expired.
Qed.

Lemma cooldown_suppresses_then_expires_witness :
  firings "eager" (recordAll [(5000, xss "6.6.6.6"); (5999, xss "6.6.6.6")]
                     monitor_eager_fired)
  = firings "eager" monitor_eager_fired
  ∧ firings "eager" (record 6000 (xss "6.6.6.6") monitor_eager_fired)
    = firings "eager" monitor_eager_fired + 1.
Proof.
  destruct (cooldown_suppresses_then_expires monitor_eager_fired "eager"
              eager_rule 5000) as [HA HB].
  - split; apply (bool_decide_unpack _); vm_compute; exact I.
  - reflexivity.
  - reflexivity.
  - discriminate.
  - split.
    + apply HA. repeat constructor; vm_compute; congruence.
    + pose (st := storeEvent 6000 (xss "6.6.6.6") monitor_eager_fired).
      apply (HB 6000 (xss "6.6.6.6")
               [("brute_force_detection", brute_force_detection);
                ("injection_attack_pattern", injection_attack_pattern);
                ("rate_limit_abuse", rate_limit_abuse)]
               [] st.1 st.1
               (fullEventOf "sec_6000_2" 6000 (xss "6.6.6.6"))).
      * vm_compute. congruence.
      * reflexivity.
      * reflexivity.
      * reflexivity.
      * apply (bool_decide_unpack _). vm_compute. exact I.
      * reflexivity.
Defined.

(** *** Top sources *)

Lemma Forall_sort_insert {A} (cmp : A → A → Z) (P : A → Prop) (x : A)
    (l : list A) :
  P x → Forall P l → Forall P (sort_insert cmp x l).
Proof.
  intros Hx. induction 1 as [|y l Hy Hl IH]; cbn.
  - by constructor.
  - case_decide; repeat constructor; done.
Qed.

Lemma sort_insert_count_desc (x : SourceCount) (l : list SourceCount) :
  count_desc l → count_desc (sort_insert by_count_desc x l).
Proof.
  unfold count_desc.
  induction l as [|y l IH]; intros Hl; cbn.
  - by repeat constructor.
  - apply StronglySorted_cons in Hl as [Hy Hl].
    unfold by_count_desc at 1. case_decide as Hcmp.
    + apply StronglySorted_cons. split.
      * constructor; [lia|].
        eapply Forall_impl; [exact Hy|]. cbn. intros; lia.
      * by apply StronglySorted_cons.
    + apply StronglySorted_cons. split; [|auto].
      apply Forall_sort_insert; [lia|done].
Qed.

Lemma js_sort_count_desc (l : list SourceCount) :
  count_desc (js_sort by_count_desc l).
Proof.
  induction l as [|x l IH]; cbn.
  - constructor.
  - by apply sort_insert_count_desc.
Qed.

(** The sort is stable: among the entries of one count it changes
    nothing. *)
Lemma with_count_sort_insert (c : Z) (x : SourceCount)
    (l : list SourceCount) :
  with_count c (sort_insert by_count_desc x l) = with_count c (x :: l).
Proof.
  unfold with_count. induction l as [|y l IH]; [done|]. cbn [sort_insert].
  unfold by_count_desc at 1. case_decide as Hcmp; [done|].
  rewrite filter_cons, IH, !filter_cons.
  repeat case_decide; try done; lia.
Qed.

Lemma with_count_js_sort (c : Z) (l : list SourceCount) :
  with_count c (js_sort by_count_desc l) = with_count c l.
Proof.
  induction l as [|x l IH]; [done|].
  cbn [js_sort foldr]. fold (js_sort by_count_desc l).
  rewrite with_count_sort_insert. unfold with_count in *.
  by rewrite !filter_cons, IH.
Qed.

Lemma with_count_take (c : Z) (n : nat) (l : list SourceCount) :
  with_count c (take n l) `prefix_of` with_count c l.
Proof.
  unfold with_count. exists (filter (λ s, sc_count s = c) (drop n l)).
  by rewrite <- filter_app, take_drop.
Qed.

Lemma updateTopSources_bounded (src : string) (l : list SourceCount) :
  (length (updateTopSources src l) ≤ 10)%nat
  ∧ count_desc (updateTopSources src l).
Proof.
  unfold updateTopSources. split.
  - rewrite length_take. lia.
  - pose proof (js_sort_count_desc (counted src l)) as Hs.
    rewrite <- (take_drop 10 (js_sort by_count_desc (counted src l))) in Hs.
    by apply StronglySorted_app_1_l in Hs.
Qed.

Lemma record_topSources (now : Z) (event : EventInput) (m : t) :
  (length (topSources (metrics (record now event m))) ≤ 10)%nat
  ∧ count_desc (topSources (metrics (record now event m))).
Proof.
  apply (record_invariant
           (λ m', (length (topSources (metrics m')) ≤ 10)%nat
                  ∧ count_desc (topSources (metrics m')))).
  intros m0 fullEvent Hrun.
  destruct (storeEvent_spec now event m)
    as (eid & m0' & Hrun' & _ & Hmet & _).
  cbn zeta in Hrun'. rewrite Hrun in Hrun'. injection Hrun' as <- ->.
  split; [|split].
  - rewrite Hmet. apply updateTopSources_bounded.
  - intros kv m1 _ _ _ _.
    destruct (fire_spec now (fullEventOf eid now event) kv m1)
      as (threat & _ & _ & Hmet1 & _).
    rewrite Hmet1. apply updateTopSources_bounded.
  - done.
Qed.

(** C6, as amended: after any calls of [recordEvent] on a fresh
    monitor, [topSources] lists at most 10 sources in descending order
    of count.  Between entries of equal count the order is the one they
    had in the list before the sort (the previous list with the source
    of the event counted in place, or pushed last when it is new): each
    update keeps, for every count, the entries of that count in that
    order, less those cut off after the tenth. *)
Theorem topSources_bounded_sorted_stable :
  (∀ rnd config calls,
     let tops :=
       topSources (getMetrics (recordAll calls (constructor rnd config))) in
     (length tops ≤ 10)%nat ∧ count_desc tops)
  ∧ (∀ event x c,
       with_count c (topSources (updateMetrics event x))
       `prefix_of` with_count c (counted (source event) (topSources x))).
Proof.
  split.
  - intros rnd config calls. cbn zeta. unfold getMetrics.
    induction calls as [|call calls _] using rev_ind.
    + unfold recordAll. cbn [foldl].
      destruct (constructor_fresh rnd config) as (_ & -> & _).
      cbn. split; [lia|constructor].
    + rewrite recordAll_snoc. apply record_topSources.
  - intros event x c. cbn [updateMetrics topSources].
    unfold updateTopSources.
    etrans; [apply with_count_take|]. by rewrite with_count_js_sort.
Qed.

(** C6, as stated, fails on ties: source A is seen first, B second;
    after A, B, B, A both have count 2 and B is listed before A. *)
Lemma topSources_tie_not_first_seen :
  source <$> events (recordAll a_b_b_a monitor_default)
  = ["A"; "B"; "B"; "A"]
  ∧ topSources (getMetrics (recordAll a_b_b_a monitor_default))
    = [ {| sc_source := "B"; sc_count := 2 |};
        {| sc_source := "A"; sc_count := 2 |} ].
Proof. vm_compute. done. Qed.

(** *** No re-entrant evaluation *)

Lemma triggered_by_grow (event : SecurityEvent)
    (evs extra : list SecurityEvent) (x : Emission) :
  triggered_by event evs x → triggered_by event (evs ++ extra) x.
Proof.
  destruct x; cbn; try done. intros (? & ? & ? & ?).
  split_and!; try done. apply elem_of_app. by left.
Qed.

Lemma triggered_by_other (event : SecurityEvent) (evs : list SecurityEvent)
    (x : Emission) :
  is_threatDetected x = false → triggered_by event evs x.
Proof. by destruct x. Qed.

Lemma threatEvents_app (l1 l2 : list Emission) :
  threatEvents (l1 ++ l2) = threatEvents l1 ++ threatEvents l2.
Proof. apply omap_app. Qed.

Lemma threatEvents_none (acts : list Emission) :
  Forall (λ x, is_threatDetected x = false) acts → threatEvents acts = [].
Proof.
  induction 1 as [|x acts Hx _ IH]; [done|].
  destruct x; try done; cbn; exact IH.
Qed.

(** The synthetic event of a firing, field by field. *)
Lemma fire_threat (now : Z) (trigger : SecurityEvent)
    (kv : string * ThreatDetectionRule) (m : t) :
  ∃ threat acts,
    events (fire now trigger kv m) = events m ++ [threat]
    ∧ metrics (fire now trigger kv m) = updateMetrics threat (metrics m)
    ∧ emitted (fire now trigger kv m)
      = emitted m ++ threatDetected kv.2 trigger threat :: acts
    ∧ Forall (λ x, is_threatDetected x = false) acts
    ∧ lastRuleTrigger (fire now trigger kv m)
      = <[kv.1 := now]> (lastRuleTrigger m)
    ∧ threatRules (fire now trigger kv m) = threatRules m
    ∧ type threat = ANOMALOUS_BEHAVIOR
    ∧ severity threat = rule_severity kv.2
    ∧ source threat = source trigger
    ∧ timestamp threat = now
    ∧ metadata threat = metadata trigger
    ∧ details threat
      = [ ("ruleName", JStr (name kv.2));
          ("ruleDescription", JStr (description kv.2));
          ("triggerEvent", JStr (id trigger));
          ("action", JStr (Action_string (action kv.2))) ].
Proof.
  unfold fire, handleThreatDetection, bind, modify, ret, generateEventId.
  cbn. destruct (action kv.2); cbn.
  - eexists _, []. split_and!; reflexivity || by constructor.
  - eexists _, [_]. rewrite <- app_assoc. cbn.
    split_and!; reflexivity || by repeat constructor.
  - eexists _, [_]. rewrite <- app_assoc. cbn.
    split_and!; reflexivity || by repeat constructor.
Qed.

(** The loop evaluates each rule at most once, for [event] only: what it
    appends to the log and counts is one synthetic event for each
    [threatDetected] it emits, and it ends normally unless the condition
    of a rule that listens to the type of [event] throws. *)
Lemma loop_emissions (now : Z) (event : SecurityEvent)
    (rules : list (string * ThreatDetectionRule)) (m : t) :
  ∃ new,
    let m' := (checkThreatRules_loop now event rules m).1 in
    emitted m' = emitted m ++ new
    ∧ events m' = events m ++ threatEvents new
    ∧ metrics m'
      = foldl (λ x e, updateMetrics e x) (metrics m) (threatEvents new)
    ∧ Forall (triggered_by event (events m')) new
    ∧ countThreats new
      <= Z.of_nat (length (listening (type event) rules))
    ∧ totalEvents (metrics m')
      = totalEvents (metrics m) + countThreats new
    ∧ ((checkThreatRules_loop now event rules m).2 = Returns tt
       ∨ ∃ rid rule evs err,
           (rid, rule) ∈ rules
           ∧ type event ∈ eventTypes rule
           ∧ condition rule now evs = Throws err
           ∧ (checkThreatRules_loop now event rules m).2 = Throws err).
Proof.
  revert m. induction rules as [|[rid rule] rules IH]; intros m.
  { exists []. cbn. rewrite !app_nil_r.
    change (countThreats []) with 0. split_and!; try done; [lia|by left]. }
  rewrite loop_cons. unfold listening. rewrite filter_cons. cbn [snd].
  fold (listening (type event) rules).
  destruct (checkThreatRule_cases now event rid rule m)
    as [[-> _]|[(err & -> & Hty & _ & Hthrow)|(-> & Hty & _)]].
  - destruct (IH m) as (new & H1 & H2 & H3 & H4 & H5 & H6 & H7).
    exists new. cbn zeta in *. split_and!; try done.
    + case_decide; cbn [length]; lia.
    + destruct H7 as [H7|(rid' & rule' & evs & err & Hin & ?)]; [by left|].
      right. exists rid', rule', evs, err. split; [by right|done].
  - exists []. cbn [fst snd]. rewrite !app_nil_r.
    change (countThreats []) with 0. split_and!; try done.
    + case_decide; cbn [length]; lia.
    + lia.
    + right. exists rid, rule, (events m), err. split; [by left|done].
  - destruct (fire_spec now event (rid, rule) m)
      as (threat & acts & He & Hmet & Hem & Hacts & Hthreat & _).
    destruct (IH (fire now event (rid, rule) m))
      as (new & H1 & H2 & H3 & H4 & H5 & H6 & H7).
    cbn zeta in *.
    exists (threatDetected rule event threat :: acts ++ new).
    assert (threatEvents (threatDetected rule event threat :: acts ++ new)
            = threat :: threatEvents new) as Hte.
    { change (threatDetected rule event threat :: acts ++ new)
        with ([threatDetected rule event threat] ++ acts ++ new).
      by rewrite !threatEvents_app, (threatEvents_none acts). }
    rewrite Hte, decide_True by done. cbn [length foldl].
    rewrite countThreats_cons, countThreats_app,
      (countThreats_none acts) by done. cbn [is_threatDetected].
    split_and!.
    + by rewrite H1, Hem, <- app_assoc.
    + by rewrite H2, He, <- app_assoc.
    + by rewrite H3, Hmet.
    + rewrite H2, He, <- app_assoc. rewrite H2, He, <- app_assoc in H4.
      constructor.
      * cbn. split_and!; try done.
        apply elem_of_app. right. by left.
      * apply Forall_app. split; [|done].
        eapply Forall_impl; [exact Hacts|]. intros x.
        apply triggered_by_other.
    + lia.
    + rewrite H6, Hmet. cbn. lia.
    + destruct H7 as [H7|(rid' & rule' & evs & err & Hin & ?)]; [by left|].
      right. exists rid', rule', evs, err. split; [by right|done].
Qed.

Lemma fullEventOf_id (eid : string) (now : Z) (event : EventInput) :
  fullEventOf eid now event
  = fullEventOf (id (fullEventOf eid now event)) now event.
Proof. unfold fullEventOf. cbn. by destruct (in_id event). Qed.

Lemma listening_length (ty : SecurityEventType)
    (rules : list (string * ThreatDetectionRule)) :
  (length (listening ty rules) ≤ length rules)%nat.
Proof. apply length_filter. Qed.

(** What one call emits, appends and counts, and how it ends. *)
Lemma record_emissions (m : t) (now : Z) (event : EventInput) :
  ∃ fullEvent new,
    let m0 := (storeEvent now event m).1 in
    let m' := (recordEvent now event m).1 in
    (storeEvent now event m).2 = Returns fullEvent
    ∧ fullEvent = fullEventOf (id fullEvent) now event
    ∧ emitted m' = emitted m ++ new
    ∧ Forall (triggered_by fullEvent (events m')) new
    ∧ events m' = events m0 ++ threatEvents new
    ∧ metrics m'
      = foldl (λ x e, updateMetrics e x) (metrics m0) (threatEvents new)
    ∧ countThreats new
      <= Z.of_nat (length (listening (type fullEvent) (threatRules m)))
    ∧ totalEvents (metrics m')
      = totalEvents (metrics m) + 1 + countThreats new
    ∧ ((recordEvent now event m).2 = Returns fullEvent
       ∧ last new = Some (securityEvent fullEvent)
       ∨ ∃ rid rule evs err,
           (rid, rule) ∈ threatRules m
           ∧ type fullEvent ∈ eventTypes rule
           ∧ condition rule now evs = Throws err
           ∧ (recordEvent now event m).2 = Throws err).
Proof.
  destruct (storeEvent_spec now event m)
    as (eid & m0 & Hrun & _ & Hmet & Hr & _ & Hem & _).
  cbn zeta in Hrun.
  exists (fullEventOf eid now event).
  destruct (loop_emissions now (fullEventOf eid now event)
              (threatRules m0) m0)
    as (new & H1 & H2 & H3 & H4 & H5 & H6 & H7).
  cbn zeta in *. rewrite recordEvent_unfold, Hrun.
  destruct (checkThreatRules_loop now (fullEventOf eid now event)
              (threatRules m0) m0) as [m1 [[]|err]]; cbn [fst snd] in *.
  - exists (new ++ [securityEvent (fullEventOf eid now event)]).
    cbn [emit emitted events metrics].
    rewrite threatEvents_app, countThreats_app, countThreats_cons.
    change (threatEvents [securityEvent (fullEventOf eid now event)])
      with (@nil SecurityEvent).
    cbn [is_threatDetected]. change (countThreats []) with 0.
    rewrite app_nil_r.
    split_and!; try done.
    + apply fullEventOf_id.
    + by rewrite H1, Hem, app_assoc.
    + apply Forall_app. split; [done|]. by repeat constructor.
    + rewrite <- Hr. lia.
    + rewrite H6, Hmet. cbn. lia.
    + left. split; [done|]. apply last_snoc.
  - exists new.
    split_and!; try done.
    + apply fullEventOf_id.
    + by rewrite H1, Hem.
    + by rewrite <- Hr.
    + rewrite H6, Hmet. cbn. lia.
    + right.
      destruct H7 as [H7|(rid & rule & evs & err' & Hin & Hty & Hc & He)];
        [done|].
      injection He as ->. exists rid, rule, evs, err'. rewrite Hr in Hin.
      split_and!; done.
Qed.

(** The rule map is written by no part of a call, and read only to
    enumerate the rules. *)
Lemma storeEvent_with_threatRules
    (f : list (string * ThreatDetectionRule) →
         list (string * ThreatDetectionRule))
    (now : Z) (event : EventInput) (m : t) :
  storeEvent now event (with_threatRules f m)
  = (with_threatRules f (storeEvent now event m).1,
     (storeEvent now event m).2).
Proof.
  unfold storeEvent, bind, gets, modify, ret, generateEventId; cbn.
  by case_decide.
Qed.

Lemma fire_with_threatRules
    (f : list (string * ThreatDetectionRule) →
         list (string * ThreatDetectionRule))
    (now : Z) (event : SecurityEvent) (kv : string * ThreatDetectionRule)
    (m : t) :
  fire now event kv (with_threatRules f m)
  = with_threatRules f (fire now event kv m).
Proof.
  unfold fire, handleThreatDetection, bind, modify, ret, generateEventId.
  cbn. by destruct (action kv.2).
Qed.

Lemma checkThreatRule_with_threatRules
    (f : list (string * ThreatDetectionRule) →
         list (string * ThreatDetectionRule))
    (now : Z) (event : SecurityEvent) (rid : string)
    (rule : ThreatDetectionRule) (m : t) :
  checkThreatRule now event rid rule (with_threatRules f m)
  = (with_threatRules f (checkThreatRule now event rid rule m).1,
     (checkThreatRule now event rid rule m).2).
Proof.
  rewrite !checkThreatRule_eq, fire_with_threatRules.
  cbn [with_threatRules lastRuleTrigger events].
  destruct (bool_decide (type event ∈ eventTypes rule)); [|done].
  destruct (in_cooldown now (lastRuleTrigger m !! rid) rule); [done|].
  by destruct (condition rule now (events m)) as [[]|].
Qed.

(** The loop over all the rules does what the loop over the rules that
    listen to the type of [event] does: the others are passed over
    without a call of their condition. *)
Lemma loop_listening
    (f : list (string * ThreatDetectionRule) →
         list (string * ThreatDetectionRule))
    (now : Z) (event : SecurityEvent)
    (rules : list (string * ThreatDetectionRule)) (m : t) :
  checkThreatRules_loop now event (listening (type event) rules)
    (with_threatRules f m)
  = (with_threatRules f (checkThreatRules_loop now event rules m).1,
     (checkThreatRules_loop now event rules m).2).
Proof.
  revert m. unfold listening.
  induction rules as [|[rid rule] rules IH]; intros m; [done|].
  rewrite filter_cons, loop_cons. cbn [snd].
  destruct (decide (type event ∈ eventTypes rule)) as [Hin|Hin].
  - rewrite loop_cons, checkThreatRule_with_threatRules.
    destruct (checkThreatRule now event rid rule m) as [m1 [[]|err]];
      cbn [fst snd]; [apply IH|done].
  - rewrite checkThreatRule_eq, bool_decide_false by done. apply IH.
Qed.

(** A rule that is reached with its three tests passed fires: the
    synthetic event is pushed and counted, the notifications go out, and
    the loop goes on with the remaining rules for the recorded event. *)
Lemma record_firing (m m0 m1 : t) (now : Z) (event : EventInput)
    (fullEvent : SecurityEvent) (rid : string) (rule : ThreatDetectionRule)
    (pre post : list (string * ThreatDetectionRule)) :
  storeEvent now event m = (m0, Returns fullEvent) →
  threatRules m = pre ++ (rid, rule) :: post →
  checkThreatRules_loop now fullEvent pre m0 = (m1, Returns tt) →
  type fullEvent ∈ eventTypes rule →
  in_cooldown now (lastRuleTrigger m1 !! rid) rule = false →
  condition rule now (events m1) = Returns true →
  let m2 := (checkThreatRule now fullEvent rid rule m1).1 in
  ∃ threat acts,
    events m2 = events m1 ++ [threat]
    ∧ metrics m2 = updateMetrics threat (metrics m1)
    ∧ emitted m2
      = emitted m1 ++ threatDetected rule fullEvent threat :: acts
    ∧ Forall (λ x, is_threatDetected x = false) acts
    ∧ lastRuleTrigger m2 = <[rid := now]> (lastRuleTrigger m1)
    ∧ threatRules m2 = threatRules m1
    ∧ type threat = ANOMALOUS_BEHAVIOR
    ∧ severity threat = rule_severity rule
    ∧ source threat = source fullEvent
    ∧ timestamp threat = now
    ∧ metadata threat = metadata fullEvent
    ∧ details threat
      = [ ("ruleName", JStr (name rule));
          ("ruleDescription", JStr (description rule));
          ("triggerEvent", JStr (id fullEvent));
          ("action", JStr (Action_string (action rule))) ]
    ∧ recordEvent now event m
      = match checkThreatRules_loop now fullEvent post m2 with
        | (m3, Returns _) =>
            (emit (securityEvent fullEvent) m3, Returns fullEvent)
        | (m3, Throws err) => (m3, Throws err)
        end.
Proof.
  intros Hstore Hsplit Hpre Hty Hcd Hcond. cbn zeta.
  destruct (storeEvent_spec now event m)
    as (eid & m0' & Hrun' & _ & _ & Hr & _).
  cbn zeta in Hrun'. rewrite Hstore in Hrun'. injection Hrun' as <- ->.
  rewrite recordEvent_unfold, Hstore, Hr, Hsplit, loop_app, Hpre, loop_cons.
  rewrite checkThreatRule_eq, bool_decide_true, Hcd, Hcond by done.
  cbn [fst].
  destruct (fire_threat now (fullEventOf eid now event) (rid, rule) m1)
    as (threat & acts & H).
  exists threat, acts. cbn [fst snd] in H.
  destruct H as (? & ? & ? & ? & ? & ? & ? & ? & ? & ? & ? & ?).
  split_and!; done.
Qed.

(** C7: what one call of [recordEvent] does with the rules.  Every
    [threatDetected] notification of the call has the recorded event as
    its trigger and a rule that listens to the type of that event, and
    the call appends to the log, after the recorded event, exactly the
    synthetic [ANOMALOUS_BEHAVIOR] events of these notifications, in
    order, and counts each of them in the metrics.  There are no more
    of them than rules that listen to the type of the recorded event:
    each rule is evaluated at most once, and a synthetic event is never
    a trigger.  The call returns the recorded event, its
    [securityEvent] notification last, unless the condition of a rule
    that listens to the type of the recorded event throws, and then it
    throws the same.  A rule fires when it is reached with its three
    tests passed (it listens to the type, it is not cooling down, its
    condition returns true on the log): the firing starts the cooldown,
    pushes one synthetic event with the fields of
    [handleThreatDetection], counts it, emits [threatDetected] and the
    notification of the action, and the loop goes on with the remaining
    rules for the recorded event.  The rules that do not listen to the
    type of the recorded event play no part, whatever synthetic events
    the call appends: without them in the map the call has the same
    outcome and leaves the same state. *)
Theorem recordEvent_evaluates_recorded_event_only (m : t) (now : Z)
    (event : EventInput) :
  (∃ fullEvent new,
     let m0 := (storeEvent now event m).1 in
     let m' := (recordEvent now event m).1 in
     (storeEvent now event m).2 = Returns fullEvent
     ∧ fullEvent = fullEventOf (id fullEvent) now event
     ∧ emitted m' = emitted m ++ new
     ∧ Forall (triggered_by fullEvent (events m')) new
     ∧ events m' = events m0 ++ threatEvents new
     ∧ metrics m'
       = foldl (λ x e, updateMetrics e x) (metrics m0) (threatEvents new)
     ∧ countThreats new
       <= Z.of_nat (length (listening (type fullEvent) (threatRules m)))
     ∧ totalEvents (metrics m')
       = totalEvents (metrics m) + 1 + countThreats new
     ∧ ((recordEvent now event m).2 = Returns fullEvent
        ∧ last new = Some (securityEvent fullEvent)
        ∨ ∃ rid rule evs err,
            (rid, rule) ∈ threatRules m
            ∧ type fullEvent ∈ eventTypes rule
            ∧ condition rule now evs = Throws err
            ∧ (recordEvent now event m).2 = Throws err)
     ∧ (∀ pre rid rule post m1,
          threatRules m = pre ++ (rid, rule) :: post →
          checkThreatRules_loop now fullEvent pre m0 = (m1, Returns tt) →
          type fullEvent ∈ eventTypes rule →
          in_cooldown now (lastRuleTrigger m1 !! rid) rule = false →
          condition rule now (events m1) = Returns true →
          let m2 := (checkThreatRule now fullEvent rid rule m1).1 in
          ∃ threat acts,
            events m2 = events m1 ++ [threat]
            ∧ metrics m2 = updateMetrics threat (metrics m1)
            ∧ emitted m2
              = emitted m1 ++ threatDetected rule fullEvent threat :: acts
            ∧ Forall (λ x, is_threatDetected x = false) acts
            ∧ lastRuleTrigger m2 = <[rid := now]> (lastRuleTrigger m1)
            ∧ threatRules m2 = threatRules m1
            ∧ type threat = ANOMALOUS_BEHAVIOR
            ∧ severity threat = rule_severity rule
            ∧ source threat = source fullEvent
            ∧ timestamp threat = now
            ∧ metadata threat = metadata fullEvent
            ∧ details threat
              = [ ("ruleName", JStr (name rule));
                  ("ruleDescription", JStr (description rule));
                  ("triggerEvent", JStr (id fullEvent));
                  ("action", JStr (Action_string (action rule))) ]
            ∧ recordEvent now event m
              = match checkThreatRules_loop now fullEvent post m2 with
                | (m3, Returns _) =>
                    (emit (securityEvent fullEvent) m3, Returns fullEvent)
                | (m3, Throws err) => (m3, Throws err)
                end))
  ∧ recordEvent now event
      (with_threatRules (listening (in_type event)) m)
    = (with_threatRules (listening (in_type event))
         (recordEvent now event m).1,
       (recordEvent now event m).2).
Proof.
  split.
  - destruct (record_emissions m now event)
      as (fullEvent & new & Hstore & H).
    exists fullEvent, new. cbn zeta in *.
    split; [done|]. repeat (split; [apply H|]).
    intros pre rid rule post m1.
    apply (record_firing m (storeEvent now event m).1 m1).
    rewrite <- Hstore. by destruct (storeEvent now event m).
  - rewrite !recordEvent_unfold, storeEvent_with_threatRules.
    destruct (storeEvent_spec now event m) as (eid & m0 & Hrun & _).
    cbn zeta in Hrun. rewrite Hrun.
    cbn [fst snd with_threatRules threatRules].
    change (in_type event) with (type (fullEventOf eid now event)).
    fold (with_threatRules
            (listening (type (fullEventOf eid now event))) m0).
    rewrite loop_listening.
    by destruct (checkThreatRules_loop now (fullEventOf eid now event)
                   (threatRules m0) m0) as [m1 [[]|err]].
Qed.

Lemma recordEvent_evaluates_recorded_event_only_witness :
  ∃ threat,
    type threat = ANOMALOUS_BEHAVIOR
    ∧ source threat = "6.6.6.6"
    ∧ events (recordEvent 5000 (xss "6.6.6.6") monitor_eager).1
      = [fullEventOf "sec_5000_0" 5000 (xss "6.6.6.6"); threat].
Proof.
  destruct (recordEvent_evaluates_recorded_event_only monitor_eager 5000
              (xss "6.6.6.6"))
    as [(fullEvent & new & Hstore & _ & _ & _ & _ & _ & _ & _ & _ & H) _].
  vm_compute in Hstore. injection Hstore as <-.
  destruct (H [("brute_force_detection", brute_force_detection);
               ("injection_attack_pattern", injection_attack_pattern);
               ("rate_limit_abuse", rate_limit_abuse)]
              "eager" eager_rule []
              (storeEvent 5000 (xss "6.6.6.6") monitor_eager).1)
    as (threat & acts & Hev & _ & _ & _ & _ & _ & Hty & _ & Hsrc & _ & _ & _
        & Hrec).
  - reflexivity.
  - reflexivity.
  - apply (bool_decide_unpack _). vm_compute. exact I.
  - reflexivity.
  - reflexivity.
  - exists threat. split; [exact Hty|]. split; [exact Hsrc|].
    rewrite Hrec. cbn [checkThreatRules_loop ret fst emit events].
    rewrite Hev. reflexivity.
Defined.

(** *** Counting by key *)

Lemma js_or_default (o : option Z) : js_or o 0 = default 0 o.
Proof. destruct o as [v|]; cbn; [|done]. by case_decide. Qed.

Lemma assoc_get_set_eq {K V} `{EqDecision K} (k : K) (v : V)
    (m : list (K * V)) :
  assoc_get k (assoc_set k v m) = Some v.
Proof.
  induction m as [|[k' v'] m IH]; cbn.
  - by rewrite decide_True.
  - case_decide; cbn; [by rewrite decide_True|by rewrite decide_False].
Qed.

Lemma assoc_get_set_ne {K V} `{EqDecision K} (k k' : K) (v : V)
    (m : list (K * V)) :
  k ≠ k' → assoc_get k' (assoc_set k v m) = assoc_get k' m.
Proof.
  intros Hne. induction m as [|[k0 v0] m IH]; cbn.
  - by rewrite decide_False.
  - case_decide; cbn.
    + subst. by rewrite !decide_False.
    + by rewrite IH.
Qed.

Lemma assoc_set_keys_subseteq {K V} `{EqDecision K} (k k' : K) (v : V)
    (m : list (K * V)) :
  k' ∈ (assoc_set k v m).*1 → k' = k ∨ k' ∈ m.*1.
Proof.
  induction m as [|[k0 v0] m IH]; cbn.
  - intros ?%list_elem_of_singleton. by left.
  - case_decide; cbn.
    + subst. intros [->|?]%elem_of_cons; [by left|]. right. by right.
    + intros [->|?]%elem_of_cons; [right; by left|].
      destruct IH as [?|?]; [done|by left|]. right. by right.
Qed.

Lemma assoc_set_NoDup {K V} `{EqDecision K} (k : K) (v : V)
    (m : list (K * V)) :
  NoDup m.*1 → NoDup (assoc_set k v m).*1.
Proof.
  induction m as [|[k0 v0] m IH]; cbn.
  - intros _. apply NoDup_singleton.
  - intros [Hk0 Hm]%NoDup_cons. case_decide; cbn.
    + subst. by apply NoDup_cons.
    + apply NoDup_cons. split; [|auto].
      intros [?|?]%assoc_set_keys_subseteq; done.
Qed.

Lemma tally_from_get {K} `{EqDecision K} (k : K) (keys : list K)
    (m : list (K * Z)) :
  assoc_get k (tally_from m keys)
  = if decide (filter (λ k', k' = k) keys = [])
    then assoc_get k m
    else Some (default 0 (assoc_get k m)
               + Z.of_nat (length (filter (λ k', k' = k) keys))).
Proof.
  revert m. unfold tally_from.
  induction keys as [|k0 keys IH]; intros m; [done|].
  cbn [foldl]. rewrite IH, js_or_default.
  destruct (decide (k0 = k)) as [->|Hne].
  - rewrite filter_cons_True by done.
    rewrite assoc_get_set_eq. cbn [default length].
    destruct (decide (k :: filter (λ k', k' = k) keys = [])) as [?|_];
      [done|].
    unfold Datatypes.id. case_decide as Hnil; [rewrite Hnil|];
      cbn [length]; f_equal; lia.
  - rewrite filter_cons_False by done.
    by rewrite assoc_get_set_ne.
Qed.

Lemma tally_from_NoDup {K} `{EqDecision K} (keys : list K)
    (m : list (K * Z)) :
  NoDup m.*1 → NoDup (tally_from m keys).*1.
Proof.
  revert m. unfold tally_from.
  induction keys as [|k0 keys IH]; intros m Hm; [done|].
  cbn [foldl]. apply IH. by apply assoc_set_NoDup.
Qed.

Lemma filter_fmap_length {A B} (f : A → B) (P : B → Prop)
    `{∀ y, Decision (P y)} (l : list A) :
  length (filter P (f <$> l)) = length (filter (λ x, P (f x)) l).
Proof.
  induction l as [|x l IH]; [done|].
  rewrite fmap_cons, !filter_cons. case_decide; cbn; by rewrite IH.
Qed.

Lemma NoDup_filter_keys {K V} (P : K * V → Prop) `{∀ kv, Decision (P kv)}
    (m : list (K * V)) :
  NoDup m.*1 → NoDup (filter P m).*1.
Proof.
  induction m as [|kv m IH]; [done|].
  rewrite fmap_cons. intros [Hk Hm]%NoDup_cons.
  rewrite filter_cons. case_decide; [|auto].
  rewrite fmap_cons. apply NoDup_cons. split; [|auto].
  intros (kv' & Heq & Hin%list_elem_of_filter)%list_elem_of_fmap.
  apply Hk. rewrite Heq. apply list_elem_of_fmap_2. tauto.
Qed.

(** The keys whose tally exceeds [n] are those that occur more than [n]
    times. *)
Lemma tally_above {K} `{EqDecision K} (n : Z) (k : K) (keys : list K) :
  0 <= n →
  k ∈ (filter (λ kc : K * Z, kc.2 > n) (tally keys)).*1
  ↔ Z.of_nat (length (filter (λ k', k' = k) keys)) > n.
Proof.
  intros Hn.
  pose proof (tally_from_get k keys []) as Hget. fold (tally keys) in Hget.
  pose proof (tally_from_NoDup keys [] (NoDup_nil_2)) as Hnd.
  fold (tally keys) in Hnd. cbn [assoc_get default] in Hget.
  split.
  - intros ([k' c] & Heq & [Hc Hin]%list_elem_of_filter)%list_elem_of_fmap.
    cbn in Heq, Hc. subst k'.
    apply (assoc_get_unique _ _ _ Hnd) in Hin. rewrite Hin in Hget.
    case_decide; [done|]. injection Hget as ->. lia.
  - intros Hc. case_decide as Hnil.
    { rewrite Hnil in Hc. cbn in Hc. lia. }
    apply assoc_get_elem_of in Hget.
    apply list_elem_of_fmap. eexists. split; [|apply list_elem_of_filter].
    2: { split; [|exact Hget]. cbn. lia. }
    done.
Qed.

(** C8: [suspiciousSources] of a report lists, once each, exactly the
    sources that have strictly more than 10 events in the range, the
    range being the events with [startTime <= timestamp <= endTime];
    [isSuspiciousSource] uses another rule, strictly more than 5 events
    of the source that are high or critical and later than the cutoff. *)
Theorem suspiciousSources_more_than_10_in_range (m : t)
    (startTime endTime : Z) (src : string) :
  (src ∈ suspiciousSources (generateReport startTime endTime m)
   ↔ count_where (λ e, source e = src)
       (getEventsInRange startTime endTime m) > 10)
  ∧ (∀ e, e ∈ getEventsInRange startTime endTime m
          ↔ e ∈ events m ∧ startTime <= timestamp e <= endTime)
  ∧ NoDup (suspiciousSources (generateReport startTime endTime m))
  ∧ (∀ now timeWindow,
       isSuspiciousSource now src timeWindow m = true
       ↔ count_where
           (λ e, source e = src
                 ∧ timestamp e > now - default 300000 timeWindow
                 ∧ (severity e = high ∨ severity e = critical))
           (events m) > 5).
Proof.
  split_and!.
  - cbn [generateReport suspiciousSources]. rewrite tally_above by lia.
    unfold count_where. by rewrite filter_fmap_length.
  - intros e. unfold getEventsInRange. rewrite list_elem_of_filter.
    split; intros; split; try tauto; lia.
  - cbn [generateReport suspiciousSources].
    apply NoDup_filter_keys, tally_from_NoDup, NoDup_nil_2.
  - intros now timeWindow. unfold isSuspiciousSource, count_where.
    by rewrite bool_decide_eq_true.
Qed.

(** *** Recent events *)

(** C9: [getRecentEvents(0)] returns the whole history, because
    [slice(-0)] is [slice(0)]; for a strictly positive [limit] the
    result is the end of the history (oldest first) and has
    [min(limit, length)] events. *)
Theorem getRecentEvents_zero_is_all (m : t) :
  getRecentEvents (Some 0) m = events m
  ∧ (∀ limit, 0 < limit →
       getRecentEvents (Some limit) m `suffix_of` events m
       ∧ Z.of_nat (length (getRecentEvents (Some limit) m))
         = Z.min limit (Z.of_nat (length (events m)))).
Proof.
  unfold getRecentEvents, slice_from, default. cbn [from_option].
  unfold Datatypes.id. split.
  - rewrite decide_False by lia. by rewrite Z.min_l by lia.
  - intros limit Hlimit. rewrite decide_True by lia. split.
    + apply suffix_drop.
    + rewrite length_drop. lia.
Qed.

Lemma getRecentEvents_zero_is_all_witness :
  let m := recordAll five_auth_failures monitor_cap_5 in
  0 < 2
  ∧ getRecentEvents (Some 2) m `suffix_of` events m
  ∧ Z.of_nat (length (getRecentEvents (Some 2) m))
    = Z.min 2 (Z.of_nat (length (events m))).
Proof.
  cbn zeta. split; [reflexivity|].
  destruct (getRecentEvents_zero_is_all
              (recordAll five_auth_failures monitor_cap_5)) as [_ H].
  apply (H 2). reflexivity.
Defined.

(** *** Registering and removing rules *)

Lemma assoc_set_Forall {K V} `{EqDecision K} (P : K * V → Prop) (k : K)
    (v : V) (m : list (K * V)) :
  P (k, v) → Forall P m → Forall P (assoc_set k v m).
Proof.
  intros Hkv. induction 1 as [|[k' v'] m Hx Hm IH]; cbn.
  - by repeat constructor.
  - case_decide; by constructor.
Qed.

Lemma addThreatRule_wf (rule : ThreatDetectionRule) (m : t) :
  rules_wf m → rules_wf (addThreatRule rule m).
Proof.
  intros [Hnd Hids]. split; cbn.
  - by apply assoc_set_NoDup.
  - by apply assoc_set_Forall.
Qed.

Lemma removeThreatRule_wf (rid : string) (m : t) :
  rules_wf m → rules_wf (removeThreatRule rid m).
Proof.
  intros [Hnd Hids]. split; cbn; unfold assoc_delete.
  - by apply NoDup_filter_keys.
  - rewrite Forall_forall in Hids |- *.
    intros kv [_ Hkv]%list_elem_of_filter. auto.
Qed.

(** Every monitor is built by [addThreatRule] from no rules, so its
    rule map is well formed. *)
Lemma constructor_wf (rnd : nat → string) (config : Config) :
  rules_wf (constructor rnd config).
Proof.
  assert (∀ rules m, rules_wf m →
            rules_wf (foldl (λ m rule, addThreatRule rule m) m rules))
    as Hfold.
  { induction rules as [|r rules IH]; intros m Hm; [done|].
    cbn. by apply IH, addThreatRule_wf. }
  unfold constructor, loadDefaultThreatRules.
  destruct (threatDetectionRules config).
  - apply Hfold, Hfold. split; cbn; constructor.
  - apply Hfold. split; cbn; constructor.
Qed.

Lemma record_threatRules (now : Z) (event : EventInput) (m : t) :
  threatRules (record now event m) = threatRules m.
Proof.
  apply (record_invariant (λ m', threatRules m' = threatRules m)).
  intros m0 fullEvent Hrun.
  destruct (storeEvent_spec now event m)
    as (eid & m0' & Hrun' & _ & _ & Hr & _).
  cbn zeta in Hrun'. rewrite Hrun in Hrun'. injection Hrun' as <- ->.
  split; [done|split; [|done]].
  intros kv m1 _ <- _ _.
  by destruct (fire_spec now (fullEventOf eid now event) kv m1)
    as (? & ? & _ & _ & _ & _ & _ & _ & Hr1 & _).
Qed.

Lemma record_keeps_lastRuleTrigger (now : Z) (event : EventInput)
    (rid : string) (m : t) :
  is_Some (lastRuleTrigger m !! rid) →
  is_Some (lastRuleTrigger (record now event m) !! rid).
Proof.
  intros Hsome.
  apply (record_invariant (λ m', is_Some (lastRuleTrigger m' !! rid))).
  intros m0 fullEvent Hrun.
  destruct (storeEvent_spec now event m)
    as (eid & m0' & Hrun' & _ & _ & _ & Hl & _).
  cbn zeta in Hrun'. rewrite Hrun in Hrun'. injection Hrun' as <- ->.
  split; [by rewrite Hl|split; [|done]].
  intros kv m1 _ Hm1 _ _.
  destruct (fire_spec now (fullEventOf eid now event) kv m1)
    as (? & ? & _ & _ & _ & _ & _ & _ & _ & Hl1 & _).
  rewrite Hl1, lookup_insert. by case_decide.
Qed.

(** C10, as amended: [addThreatRule] with an id that is already
    registered replaces the rule and leaves [lastRuleTrigger] as it
    was.  The replacement is suppressed while
    [now - lastFiredAt < cooldown] for its own cooldown, whatever the
    cooldown of the rule it replaced, and fires again once that has
    elapsed.  [recordEvent] and [addThreatRule] never remove the entry
    of an id from [lastRuleTrigger]; [removeThreatRule] of that id and
    [clear] do. *)
Theorem addThreatRule_keeps_lastRuleTrigger (m : t)
    (rule : ThreatDetectionRule) :
  lastRuleTrigger (addThreatRule rule m) = lastRuleTrigger m
  ∧ assoc_get (rule_id rule) (threatRules (addThreatRule rule m)) = Some rule
  ∧ (∀ last now event,
       rules_wf m →
       lastRuleTrigger m !! rule_id rule = Some last → last ≠ 0 →
       now - last < cooldown rule →
       firings (rule_id rule) (record now event (addThreatRule rule m))
       = firings (rule_id rule) m)
  ∧ (∀ last now event pre post m0 m1 fullEvent,
       rules_wf m →
       lastRuleTrigger m !! rule_id rule = Some last →
       last + cooldown rule <= now →
       threatRules (addThreatRule rule m)
       = pre ++ (rule_id rule, rule) :: post →
       storeEvent now event (addThreatRule rule m)
       = (m0, Returns fullEvent) →
       checkThreatRules_loop now fullEvent pre m0 = (m1, Returns tt) →
       type fullEvent ∈ eventTypes rule →
       condition rule now (events m1) = Returns true →
       firings (rule_id rule) (record now event (addThreatRule rule m))
       = firings (rule_id rule) m + 1)
  ∧ (∀ rid now event,
       is_Some (lastRuleTrigger m !! rid) →
       is_Some (lastRuleTrigger (record now event m) !! rid)
       ∧ is_Some (lastRuleTrigger (addThreatRule rule m) !! rid))
  ∧ (∀ rid,
       lastRuleTrigger (removeThreatRule rid m) !! rid = None
       ∧ lastRuleTrigger (clear m) !! rid = None).
Proof.
  split_and!.
  - done.
  - apply assoc_get_set_eq.
  - intros last now event Hwf Hlast Hnz Hnow.
    destruct (record_in_cooldown (addThreatRule rule m) (rule_id rule) rule
                last now event) as (_ & _ & ->); try done.
    + by apply addThreatRule_wf.
    + apply assoc_get_set_eq.
  - intros last now event pre post m0 m1 fullEvent
      Hwf Hlast Hnow Hsplit Hstore Hpre Hty Hcond.
    destruct (record_fires (addThreatRule rule m) m0 m1 (rule_id rule) rule
                pre post now event fullEvent) as [-> _]; try done.
    + by apply addThreatRule_wf.
    + cbn [addThreatRule with_threatRules lastRuleTrigger].
      rewrite Hlast. by apply in_cooldown_expired.
  - intros rid now event Hsome. split; [|done].
    by apply record_keeps_lastRuleTrigger.
  - intros rid. split; cbn.
    + apply lookup_delete_eq.
    + apply lookup_empty.
Qed.

Lemma addThreatRule_keeps_lastRuleTrigger_witness :
  firings "eager" (record 5005 (xss "6.6.6.6")
                     (addThreatRule quick_rule monitor_eager_fired))
  = firings "eager" monitor_eager_fired
  ∧ firings "eager" (record 5010 (xss "6.6.6.6")
                       (addThreatRule quick_rule monitor_eager_fired))
    = firings "eager" monitor_eager_fired + 1.
Proof.
  destruct (addThreatRule_keeps_lastRuleTrigger monitor_eager_fired
              quick_rule) as (_ & _ & HA & HB & _).
  split.
  - apply (HA 5000 5005 (xss "6.6.6.6")).
    + split; apply (bool_decide_unpack _); vm_compute; exact I.
    + reflexivity.
    + discriminate.
    + reflexivity.
  - pose (st := storeEvent 5010 (xss "6.6.6.6")
                  (addThreatRule quick_rule monitor_eager_fired)).
    apply (HB 5000 5010 (xss "6.6.6.6")
             [("brute_force_detection", brute_force_detection);
              ("injection_attack_pattern", injection_attack_pattern);
              ("rate_limit_abuse", rate_limit_abuse)]
             [] st.1 st.1
             (fullEventOf "sec_5010_2" 5010 (xss "6.6.6.6"))).
    + split; apply (bool_decide_unpack _); vm_compute; exact I.
    + reflexivity.
    + vm_compute. congruence.
    + reflexivity.
    + reflexivity.
    + reflexivity.
    + apply (bool_decide_unpack _). vm_compute. exact I.
    + reflexivity.
Defined.

(** C10, as stated, fails when the cooldowns differ: [eager_rule]
    (cooldown 1000 ms) fired at 5000; replaced under the same id by a
    rule with a cooldown of 10 ms, it fires again at 5500, when the old
    cooldown has not expired, although without the replacement the call
    at 5500 fires nothing. *)
Lemma replacement_not_suppressed_by_old_cooldown :
  let m := addThreatRule quick_rule monitor_eager_fired in
  lastRuleTrigger monitor_eager_fired !! "eager" = Some 5000
  ∧ lastRuleTrigger m !! "eager" = Some 5000
  ∧ 5500 < 5000 + cooldown eager_rule
  ∧ firings "eager" monitor_eager_fired = 1
  ∧ firings "eager" (record 5500 (xss "6.6.6.6") monitor_eager_fired) = 1
  ∧ firings "eager" (record 5500 (xss "6.6.6.6") m) = 2.
Proof. vm_compute. done. Qed.

End SecurityMonitorProps.

(** * Further properties *)

(** ** Rate limiter: windows, isolation, sweep, statistics *)

Module AdvancedRateLimiterExtra.
Import AdvancedRateLimiter Scenarios AdvancedRateLimiterProps.

#[local] Arguments limits : simpl never.

Lemma carried_violations_Some (e : RateLimitEntry) :
  carried_violations (Some e) = violations e.
Proof. unfold carried_violations, js_or. by case_decide. Qed.

Lemma calls_app (ts1 ts2 : list Z) (k : string) (rl : t) :
  calls (ts1 ++ ts2) k rl
  = ((calls ts2 k (calls ts1 k rl).1).1,
     (calls ts1 k rl).2 ++ (calls ts2 k (calls ts1 k rl).1).2).
Proof.
  revert rl. induction ts1 as [|now ts1 IH]; intros rl.
  - cbn. by destruct (calls ts2 k rl).
  - cbn [app calls]. destruct (isAllowed now k rl) as [rl1 d].
    rewrite IH. by destruct (calls ts1 k rl1).
Qed.

(** Inside a live window the calls are allowed while there is room and
    refused after, each refusal counted as a violation. *)
Lemma calls_fill_window (ts : list Z) (k : string) (rl : t)
    (e : RateLimitEntry) :
  store rl !! k = Some e →
  Forall (λ ti, ti <= resetTime e) ts →
  0 <= count e <= lim_maxRequests (limits rl) →
  let room := Z.to_nat (lim_maxRequests (limits rl) - count e) in
  allowed <$> (calls ts k rl).2
  = replicate (length ts `min` room) true
    ++ replicate (length ts - room) false
  ∧ store (calls ts k rl).1 !! k
    = Some {| count := count e + Z.of_nat (length ts `min` room);
              resetTime := resetTime e;
              violations := violations e + Z.of_nat (length ts - room) |}.
Proof.
  revert rl e. induction ts as [|now ts IH]; intros rl e Hk Hts Hc; cbn zeta.
  { cbn. rewrite Hk. split; [done|]. destruct e; cbn. do 2 f_equal; lia. }
  apply Forall_cons in Hts as [Hnow Hts].
  pose proof (isAllowed_limits now k rl) as Hlim.
  destruct (decide (count e < lim_maxRequests (limits rl))) as [Hroom|Hfull].
  - destruct (isAllowed_counts now k rl e Hk Hnow Hroom) as [Hk1 Hd].
    cbn [calls]. destruct (isAllowed now k rl) as [rl1 d].
    cbn [fst snd] in Hk1, Hd, Hlim.
    destruct (IH rl1 _ Hk1) as [Hds Hk2]; [done|cbn; rewrite Hlim; lia|].
    cbn [count resetTime violations] in Hds, Hk2. rewrite Hlim in Hds, Hk2.
    destruct (calls ts k rl1) as [rl2 ds]. cbn [fst snd length] in *.
    assert (∃ r, Z.to_nat (lim_maxRequests (limits rl) - count e) = S r
                 ∧ Z.to_nat (lim_maxRequests (limits rl) - (count e + 1)) = r)
      as (r & -> & Hr) by (eexists; split; [|reflexivity]; lia).
    rewrite Hr in Hds, Hk2. cbn [Nat.min Nat.sub replicate app].
    rewrite fmap_cons, Hd, Hds, Hk2. split; [done|].
    do 2 f_equal. lia.
  - epose proof (isAllowed_full now k rl e Hk Hnow _) as Heq.
    cbn [calls]. rewrite Heq. clear Heq.
    match goal with
    | |- context [calls ts k ?rl1] =>
        destruct (IH rl1 {| count := count e; resetTime := resetTime e;
                            violations := violations e + 1 |})
          as [Hds Hk2];
          [cbn [store]; by rewrite lookup_insert_eq|done
          |unfold limits in *; cbn [config count] in *; lia|];
        destruct (calls ts k rl1) as [rl2 ds]
    end.
    cbn [count resetTime violations fst snd config] in *.
    change (limits {| store := _; config := config rl |})
      with (limits rl) in Hds, Hk2.
    assert (Z.to_nat (lim_maxRequests (limits rl) - count e) = 0)%nat
      as Hz by lia.
    rewrite Hz in *. rewrite Nat.min_0_r in *. rewrite Nat.sub_0_r in *.
    cbn [replicate app length] in *.
    rewrite fmap_cons, Hds, Hk2. split; [done|].
    do 2 f_equal; lia.
  Unshelve. lia.
Qed.

(** A call on a key without a live window: what it answers and stores. *)
Lemma isAllowed_fresh (now : Z) (k : string) (rl : t) :
  opens_window now k rl →
  0 < lim_maxRequests (limits rl) →
  (isAllowed now k rl).2
  = {| allowed := true; remaining := lim_maxRequests (limits rl) - 1;
       resetAt := now + lim_windowMs (limits rl); retryAfter := None |}
  ∧ store (isAllowed now k rl).1 !! k
    = Some {| count := 1; resetTime := now + lim_windowMs (limits rl);
              violations := carried_violations (store rl !! k) |}.
Proof.
  intros Hopen Hmax. unfold opens_window in Hopen. unfold isAllowed.
  generalize dependent (limits rl). intros lim Hmax.
  assert (current_entry now lim (store rl !! k)
          = {| count := 0; resetTime := now + lim_windowMs lim;
               violations := carried_violations (store rl !! k) |}) as ->.
  { unfold current_entry. destruct (store rl !! k) as [e|]; [|done].
    by rewrite decide_True. }
  cbn. rewrite decide_False by lia. cbn. by rewrite lookup_insert_eq.
Qed.

(** X1: a key without a live window makes [n] calls, none later than
    the reset instant of the window the first one opens.  With a
    positive limit [max], exactly the first [min(n, max)] are allowed and
    the others are refused, and the entry counts one violation for each
    refusal on top of those it carried. *)
Theorem window_allows_first_max_calls (rl : t) (k : string) (t0 : Z)
    (ts : list Z) :
  opens_window t0 k rl →
  0 < lim_maxRequests (limits rl) →
  Forall (λ ti, ti <= t0 + lim_windowMs (limits rl)) ts →
  let n := S (length ts) in
  let a := (n `min` Z.to_nat (lim_maxRequests (limits rl)))%nat in
  allowed <$> (calls (t0 :: ts) k rl).2
  = replicate a true ++ replicate (n - a) false
  ∧ violations <$> store (calls (t0 :: ts) k rl).1 !! k
    = Some (carried_violations (store rl !! k) + Z.of_nat (n - a)).
Proof.
  intros Hopen Hmax Hts. cbn zeta.
  destruct (isAllowed_fresh t0 k rl Hopen Hmax) as [Hd Hk1].
  pose proof (isAllowed_limits t0 k rl) as Hlim.
  cbn [calls]. destruct (isAllowed t0 k rl) as [rl1 d1].
  cbn [fst snd] in Hd, Hk1, Hlim.
  destruct (calls_fill_window ts k rl1 _ Hk1) as [Hds Hk2];
    [done|cbn; rewrite Hlim; lia|].
  cbn [count resetTime violations] in Hds, Hk2. rewrite Hlim in Hds, Hk2.
  destruct (calls ts k rl1) as [rl2 ds]. cbn [fst snd] in *.
  assert (∃ r, Z.to_nat (lim_maxRequests (limits rl)) = S r
               ∧ Z.to_nat (lim_maxRequests (limits rl) - 1) = r)
    as (r & -> & Hr) by (eexists; split; [|reflexivity]; lia).
  rewrite Hr in Hds, Hk2. cbn [Nat.min Nat.sub replicate app].
  rewrite fmap_cons, Hds, Hk2, Hd. cbn.
  by replace (length ts - length ts `min` r)%nat
    with (length ts - r)%nat by lia.
Qed.

Lemma window_allows_first_max_calls_witness :
  allowed <$> (calls [5000; 5001; 5002; 5003] "10.0.0.1"
                 limiter_2_per_second).2
  = [true; true; false; false].
Proof.
  destruct (window_allows_first_max_calls limiter_2_per_second "10.0.0.1"
              5000 [5001; 5002; 5003]) as [H _].
  - exact I.
  - reflexivity.
  - repeat constructor; vm_compute; discriminate.
  - exact H.
Defined.

(** X2: once the window of a key has passed ([now > resetTime]) the
    next call opens a new one: it is allowed with [remaining = max - 1]
    and [resetTime = now + windowMs], the count restarts at 1, and the
    violations of the key are carried into the new window. *)
Theorem expired_window_restarts (rl : t) (k : string) (now : Z)
    (e : RateLimitEntry) :
  store rl !! k = Some e →
  now > resetTime e →
  0 < lim_maxRequests (limits rl) →
  (isAllowed now k rl).2
  = {| allowed := true; remaining := lim_maxRequests (limits rl) - 1;
       resetAt := now + lim_windowMs (limits rl); retryAfter := None |}
  ∧ store (isAllowed now k rl).1 !! k
    = Some {| count := 1; resetTime := now + lim_windowMs (limits rl);
              violations := violations e |}.
Proof.
  intros Hk Hnow Hmax.
  destruct (isAllowed_fresh now k rl) as [Hd Hk1]; [|done|].
  { unfold opens_window. by rewrite Hk. }
  by rewrite Hk, carried_violations_Some in Hk1.
Qed.

Lemma expired_window_restarts_witness :
  let rl := (calls [5000; 5001; 5002] "10.0.0.1" limiter_2_per_second).1 in
  (isAllowed 6001 "10.0.0.1" rl).2
  = {| allowed := true; remaining := 1; resetAt := 7001;
       retryAfter := None |}
  ∧ store (isAllowed 6001 "10.0.0.1" rl).1 !! "10.0.0.1"
    = Some {| count := 1; resetTime := 7001; violations := 1 |}.
Proof.
  cbn zeta.
  destruct (expired_window_restarts
              (calls [5000; 5001; 5002] "10.0.0.1" limiter_2_per_second).1
              "10.0.0.1" 6001
              {| count := 2; resetTime := 6000; violations := 1 |})
    as [H1 H2]; [reflexivity..|].
  split; [exact H1|exact H2].
Defined.

(** X3: [reset(k)] forgets the key, violations included: whatever the
    state, the next call for [k] is allowed with [remaining = max - 1] in
    a new window and stores no violation, and the other keys keep their
    entries. *)
Theorem reset_then_allowed (rl : t) (k : string) (now : Z) :
  0 < lim_maxRequests (limits rl) →
  (isAllowed now k (reset k rl)).2
  = {| allowed := true; remaining := lim_maxRequests (limits rl) - 1;
       resetAt := now + lim_windowMs (limits rl); retryAfter := None |}
  ∧ store (isAllowed now k (reset k rl)).1 !! k
    = Some {| count := 1; resetTime := now + lim_windowMs (limits rl);
              violations := 0 |}
  ∧ (∀ k', k' ≠ k → store (reset k rl) !! k' = store rl !! k').
Proof.
  intros Hmax.
  destruct (isAllowed_fresh now k (reset k rl)) as [Hd Hk1]; [|done|].
  { unfold opens_window. cbn. by rewrite lookup_delete_eq. }
  cbn [reset store] in Hk1. rewrite lookup_delete_eq in Hk1.
  split_and!; [done..|].
  intros k' Hne. cbn. by rewrite lookup_delete_ne.
Qed.

Lemma reset_then_allowed_witness :
  let rl := (calls [5000; 5001; 5002] "10.0.0.1" limiter_2_per_second).1 in
  (isAllowed 5003 "10.0.0.1" rl).2.(allowed) = false
  ∧ (isAllowed 5003 "10.0.0.1" (reset "10.0.0.1" rl)).2
    = {| allowed := true; remaining := 1; resetAt := 6003;
         retryAfter := None |}.
Proof.
  cbn zeta. split; [reflexivity|].
  destruct (reset_then_allowed
              (calls [5000; 5001; 5002] "10.0.0.1" limiter_2_per_second).1
              "10.0.0.1" 5003) as [H _]; [reflexivity|].
  exact H.
Defined.

(** X4: keys are independent: a call for one key leaves the entry of
    every other key as it was, so it changes nothing of what a later
    call for another key answers or stores. *)
Theorem isAllowed_other_key (rl : t) (k k' : string) (now now' : Z) :
  k ≠ k' →
  store (isAllowed now k rl).1 !! k' = store rl !! k'
  ∧ (isAllowed now' k' (isAllowed now k rl).1).2 = (isAllowed now' k' rl).2
  ∧ store (isAllowed now' k' (isAllowed now k rl).1).1 !! k'
    = store (isAllowed now' k' rl).1 !! k'.
Proof.
  intros Hne.
  assert (store (isAllowed now k rl).1 !! k' = store rl !! k') as Hframe.
  { unfold isAllowed. case_decide; cbn; by rewrite lookup_insert_ne. }
  pose proof (isAllowed_limits now k rl) as Hlim.
  split; [done|].
  unfold isAllowed at 1 3 4 6. rewrite Hframe, Hlim.
  split; case_decide; cbn; by rewrite ?lookup_insert_eq.
Qed.

Lemma isAllowed_other_key_witness :
  (isAllowed 5002 "10.0.0.2"
     (calls [5000; 5001; 5002] "10.0.0.1" limiter_2_per_second).1).2
  = (isAllowed 5002 "10.0.0.2" limiter_2_per_second).2.
Proof.
  pose proof (isAllowed_other_key
                (calls [5000; 5001] "10.0.0.1" limiter_2_per_second).1
                "10.0.0.1" "10.0.0.2" 5002 5002) as (_ & H & _).
  - discriminate.
  - etrans; [exact H|].
    pose proof (isAllowed_other_key
                  (calls [5000] "10.0.0.1" limiter_2_per_second).1
                  "10.0.0.1" "10.0.0.2" 5001 5002) as (_ & H1 & _);
      [discriminate|].
    etrans; [exact H1|].
    pose proof (isAllowed_other_key limiter_2_per_second
                  "10.0.0.1" "10.0.0.2" 5000 5002) as (_ & H2 & _);
      [discriminate|].
    exact H2.
Defined.

(** What a call answers and stores for its key is decided by the limits
    and by the entry it works on. *)
Lemma isAllowed_by_current_entry (now : Z) (k : string) (rl rl' : t) :
  limits rl' = limits rl →
  current_entry now (limits rl) (store rl' !! k)
  = current_entry now (limits rl) (store rl !! k) →
  (isAllowed now k rl').2 = (isAllowed now k rl).2
  ∧ store (isAllowed now k rl').1 !! k = store (isAllowed now k rl).1 !! k.
Proof.
  intros Hlim Hcur. unfold isAllowed. rewrite Hlim, Hcur.
  case_decide; cbn; by rewrite !lookup_insert_eq.
Qed.

Lemma cleanup_lookup (now : Z) (k : string) (rl : t) :
  store (cleanup now rl) !! k
  = e ← store rl !! k;
    if decide (now > resetTime e ∧ violations e = 0) then None else Some e.
Proof.
  cbn [cleanup store]. rewrite map_lookup_filter.
  destruct (store rl !! k) as [e|]; cbn; [|done].
  case_decide as H1; cbn in H1.
  - by rewrite option_guard_False by tauto.
  - by rewrite option_guard_True.
Qed.

(** X5: the sweep removes exactly the entries whose window has passed
    and that count no violation, and it cannot be observed through
    [isAllowed]: a call at or after the instant of the sweep answers and
    stores for its key what it would have without the sweep. *)
Theorem cleanup_removes_only_idle_entries (rl : t) (now : Z) (k : string) :
  store (cleanup now rl) !! k
  = (e ← store rl !! k;
     if decide (now > resetTime e ∧ violations e = 0) then None else Some e)
  ∧ (∀ now', now <= now' →
       (isAllowed now' k (cleanup now rl)).2 = (isAllowed now' k rl).2
       ∧ store (isAllowed now' k (cleanup now rl)).1 !! k
         = store (isAllowed now' k rl).1 !! k).
Proof.
  split; [apply cleanup_lookup|].
  intros now' Hnow'. apply isAllowed_by_current_entry; [done|].
  rewrite cleanup_lookup.
  destruct (store rl !! k) as [e|]; [|done].
  cbn [mbind option_bind].
  case_decide as Hidle; [|done]. destruct Hidle as [Hpast Hv].
  unfold current_entry. rewrite decide_True by lia.
  by rewrite carried_violations_Some, Hv.
Qed.

Lemma cleanup_removes_only_idle_entries_witness :
  let rl := (calls [5000; 5001] "10.0.0.1" limiter_2_per_second).1 in
  (isAllowed 7000 "10.0.0.1" (cleanup 6500 rl)).2
  = (isAllowed 7000 "10.0.0.1" rl).2.
Proof.
  cbn zeta.
  pose proof (cleanup_removes_only_idle_entries
                (calls [5000; 5001] "10.0.0.1" limiter_2_per_second).1
                6500 "10.0.0.1") as [_ H].
  destruct (H 7000) as [H1 _]; [lia|exact H1].
Defined.

Lemma step_limits (rl : t) (op : Op) : limits (step rl op) = limits rl.
Proof. destruct op; cbn; [apply isAllowed_limits|done..]. Qed.

Lemma run_snoc (ops : list Op) (op : Op) (rl : t) :
  run (ops ++ [op]) rl = step (run ops rl) op.
Proof. unfold run. by rewrite foldl_snoc. Qed.

Lemma run_limits (ops : list Op) (rl : t) : limits (run ops rl) = limits rl.
Proof.
  induction ops as [|op ops IH] using rev_ind; [done|].
  by rewrite run_snoc, step_limits.
Qed.

Lemma step_entries (P : RateLimitEntry → Prop) (rl : t) (op : Op) :
  (∀ now k e, store (isAllowed now k rl).1 !! k = Some e → P e) →
  (∀ k e, store rl !! k = Some e → P e) →
  ∀ k e, store (step rl op) !! k = Some e → P e.
Proof.
  intros Hnew Hold k e. destruct op as [now k0|now|k0|]; cbn [step].
  - destruct (decide (k0 = k)) as [->|Hne]; [apply Hnew|].
    intros He. apply (Hold k).
    revert He. unfold isAllowed. case_decide; cbn;
      by rewrite lookup_insert_ne.
  - rewrite cleanup_lookup. destruct (store rl !! k) as [e'|] eqn:Hk;
      cbn; [|done].
    case_decide; [done|]. intros [= <-]. eauto.
  - cbn. intros [_ He]%lookup_delete_Some. eauto.
  - cbn. by rewrite lookup_empty.
Qed.

(** The entry a call stores for its key, from an entry within bounds. *)
Lemma isAllowed_entry_bounds (now : Z) (k : string) (rl : t)
    (e : RateLimitEntry) :
  0 < lim_maxRequests (limits rl) →
  (∀ e0, store rl !! k = Some e0 →
         1 <= count e0 <= lim_maxRequests (limits rl) ∧ 0 <= violations e0) →
  store (isAllowed now k rl).1 !! k = Some e →
  1 <= count e <= lim_maxRequests (limits rl) ∧ 0 <= violations e.
Proof.
  intros Hmax Hold. unfold isAllowed.
  assert (0 <= count (current_entry now (limits rl) (store rl !! k))
               <= lim_maxRequests (limits rl)
          ∧ (count (current_entry now (limits rl) (store rl !! k)) = 0
             ∨ 1 <= count (current_entry now (limits rl) (store rl !! k)))
          ∧ 0 <= violations (current_entry now (limits rl) (store rl !! k)))
    as Hcur.
  { unfold current_entry. destruct (store rl !! k) as [e0|] eqn:Hk.
    - destruct (Hold e0 eq_refl) as [Hc Hv].
      case_decide; cbn [count violations]; [|lia].
      rewrite carried_violations_Some. lia.
    - cbn. lia. }
  generalize dependent (current_entry now (limits rl) (store rl !! k)).
  generalize dependent (limits rl). intros lim Hmax _ cur Hcur.
  case_decide; cbn; rewrite lookup_insert_eq; intros [= <-]; cbn; lia.
Qed.

(** X6: whatever calls a limiter with a positive limit [max] receives
    ([isAllowed], sweeps, resets, [destroy], in any order and at any
    instants), every stored entry has [1 <= count <= max] and no
    negative violation count, and every answer of [isAllowed] has
    [0 <= remaining <= max - 1], with [remaining = 0] when it refuses. *)
Theorem entries_stay_within_limit (cfg : AdvancedRateLimitOptions)
    (ops : list Op) :
  let rl := run ops (constructor cfg) in
  let max := lim_maxRequests (limits (constructor cfg)) in
  0 < max →
  (∀ k e, store rl !! k = Some e →
          1 <= count e <= max ∧ 0 <= violations e)
  ∧ (∀ now k,
       0 <= remaining (isAllowed now k rl).2 <= max - 1
       ∧ (allowed (isAllowed now k rl).2 = false →
          remaining (isAllowed now k rl).2 = 0)).
Proof.
  cbn zeta. intros Hmax.
  assert (∀ k e, store (run ops (constructor cfg)) !! k = Some e →
                 1 <= count e <= lim_maxRequests (limits (constructor cfg))
                 ∧ 0 <= violations e) as Hinv.
  { induction ops as [|op ops IH] using rev_ind.
    { intros k e. cbn. by rewrite lookup_empty. }
    rewrite run_snoc. apply step_entries; [|done].
    intros now k e He.
    pose proof (isAllowed_entry_bounds now k (run ops (constructor cfg)) e)
      as Hb.
    rewrite run_limits in Hb. apply Hb; [done| |done].
    intros e0 He0. by apply (IH k). }
  split; [done|].
  intros now k.
  pose proof (isAllowed_entry_bounds now k (run ops (constructor cfg))) as Hb.
  rewrite (run_limits ops (constructor cfg)) in Hb.
  specialize (λ e, Hb e Hmax (Hinv k)).
  revert Hb. unfold isAllowed. rewrite run_limits.
  generalize (current_entry now (limits (constructor cfg))
                (store (run ops (constructor cfg)) !! k)).
  generalize dependent (limits (constructor cfg)). intros lim Hmax _ cur.
  case_decide; cbn; rewrite lookup_insert_eq; intros Hb.
  - split; [lia|done].
  - specialize (Hb _ eq_refl). cbn in Hb. split; [lia|done].
Qed.

Lemma entries_stay_within_limit_witness :
  let rl := run [IsAllowed 5000 "a"; IsAllowed 5001 "a"; IsAllowed 5002 "a";
                 Cleanup 7000; IsAllowed 7001 "a"; Reset "a";
                 IsAllowed 7002 "a"]
              limiter_2_per_second in
  0 <= remaining (isAllowed 7003 "a" rl).2 <= 1.
Proof.
  cbn zeta.
  destruct (entries_stay_within_limit
              {| windowMs := Present (Some 1000); max := Absent;
                 maxRequests := Present (Some 2) |}
              [IsAllowed 5000 "a"; IsAllowed 5001 "a"; IsAllowed 5002 "a";
               Cleanup 7000; IsAllowed 7001 "a"; Reset "a";
               IsAllowed 7002 "a"]) as [_ H]; [reflexivity|].
  destruct (H 7003 "a") as [Hr _]. exact Hr.
Defined.

(** *** Statistics *)

Lemma sum_fold_insert (f : RateLimitEntry → Z) (k : string)
    (x : RateLimitEntry) (m : gmap string RateLimitEntry) :
  map_fold (λ _ e n, n + f e) 0 (<[k := x]> m)
  = map_fold (λ _ e n, n + f e) 0 m - from_option f 0 (m !! k) + f x.
Proof.
  destruct (m !! k) as [y|] eqn:Hk; cbn.
  - rewrite <- insert_delete_eq.
    rewrite map_fold_insert_L; [| intros; lia | apply lookup_delete_eq].
    rewrite (map_fold_delete_L _ _ k y m); [lia | intros; lia | done].
  - rewrite map_fold_insert_L; [lia | intros; lia | done].
Qed.

Lemma current_entry_violations (now : Z) (lim : Limits)
    (o : option RateLimitEntry) :
  violations (current_entry now lim o) = from_option violations 0 o.
Proof.
  unfold current_entry. destruct o as [e|]; [|done].
  case_decide; [|done]. cbn [violations]. apply carried_violations_Some.
Qed.

Lemma activeEntries_bounds (now : Z) (m : gmap string RateLimitEntry) :
  0 <= map_fold (λ _ entry n,
                   if decide (now <= resetTime entry) then n + 1 else n)
                0 m
    <= Z.of_nat (size m).
Proof.
  apply (map_fold_weak_ind
           (λ r (m : gmap string RateLimitEntry),
              0 <= r <= Z.of_nat (size m))).
  - rewrite map_size_empty. lia.
  - intros i x m' r Hi Hr. rewrite map_size_insert_None by done.
    case_decide; lia.
Qed.

(** X7: in the statistics, a refused call adds exactly one to
    [totalViolations] and an allowed call adds none (the violations of a
    key survive the restart of its window); [totalEntries] grows by one
    exactly when the key had no entry; [activeEntries] is never more
    than [totalEntries]; after [destroy] all three are 0. *)
Theorem getStats_counts (rl : t) (now now' : Z) (k : string) :
  totalViolations (getStats now' (isAllowed now k rl).1)
  = totalViolations (getStats now' rl)
    + (if allowed (isAllowed now k rl).2 then 0 else 1)
  ∧ totalEntries (getStats now' (isAllowed now k rl).1)
    = totalEntries (getStats now' rl)
      + (if store rl !! k is Some _ then 0 else 1)
  ∧ 0 <= activeEntries (getStats now' rl) <= totalEntries (getStats now' rl)
  ∧ getStats now' (destroy rl)
    = {| totalEntries := 0; activeEntries := 0; totalViolations := 0 |}.
Proof.
  split; [|split; [|split]].
  - unfold getStats, isAllowed. cbn [totalViolations].
    pose proof (current_entry_violations now (limits rl) (store rl !! k))
      as Hv.
    case_decide; cbn [fst snd store allowed];
      rewrite sum_fold_insert; cbn [violations]; lia.
  - unfold getStats, isAllowed. cbn [totalEntries].
    case_decide; cbn [fst store]; rewrite map_size_insert;
      destruct (store rl !! k); cbn; lia.
  - apply activeEntries_bounds.
  - reflexivity.
Qed.

End AdvancedRateLimiterExtra.

(** ** Security monitor: reset, removal, invariants of the state *)

Module SecurityMonitorExtra.
Import SecurityMonitor Scenarios SecurityMonitorProps.

Lemma monitor_run_snoc (ops : list Op) (op : Op) (m : t) :
  run (ops ++ [op]) m = step (run ops m) op.
Proof. unfold run. by rewrite foldl_snoc. Qed.

(** X8: [clear()] empties the log and resets the metrics to those of
    a new monitor: [totalEvents] is 0, every event type and every
    severity has the count 0, [recentEvents] and [topSources] are empty.
    It keeps the registered rules, the capacity and the notifications
    already sent, and forgets every cooldown: a rule that was cooling
    down fires on the very next event it listens to, if its condition
    then holds. *)
Theorem clear_resets_log_metrics_and_cooldowns (m : t) :
  events (clear m) = []
  ∧ (∀ limit, getRecentEvents limit (clear m) = [])
  ∧ totalEvents (getMetrics (clear m)) = 0
  ∧ sum_values (eventsByType (getMetrics (clear m))) = 0
  ∧ topSources (getMetrics (clear m)) = []
  ∧ threatRules (clear m) = threatRules m
  ∧ (∀ rid rule now event pre post m0 m1 fullEvent,
       rules_wf m →
       threatRules m = pre ++ (rid, rule) :: post →
       storeEvent now event (clear m) = (m0, Returns fullEvent) →
       checkThreatRules_loop now fullEvent pre m0 = (m1, Returns tt) →
       type fullEvent ∈ eventTypes rule →
       condition rule now (events m1) = Returns true →
       firings rid (record now event (clear m)) = firings rid m + 1
       ∧ lastRuleTrigger (record now event (clear m)) !! rid = Some now)
  ∧ (∀ ty, assoc_get ty (eventsByType (getMetrics (clear m))) = Some 0)
  ∧ (∀ sev, assoc_get sev (eventsBySeverity (getMetrics (clear m))) = Some 0)
  ∧ (eventsByType (getMetrics (clear m))).*1 = SecurityEventType_values
  ∧ (eventsBySeverity (getMetrics (clear m))).*1
    = [low; medium; high; critical]
  ∧ recentEvents (getMetrics (clear m)) = []
  ∧ (∀ rnd config,
       getMetrics (clear m) = getMetrics (constructor rnd config))
  ∧ lastRuleTrigger (clear m) = ∅
  ∧ maxEventsHistory (clear m) = maxEventsHistory m
  ∧ emitted (clear m) = emitted m.
Proof.
  split_and!; try done.
  - intros limit. unfold getRecentEvents, slice_from. cbn [clear events].
    by rewrite drop_nil.
  - intros rid rule now event pre post m0 m1 fullEvent
      Hwf Hsplit Hstore Hpre Hty Hcond.
    apply (record_fires (clear m) m0 m1 rid rule pre post now event
             fullEvent); try done.
  - intros ty. by destruct ty.
  - intros sev. by destruct sev.
  - intros rnd config. unfold getMetrics.
    by destruct (constructor_fresh rnd config) as (_ & -> & _).
Qed.

Lemma clear_resets_log_metrics_and_cooldowns_witness :
  firings "eager" (record 5001 (xss "6.6.6.6") monitor_eager_fired)
  = firings "eager" monitor_eager_fired
  ∧ firings "eager" (record 5001 (xss "6.6.6.6") (clear monitor_eager_fired))
    = firings "eager" monitor_eager_fired + 1.
Proof.
  split; [reflexivity|].
  destruct (clear_resets_log_metrics_and_cooldowns monitor_eager_fired)
    as (_ & _ & _ & _ & _ & _ & H & _).
  pose (st := storeEvent 5001 (xss "6.6.6.6") (clear monitor_eager_fired)).
  destruct (H "eager" eager_rule 5001 (xss "6.6.6.6")
              [("brute_force_detection", brute_force_detection);
               ("injection_attack_pattern", injection_attack_pattern);
               ("rate_limit_abuse", rate_limit_abuse)]
              [] st.1 st.1
              (fullEventOf "sec_5001_2" 5001 (xss "6.6.6.6")))
    as [Hf _].
  - split; apply (bool_decide_unpack _); vm_compute; exact I.
  - reflexivity.
  - reflexivity.
  - reflexivity.
  - apply (bool_decide_unpack _). vm_compute. exact I.
  - reflexivity.
  - exact Hf.
Defined.

(** X9: after [removeThreatRule(id)] no call of [recordEvent] fires a
    rule under that id: its firings stay what they were, it has no
    cooldown state and no entry in the rule map, whatever is recorded. *)
Theorem removed_rule_never_fires (m : t) (rid : string)
    (calls : list (Z * EventInput)) :
  rules_wf m →
  let m' := recordAll calls (removeThreatRule rid m) in
  firings rid m' = firings rid m
  ∧ lastRuleTrigger m' !! rid = None
  ∧ assoc_get rid (threatRules m') = None.
Proof.
  intros Hwf. cbn zeta.
  assert (∀ kv, kv ∈ threatRules (removeThreatRule rid m) →
                kv.1 ≠ rid ∧ kv.1 = rule_id kv.2) as Hkeys.
  { intros kv. cbn. unfold assoc_delete.
    intros [Hne Hkv]%list_elem_of_filter. split; [done|].
    destruct Hwf as [_ Hids]. rewrite Forall_forall in Hids. auto. }
  assert (assoc_get rid (threatRules (removeThreatRule rid m)) = None)
    as Hget.
  { destruct (assoc_get rid (threatRules (removeThreatRule rid m)))
      as [r|] eqn:Hr; [|done].
    apply assoc_get_elem_of, Hkeys in Hr. by destruct Hr. }
  induction calls as [|c calls IH] using rev_ind.
  { split_and!; [done| |done]. cbn. apply lookup_delete_eq. }
  destruct IH as (IHf & IHl & IHr). rewrite recordAll_snoc.
  assert (threatRules (recordAll calls (removeThreatRule rid m))
          = threatRules (removeThreatRule rid m)) as Hsame.
  { clear. induction calls as [|c calls IH] using rev_ind; [done|].
    by rewrite recordAll_snoc, record_threatRules. }
  rewrite record_threatRules. split_and!; [| |done].
  - rewrite <- IHf.
    apply (record_invariant
             (λ m', firings rid m'
                    = firings rid (recordAll calls (removeThreatRule rid m)))).
    intros m0 fullEvent Hrun.
    destruct (storeEvent_spec c.1 c.2
                (recordAll calls (removeThreatRule rid m)))
      as (eid & m0' & Hrun' & _ & _ & Hr & _ & Hem & _).
    cbn zeta in Hrun'. rewrite Hrun in Hrun'. injection Hrun' as <- ->.
    split; [|split].
    + unfold firings. by rewrite Hem.
    + intros kv m1 Hkv Hm1 _ _. rewrite Hr, Hsame in Hkv.
      destruct (Hkeys kv Hkv) as [Hne Hid].
      destruct (fire_other c.1 (fullEventOf eid c.1 c.2) kv rid m1 Hne Hid)
        as (_ & -> & _).
      done.
    + intros m1 Hm1. by rewrite emit_securityEvent_firings.
  - apply (record_invariant (λ m', lastRuleTrigger m' !! rid = None)).
    intros m0 fullEvent Hrun.
    destruct (storeEvent_spec c.1 c.2
                (recordAll calls (removeThreatRule rid m)))
      as (eid & m0' & Hrun' & _ & _ & Hr & Hl & _).
    cbn zeta in Hrun'. rewrite Hrun in Hrun'. injection Hrun' as <- ->.
    split; [by rewrite Hl|split; [|done]].
    intros kv m1 Hkv Hm1 _ _. rewrite Hr, Hsame in Hkv.
    destruct (Hkeys kv Hkv) as [Hne Hid].
    destruct (fire_other c.1 (fullEventOf eid c.1 c.2) kv rid m1 Hne Hid)
      as (-> & _).
    done.
Qed.

Lemma removed_rule_never_fires_witness :
  firings "eager"
    (recordAll [(7000, xss "6.6.6.6"); (9000, xss "6.6.6.6")]
       (removeThreatRule "eager" monitor_eager_fired))
  = firings "eager" monitor_eager_fired.
Proof.
  destruct (removed_rule_never_fires monitor_eager_fired "eager"
              [(7000, xss "6.6.6.6"); (9000, xss "6.6.6.6")]) as [H _].
  - split; apply (bool_decide_unpack _); vm_compute; exact I.
  - exact H.
Defined.

Lemma assoc_set_keys_mono {K V} `{EqDecision K} (k k' : K) (v : V)
    (m : list (K * V)) :
  k' = k ∨ k' ∈ m.*1 → k' ∈ (assoc_set k v m).*1.
Proof.
  intros [->|Hin].
  - apply (list_elem_of_fmap_2 fst (assoc_set k v m) (k, v)).
    apply assoc_get_elem_of, assoc_get_set_eq.
  - induction m as [|[k0 v0] m IH]; [by apply elem_of_nil in Hin|].
    cbn in Hin |- *. case_decide as Heq; cbn.
    + subst. apply elem_of_cons in Hin as [->|?]; [by left|by right].
    + apply elem_of_cons in Hin as [->|?]; [by left|right; auto].
Qed.

Lemma record_triggers_registered (now : Z) (event : EventInput) (m : t) :
  triggers_registered m → triggers_registered (record now event m).
Proof.
  intros Hm.
  apply (record_invariant
           (λ m', threatRules m' = threatRules m ∧ triggers_registered m')).
  intros m0 fullEvent Hrun.
  destruct (storeEvent_spec now event m)
    as (eid & m0' & Hrun' & _ & _ & Hr & Hl & _).
  cbn zeta in Hrun'. rewrite Hrun in Hrun'. injection Hrun' as <- ->.
  split; [|split].
  - split; [done|]. unfold triggers_registered. by rewrite Hr, Hl.
  - intros kv m1 Hkv [Hr1 Ht1] _ _.
    destruct (fire_spec now (fullEventOf eid now event) kv m1)
      as (? & ? & _ & _ & _ & _ & _ & _ & Hr2 & Hl2 & _).
    split; [congruence|]. unfold triggers_registered.
    rewrite Hr2, Hl2. intros rid. rewrite lookup_insert. case_decide.
    + subst. intros _. rewrite Hr1, <- Hr. by apply list_elem_of_fmap_2.
    + apply Ht1.
  - done.
Qed.

(** X10: in every state a monitor can reach (by [recordEvent],
    [addThreatRule], [removeThreatRule] and [clear], in any order), the
    rule map has distinct keys, each the id of its rule, and only
    registered ids have cooldown state: [lastRuleTrigger] never holds an
    id that is not in the rule map. *)
Theorem reachable_rule_state_is_consistent (rnd : nat → string)
    (config : Config) (ops : list Op) :
  rules_wf (run ops (constructor rnd config))
  ∧ triggers_registered (run ops (constructor rnd config)).
Proof.
  induction ops as [|op ops [IHwf IHt]] using rev_ind.
  { split; [apply constructor_wf|].
    intros rid. destruct (constructor_fresh rnd config) as (_ & _ & Hl & _).
    cbn. rewrite Hl, lookup_empty. by intros [? ?]. }
  rewrite monitor_run_snoc. destruct op as [now event|rule|rid0|]; cbn [step].
  - split; [|by apply record_triggers_registered].
    unfold rules_wf. by rewrite record_threatRules.
  - split; [by apply addThreatRule_wf|].
    intros rid Hrid. cbn in Hrid |- *.
    apply assoc_set_keys_mono. right. by apply IHt.
  - split; [by apply removeThreatRule_wf|].
    intros rid. cbn. unfold assoc_delete.
    rewrite lookup_delete_is_Some. intros [Hne Hsome].
    apply IHt in Hsome.
    apply list_elem_of_fmap in Hsome as ([k r] & -> & Hin).
    apply (list_elem_of_fmap_2 fst _ (k, r)).
    apply list_elem_of_filter. split; [|done]. cbn in *. congruence.
  - split; [done|]. intros rid. cbn. rewrite lookup_empty. by intros [? ?].
Qed.

(** The loop fires the rule registered under [rid] at most once. *)
Lemma loop_fires_once (now : Z) (event : SecurityEvent) (rid : string)
    (rules : list (string * ThreatDetectionRule)) (m : t) :
  NoDup rules.*1 →
  Forall (λ kv, kv.1 = rule_id kv.2) rules →
  firings rid m
  <= firings rid (checkThreatRules_loop now event rules m).1
  <= firings rid m + 1.
Proof.
  revert m. induction rules as [|[k r] rules IH]; intros m Hnd Hids.
  { cbn. lia. }
  rewrite fmap_cons in Hnd. apply NoDup_cons in Hnd as [Hk Hnd].
  apply Forall_cons in Hids as [Hid Hids]. cbn in Hid.
  rewrite loop_cons.
  destruct (checkThreatRule_cases now event k r m)
    as [[-> _]|[(err & -> & _)|(-> & _)]].
  - by apply IH.
  - cbn. lia.
  - destruct (decide (k = rid)) as [->|Hne].
    + destruct (fire_self now event rid r m Hid) as (_ & Hf & _).
      destruct (loop_others now event rid rules (fire now event (rid, r) m))
        as (_ & Hf' & _).
      { rewrite Forall_forall in Hids |- *. intros kv Hkv.
        split; [|auto]. intros Heq. apply Hk. cbn [fst]. rewrite <- Heq.
        by apply (list_elem_of_fmap_2 fst). }
      cbn zeta in Hf'. rewrite Hf', Hf. lia.
    + destruct (fire_other now event (k, r) rid m Hne Hid) as (_ & Hf & _).
      specialize (IH (fire now event (k, r) m) Hnd Hids). lia.
Qed.

(** X11: one call of [recordEvent] fires a given rule at most once,
    whatever the other rules do: the firings of an id grow by 0 or 1. *)
Theorem record_fires_each_rule_at_most_once (m : t) (now : Z)
    (event : EventInput) (rid : string) :
  rules_wf m →
  firings rid m <= firings rid (record now event m) <= firings rid m + 1.
Proof.
  intros [Hnd Hids]. unfold record. rewrite recordEvent_unfold.
  destruct (storeEvent_spec now event m)
    as (eid & m0 & Hrun & _ & _ & Hr & _ & Hem & _).
  cbn zeta in Hrun. rewrite Hrun.
  pose proof (loop_fires_once now (fullEventOf eid now event) rid
                (threatRules m0) m0) as Hloop.
  rewrite Hr in Hloop. specialize (Hloop Hnd Hids).
  assert (firings rid m0 = firings rid m) as Hf0
    by (unfold firings; by rewrite Hem).
  rewrite Hr.
  destruct (checkThreatRules_loop now (fullEventOf eid now event)
              (threatRules m) m0) as [m1 [[]|err]]; cbn [fst] in *.
  - rewrite emit_securityEvent_firings. lia.
  - lia.
Qed.

Lemma record_fires_each_rule_at_most_once_witness :
  firings "eager" monitor_eager
  <= firings "eager" (record 5000 (xss "6.6.6.6") monitor_eager)
  <= firings "eager" monitor_eager + 1.
Proof.
  apply record_fires_each_rule_at_most_once.
  split; apply (bool_decide_unpack _); vm_compute; exact I.
Defined.

(** *** Metrics against the log *)

Lemma assoc_get_incr_key {K} `{EqDecision K} (k k' : K) (m : list (K * Z)) :
  assoc_get k' (incr_key k m)
  = (λ v, if decide (k' = k) then v + 1 else v) <$> assoc_get k' m.
Proof.
  induction m as [|[k0 v0] m IH]; [done|].
  rewrite incr_key_cons. cbn [fst snd].
  destruct (decide (k0 = k)) as [->|Hne]; cbn [assoc_get].
  - destruct (decide (k = k')) as [->|Hne'].
    + cbn. by rewrite decide_True.
    + done.
  - destruct (decide (k0 = k')) as [->|Hne'].
    + cbn. by rewrite decide_False.
    + done.
Qed.

Lemma count_where_snoc {A} (P : A → Prop) `{∀ x, Decision (P x)}
    (l : list A) (x : A) :
  count_where P (l ++ [x])
  = count_where P l + (if decide (P x) then 1 else 0).
Proof.
  unfold count_where. rewrite filter_app, length_app, filter_cons.
  case_decide; cbn; lia.
Qed.

Lemma metrics_match_push (m m' : t) (e : SecurityEvent) :
  events m' = events m ++ [e] →
  metrics m' = updateMetrics e (metrics m) →
  metrics_match_log m → metrics_match_log m'.
Proof.
  intros He Hm (Hlen & Hty & Hsev). unfold metrics_match_log.
  rewrite He, Hm. cbn [updateMetrics totalEvents eventsByType
                        eventsBySeverity].
  split_and!.
  - rewrite length_app. cbn. lia.
  - intros ty. rewrite assoc_get_incr_key, Hty, count_where_snoc. cbn.
    f_equal. repeat case_decide; congruence || lia.
  - intros sev. rewrite assoc_get_incr_key, Hsev, count_where_snoc. cbn.
    f_equal. repeat case_decide; congruence || lia.
Qed.

Lemma record_match_log (now : Z) (event : EventInput) (m : t) :
  (totalEvents (metrics m) <= maxEventsHistory m → metrics_match_log m) →
  maxEventsHistory (record now event m) = maxEventsHistory m
  ∧ (totalEvents (metrics (record now event m)) <= maxEventsHistory m →
     metrics_match_log (record now event m)).
Proof.
  intros Hm.
  apply (record_invariant
           (λ m', maxEventsHistory m' = maxEventsHistory m
                  ∧ (totalEvents (metrics m') <= maxEventsHistory m →
                     metrics_match_log m'))).
  intros m0 fullEvent Hrun.
  destruct (storeEvent_spec now event m)
    as (eid & m0' & Hrun' & Hev & Hmet & _ & _ & _ & Hcap).
  cbn zeta in Hrun'. rewrite Hrun in Hrun'. injection Hrun' as <- ->.
  split; [|split].
  - split; [done|]. intros Htot.
    assert (totalEvents (metrics m0) = totalEvents (metrics m) + 1) as Hinc
      by (by rewrite Hmet).
    assert (metrics_match_log m) as Hmatch by (apply Hm; lia).
    apply (metrics_match_push m m0 (fullEventOf eid now event));
      [|done..].
    rewrite Hev, decide_False; [done|].
    destruct Hmatch as [Hlen _]. rewrite length_app. cbn. lia.
  - intros kv m1 _ [Hcap1 Hm1] _ _.
    destruct (fire_spec now (fullEventOf eid now event) kv m1)
      as (threat & ? & He1 & Hmet1 & _ & _ & _ & _ & _ & _ & Hcap2).
    split; [congruence|]. intros Htot.
    apply (metrics_match_push m1 _ threat); [done..|].
    apply Hm1. rewrite Hmet1 in Htot. cbn in Htot. lia.
  - done.
Qed.

Lemma initial_match_log (rnd : nat → string) (config : Config) :
  metrics_match_log (constructor rnd config).
Proof.
  destruct (constructor_fresh rnd config) as (He & Hm & _).
  unfold metrics_match_log. rewrite He, Hm.
  split_and!; [done| |]; intros x; by destruct x.
Qed.

(** X12: as long as [totalEvents] has not passed [maxEventsHistory], the
    metrics of a monitor are those of its log: [totalEvents] is the
    number of events the log holds, and [eventsByType] and
    [eventsBySeverity] give for each type and severity the number of
    logged events that have it. *)
Theorem metrics_are_those_of_the_log (rnd : nat → string) (config : Config)
    (calls : list (Z * EventInput)) :
  let m := recordAll calls (constructor rnd config) in
  totalEvents (getMetrics m) <= maxEventsHistory m →
  metrics_match_log m.
Proof.
  cbn zeta. unfold getMetrics.
  assert (maxEventsHistory (recordAll calls (constructor rnd config))
          = maxEventsHistory (constructor rnd config)
          ∧ (totalEvents (metrics (recordAll calls (constructor rnd config)))
             <= maxEventsHistory (constructor rnd config) →
             metrics_match_log (recordAll calls (constructor rnd config))))
    as [Hcap H].
  { induction calls as [|c calls [IHcap IH]] using rev_ind.
    { split; [done|]. intros _. apply initial_match_log. }
    rewrite recordAll_snoc.
    destruct (record_match_log c.1 c.2
                (recordAll calls (constructor rnd config))) as [Hc Hm].
    { by rewrite IHcap. }
    rewrite IHcap in Hc, Hm. done. }
  rewrite Hcap. done.
Qed.

Lemma metrics_are_those_of_the_log_witness :
  metrics_match_log (recordAll five_auth_failures monitor_default).
Proof.
  apply (metrics_are_those_of_the_log (λ n, pretty n)
           {| cfg_maxEventsHistory := None; threatDetectionRules := None |}
           five_auth_failures).
  vm_compute. discriminate.
Defined.

(** *** Recent events of the metrics *)

Lemma shift_suffix {A} (l : list A) : shift l `suffix_of` l.
Proof. destruct l; [done|]. by apply suffix_cons_r. Qed.

Lemma recent_push {A} (all : list A) (e : A) :
  (let r := drop (length all - 10) all ++ [e] in
   if decide (Z.of_nat (length r) > 10) then shift r else r)
  = drop (length (all ++ [e]) - 10) (all ++ [e]).
Proof.
  cbn zeta. rewrite !length_app, length_drop. cbn [length].
  destruct (decide (length all < 10)%nat) as [Hlt|Hge].
  - rewrite decide_False by lia.
    replace (length all - 10)%nat with 0%nat by lia.
    by replace (length all + 1 - 10)%nat with 0%nat by lia.
  - rewrite decide_True by lia.
    replace (length all + 1 - 10)%nat with (length all - 10 + 1)%nat by lia.
    rewrite <- drop_drop, drop_app_le by lia.
    by destruct (drop (length all - 10) all ++ [e]).
Qed.

(** What the log and the recent events of the metrics are, in terms of
    the list [all] of the events stored since the construction. *)
Lemma record_recent (now : Z) (event : EventInput) (m : t)
    (all : list SecurityEvent) :
  events m `suffix_of` all →
  recentEvents (metrics m) = drop (length all - 10) all →
  Z.of_nat (length all) = totalEvents (metrics m) →
  ∃ all',
    events (record now event m) `suffix_of` all'
    ∧ recentEvents (metrics (record now event m))
      = drop (length all' - 10) all'
    ∧ Z.of_nat (length all') = totalEvents (metrics (record now event m)).
Proof.
  intros Hev Hrec Hlen.
  apply (record_invariant
           (λ m', ∃ all',
              events m' `suffix_of` all'
              ∧ recentEvents (metrics m') = drop (length all' - 10) all'
              ∧ Z.of_nat (length all') = totalEvents (metrics m'))).
  intros m0 fullEvent Hrun.
  destruct (storeEvent_spec now event m)
    as (eid & m0' & Hrun' & Hev0 & Hmet & _).
  cbn zeta in Hrun'. rewrite Hrun in Hrun'. injection Hrun' as <- ->.
  split; [|split].
  - exists (all ++ [fullEventOf eid now event]). split_and!.
    + rewrite Hev0. case_decide.
      * etrans; [apply shift_suffix|]. by apply suffix_app.
      * by apply suffix_app.
    + rewrite Hmet. cbn [updateMetrics recentEvents].
      rewrite Hrec. apply recent_push.
    + rewrite Hmet, length_app. cbn. lia.
  - intros kv m1 _ (all1 & Hev1 & Hrec1 & Hlen1) _ _.
    destruct (fire_spec now (fullEventOf eid now event) kv m1)
      as (threat & ? & He1 & Hmet1 & _).
    exists (all1 ++ [threat]). split_and!.
    + rewrite He1. by apply suffix_app.
    + rewrite Hmet1. cbn [updateMetrics recentEvents].
      rewrite Hrec1. apply recent_push.
    + rewrite Hmet1, length_app. cbn. lia.
  - done.
Qed.

(** X13: after any calls on a fresh monitor, [recentEvents] of the
    metrics holds the last [min(10, totalEvents)] events stored, oldest
    first.  It and the log are two ends of the same sequence: the
    shorter is a suffix of the longer (the log is the shorter one when
    [maxEventsHistory] is under 10). *)
Theorem recentEvents_are_the_last_ten (rnd : nat → string) (config : Config)
    (calls : list (Z * EventInput)) :
  let m := recordAll calls (constructor rnd config) in
  let recent := recentEvents (getMetrics m) in
  Z.of_nat (length recent) = Z.min 10 (totalEvents (getMetrics m))
  ∧ (recent `suffix_of` events m ∨ events m `suffix_of` recent).
Proof.
  cbn zeta. unfold getMetrics.
  assert (∃ all,
            events (recordAll calls (constructor rnd config)) `suffix_of` all
            ∧ recentEvents (metrics (recordAll calls (constructor rnd config)))
              = drop (length all - 10) all
            ∧ Z.of_nat (length all)
              = totalEvents
                  (metrics (recordAll calls (constructor rnd config))))
    as (all & Hev & Hrec & Hlen).
  { induction calls as [|c calls (all & Hev & Hrec & Hlen)] using rev_ind.
    { exists []. destruct (constructor_fresh rnd config) as (He & Hm & _).
      unfold recordAll. cbn [foldl]. by rewrite He, Hm. }
    rewrite recordAll_snoc. by apply (record_recent _ _ _ all). }
  split.
  - rewrite Hrec, length_drop. lia.
  - apply (suffix_weak_total _ _ all); [|done].
    rewrite Hrec. apply suffix_drop.
Qed.

(** *** Timestamps *)

Lemma fire_timestamp (now : Z) (trigger : SecurityEvent)
    (kv : string * ThreatDetectionRule) (m : t) :
  ∃ threat,
    events (fire now trigger kv m) = events m ++ [threat]
    ∧ timestamp threat = now.
Proof.
  unfold fire, handleThreatDetection, bind, modify, ret, generateEventId.
  destruct (action kv.2); cbn; eexists; split; reflexivity.
Qed.

Lemma sorted_snoc (l : list Z) (x : Z) :
  StronglySorted Z.le l → Forall (λ y, y <= x) l →
  StronglySorted Z.le (l ++ [x]).
Proof.
  intros Hl Hx. apply StronglySorted_app. split_and!; [|done|].
  - intros y z Hy ->%list_elem_of_singleton.
    rewrite Forall_forall in Hx. auto.
  - repeat constructor.
Qed.

Lemma record_timestamps (now : Z) (event : EventInput) (m : t) :
  StronglySorted Z.le (timestamp <$> events m) →
  Forall (λ e, timestamp e <= default now (in_timestamp event)) (events m) →
  default now (in_timestamp event) <= now →
  StronglySorted Z.le (timestamp <$> events (record now event m))
  ∧ Forall (λ e, timestamp e <= now) (events (record now event m)).
Proof.
  intros Hs Hb Hle.
  assert (∀ x evs e,
            StronglySorted Z.le (timestamp <$> evs) →
            Forall (λ e, timestamp e <= x) evs → timestamp e = x →
            StronglySorted Z.le (timestamp <$> (evs ++ [e]))
            ∧ Forall (λ e, timestamp e <= x) (evs ++ [e])) as Hpush.
  { intros x evs e Hs' Hb' He. split.
    - rewrite fmap_app. cbn. apply sorted_snoc; [done|].
      rewrite Forall_fmap. eapply Forall_impl; [exact Hb'|].
      cbn. intros; lia.
    - apply Forall_app. split; [done|]. repeat constructor. lia. }
  apply (record_invariant
           (λ m', StronglySorted Z.le (timestamp <$> events m')
                  ∧ Forall (λ e, timestamp e <= now) (events m'))).
  intros m0 fullEvent Hrun.
  destruct (storeEvent_spec now event m) as (eid & m0' & Hrun' & Hev & _).
  cbn zeta in Hrun'. rewrite Hrun in Hrun'. injection Hrun' as <- ->.
  split; [|split].
  - destruct (Hpush (default now (in_timestamp event)) (events m)
                (fullEventOf eid now event)) as [Hs1 Hb1];
      [done..|].
    assert (Forall (λ e, timestamp e <= now)
              (events m ++ [fullEventOf eid now event])) as Hb2.
    { eapply Forall_impl; [exact Hb1|]. cbn. intros; lia. }
    rewrite Hev. case_decide; [|done].
    destruct (events m ++ [fullEventOf eid now event]) as [|e0 l]; [done|].
    cbn [shift tail]. rewrite fmap_cons in Hs1.
    apply StronglySorted_cons in Hs1 as [_ Hs1].
    apply Forall_cons in Hb2 as [_ Hb2]. done.
  - intros kv m1 _ [Hs1 Hb1] _ _.
    destruct (fire_timestamp now (fullEventOf eid now event) kv m1)
      as (threat & -> & Hts).
    by apply Hpush.
  - done.
Qed.

(** An argument that carries an old timestamp puts it behind newer ones
    in the log, whatever the clock reads. *)
Lemma carried_timestamp_breaks_order :
  timestamp <$> events (recordAll [(2000, xss "A"); (3000, stamped 1000 "A")]
                          monitor_default)
  = [2000; 1000].
Proof. vm_compute. reflexivity. Qed.

(** X14: the timestamp of a recorded event is the one its argument
    carries, or else the clock, and that of a synthetic event is the
    clock.  When these never go back from one to the next over the
    calls (for arguments that carry no timestamp: when the clock never
    goes back), the events, recorded and synthetic, are in the log in
    non-decreasing order of timestamp. *)
Theorem log_timestamps_non_decreasing (rnd : nat → string) (config : Config)
    (calls : list (Z * EventInput)) :
  StronglySorted Z.le (calls ≫= stamps) →
  StronglySorted Z.le
    (timestamp <$> events (recordAll calls (constructor rnd config))).
Proof.
  intros Hcalls.
  assert (StronglySorted Z.le
            (timestamp <$> events (recordAll calls (constructor rnd config)))
          ∧ ∀ bound, Forall (λ x, x <= bound) (calls ≫= stamps) →
              Forall (λ e, timestamp e <= bound)
                (events (recordAll calls (constructor rnd config))))
    as [H _]; [|done].
  induction calls as [|c calls IH] using rev_ind.
  { destruct (constructor_fresh rnd config) as (He & _).
    unfold recordAll. cbn [foldl]. rewrite He. split; [constructor|done]. }
  rewrite bind_app in Hcalls. cbn in Hcalls.
  apply StronglySorted_app in Hcalls as (Hle & Hcalls & Hc).
  apply StronglySorted_cons in Hc as [Hc _].
  apply Forall_cons in Hc as [Hc _].
  destruct (IH Hcalls) as [IHs IHb].
  rewrite recordAll_snoc.
  destruct (record_timestamps c.1 c.2
              (recordAll calls (constructor rnd config))) as [Hs Hb];
    [done| |done|].
  { apply IHb. rewrite Forall_forall. intros x Hx.
    apply (Hle x _ Hx). by left. }
  split; [done|].
  intros bound Hbound. rewrite bind_app in Hbound. cbn in Hbound.
  apply Forall_app in Hbound as [_ Hb'].
  apply Forall_cons in Hb' as [_ Hb']. apply Forall_cons in Hb' as [Hb' _].
  eapply Forall_impl; [exact Hb|]. cbn. intros; lia.
Qed.

Lemma log_timestamps_non_decreasing_witness :
  StronglySorted Z.le
    (timestamp <$> events (recordAll (five_auth_failures
                                        ++ [(3000, stamped 2500 "A")])
                             monitor_default)).
Proof.
  apply (log_timestamps_non_decreasing (λ n, pretty n)
           {| cfg_maxEventsHistory := None; threatDetectionRules := None |}
           (five_auth_failures ++ [(3000, stamped 2500 "A")])).
  apply (bool_decide_unpack _). vm_compute. exact I.
Defined.

(** *** Filtered reads *)

Lemma slice_last {A} (limit : Z) (l : list A) :
  0 < limit →
  slice_from (- limit) l `suffix_of` l
  ∧ Z.of_nat (length (slice_from (- limit) l))
    = Z.min limit (Z.of_nat (length l)).
Proof.
  intros Hlimit. unfold slice_from. rewrite decide_True by lia. split.
  - apply suffix_drop.
  - rewrite length_drop. lia.
Qed.

Lemma Forall_suffix {A} (P : A → Prop) (l1 l2 : list A) :
  l1 `suffix_of` l2 → Forall P l2 → Forall P l1.
Proof. intros [k ->] H. by apply Forall_app in H as [_ ?]. Qed.

Lemma Forall_filter_holds {A} (P : A → Prop) `{∀ x, Decision (P x)}
    (l : list A) :
  Forall P (filter P l).
Proof. apply Forall_forall. by intros x [? _]%list_elem_of_filter. Qed.

(** X15: for a strictly positive [limit], [getEventsByType] returns the
    last [min(limit, n)] of the [n] logged events of the type, in log
    order, and nothing else; [getEventsBySeverity] does the same for a
    severity. *)
Theorem filtered_reads_return_last_matches (m : t) (limit : Z) :
  0 < limit →
  (∀ ty,
     let r := getEventsByType ty (Some limit) m in
     r `suffix_of` filter (λ e, type e = ty) (events m)
     ∧ Forall (λ e, type e = ty ∧ e ∈ events m) r
     ∧ Z.of_nat (length r)
       = Z.min limit (count_where (λ e, type e = ty) (events m)))
  ∧ (∀ sev,
       let r := getEventsBySeverity sev (Some limit) m in
       r `suffix_of` filter (λ e, severity e = sev) (events m)
       ∧ Forall (λ e, severity e = sev ∧ e ∈ events m) r
       ∧ Z.of_nat (length r)
         = Z.min limit (count_where (λ e, severity e = sev) (events m))).
Proof.
  intros Hlimit.
  split; intros x; cbn zeta;
    unfold getEventsByType, getEventsBySeverity, default;
    cbn [from_option]; unfold Datatypes.id;
    match goal with
    | |- context [slice_from _ (filter ?P ?l)] =>
        destruct (slice_last limit (filter P l) Hlimit) as [Hsuf Hlen]
    end;
    (split_and!; [done| |done]);
    (eapply Forall_suffix; [exact Hsuf|]);
    apply Forall_forall; intros e [? ?]%list_elem_of_filter; done.
Qed.

Lemma filtered_reads_return_last_matches_witness :
  let m := recordAll five_auth_failures monitor_default in
  Z.of_nat (length (getEventsByType AUTHENTICATION_FAILURE (Some 3) m))
  = Z.min 3 (count_where (λ e, type e = AUTHENTICATION_FAILURE) (events m)).
Proof.
  cbn zeta.
  destruct (filtered_reads_return_last_matches
              (recordAll five_auth_failures monitor_default) 3) as [H _];
    [reflexivity|].
  destruct (H AUTHENTICATION_FAILURE) as (_ & _ & Hlen). exact Hlen.
Defined.

(** *** The default rules *)

Lemma tally_at_least {K} `{EqDecision K} (n : Z) (keys : list K) :
  0 < n →
  Exists (λ kc : K * Z, kc.2 >= n) (tally keys)
  ↔ ∃ k, Z.of_nat (length (filter (λ k', k' = k) keys)) >= n.
Proof.
  intros Hn.
  pose proof (tally_from_NoDup keys [] (NoDup_nil_2)) as Hnd.
  fold (tally keys) in Hnd.
  rewrite Exists_exists. split.
  - intros ([k c] & Hin & Hc). cbn in Hc. exists k.
    pose proof (tally_from_get k keys []) as Hget.
    fold (tally keys) in Hget. cbn [assoc_get default] in Hget.
    apply (assoc_get_unique _ _ _ Hnd) in Hin. rewrite Hin in Hget.
    case_decide; [done|]. injection Hget as ->. lia.
  - intros [k Hk].
    pose proof (tally_from_get k keys []) as Hget.
    fold (tally keys) in Hget. cbn [assoc_get default] in Hget.
    case_decide as Hnil.
    { rewrite Hnil in Hk. cbn in Hk. lia. }
    apply assoc_get_elem_of in Hget. eexists. split; [exact Hget|].
    cbn. lia.
Qed.

Lemma some_source_at_least_spec (n : Z) (P : SecurityEvent → Prop)
    `{∀ e, Decision (P e)} (evs : list SecurityEvent) :
  0 < n →
  some_source_at_least n (filter P evs) = true
  ↔ ∃ src, count_where (λ e, source e = src ∧ P e) evs >= n.
Proof.
  intros Hn. unfold some_source_at_least.
  rewrite bool_decide_eq_true, tally_at_least by done.
  unfold count_where.
  split; intros [src Hsrc]; exists src;
    by rewrite filter_fmap_length, list_filter_filter in *.
Qed.

(** X16: the conditions of the three default rules never throw, and
    return true exactly in these cases.  Brute force: some source has at
    least 5 authentication failures in the history less than 300000 ms
    old.  Rate-limit abuse: some source has at least 10
    rate-limit-exceeded events less than 3600000 ms old.  Injection: the
    history has at least 3 SQL-injection attempts less than 600000 ms
    old, whatever their sources. *)
Theorem default_rule_conditions (now : Z) (evs : list SecurityEvent) :
  (∃ b1 b2 b3,
     condition brute_force_detection now evs = Returns b1
     ∧ condition rate_limit_abuse now evs = Returns b2
     ∧ condition injection_attack_pattern now evs = Returns b3)
  ∧ (condition brute_force_detection now evs = Returns true
     ↔ ∃ src,
         count_where
           (λ e, source e = src ∧ type e = AUTHENTICATION_FAILURE
                 ∧ now - timestamp e < 300000) evs >= 5)
  ∧ (condition rate_limit_abuse now evs = Returns true
     ↔ ∃ src,
         count_where
           (λ e, source e = src ∧ type e = RATE_LIMIT_EXCEEDED
                 ∧ now - timestamp e < 3600000) evs >= 10)
  ∧ (condition injection_attack_pattern now evs = Returns true
     ↔ count_where
         (λ e, type e = SQL_INJECTION_ATTEMPT ∧ now - timestamp e < 600000)
         evs >= 3).
Proof.
  split_and!.
  - eexists _, _, _. split_and!; reflexivity.
  - cbn [condition brute_force_detection].
    rewrite <- some_source_at_least_spec by lia.
    split; [intros [= Hb]; exact Hb|intros Hb; by rewrite Hb].
  - cbn [condition rate_limit_abuse].
    rewrite <- some_source_at_least_spec by lia.
    split; [intros [= Hb]; exact Hb|intros Hb; by rewrite Hb].
  - cbn [condition injection_attack_pattern]. unfold count_where.
    split.
    + intros [= Hb]. by apply bool_decide_eq_true in Hb.
    + intros Hb. by rewrite bool_decide_true.
Qed.

Lemma recordAll_threatRules (calls : list (Z * EventInput)) (m : t) :
  threatRules (recordAll calls m) = threatRules m.
Proof.
  induction calls as [|c calls IH] using rev_ind; [done|].
  by rewrite recordAll_snoc, record_threatRules.
Qed.

(** A rule whose action is [block] notifies [threatDetected], then
    [blockRequest] for the source of the triggering event. *)
Lemma fire_block (now : Z) (trigger : SecurityEvent)
    (kv : string * ThreatDetectionRule) (m : t) :
  action kv.2 = block →
  ∃ threat,
    emitted (fire now trigger kv m)
    = emitted m ++ [threatDetected kv.2 trigger threat;
                    blockRequest (source trigger) kv.2].
Proof.
  intros Hblock.
  unfold fire, handleThreatDetection, bind, modify, ret, generateEventId.
  rewrite Hblock. cbn. eexists. by rewrite <- !app_assoc.
Qed.

Lemma loop_skip (now : Z) (event : SecurityEvent) (rid : string)
    (rule : ThreatDetectionRule) (rest : list (string * ThreatDetectionRule))
    (m : t) :
  type event ∉ eventTypes rule →
  checkThreatRules_loop now event ((rid, rule) :: rest) m
  = checkThreatRules_loop now event rest m.
Proof.
  intros Hty. by rewrite loop_cons, checkThreatRule_eq, bool_decide_false.
Qed.

(** X17: on a monitor built without custom rules, a call that records
    an authentication failure while [brute_force_detection] is not
    cooling down fires that rule exactly when, with the new event
    stored, some source has at least 5 authentication failures less than
    300000 ms old.  When it fires, the cooldown starts at the instant of
    the call and [blockRequest] names the source of the recorded event;
    when it does not, the call emits one [securityEvent] and nothing
    else. *)
Theorem brute_force_fires_exactly_when (rnd : nat → string)
    (cap : option Z) (calls : list (Z * EventInput)) (now : Z)
    (event : EventInput) :
  let m :=
    recordAll calls
      (constructor rnd {| cfg_maxEventsHistory := cap;
                          threatDetectionRules := None |}) in
  let offending :=
    ∃ src,
      count_where
        (λ e, source e = src ∧ type e = AUTHENTICATION_FAILURE
              ∧ now - timestamp e < 300000)
        (events (storeEvent now event m).1) >= 5 in
  in_type event = AUTHENTICATION_FAILURE →
  in_cooldown now (lastRuleTrigger m !! "brute_force_detection")
    brute_force_detection = false →
  (offending →
     firings "brute_force_detection" (record now event m)
     = firings "brute_force_detection" m + 1
     ∧ lastRuleTrigger (record now event m) !! "brute_force_detection"
       = Some now
     ∧ blockRequest (in_source event) brute_force_detection
       ∈ emitted (record now event m))
  ∧ (¬ offending →
       (∃ fullEvent,
          emitted (record now event m)
          = emitted m ++ [securityEvent fullEvent])
       ∧ lastRuleTrigger (record now event m) = lastRuleTrigger m).
Proof.
  cbn zeta. intros Hty Hcd.
  set (m := recordAll calls _) in *.
  assert (threatRules m
          = [("brute_force_detection", brute_force_detection);
             ("injection_attack_pattern", injection_attack_pattern);
             ("rate_limit_abuse", rate_limit_abuse)]) as Hrules.
  { unfold m. by rewrite recordAll_threatRules. }
  destruct (storeEvent_spec now event m)
    as (eid & m0 & Hstore & _ & _ & Hr & Hl & Hem & _).
  cbn zeta in Hstore. rewrite Hstore. cbn [fst].
  assert (type (fullEventOf eid now event) = AUTHENTICATION_FAILURE)
    as Hty' by done.
  assert (record now event m
          = emit (securityEvent (fullEventOf eid now event))
              (checkThreatRule now (fullEventOf eid now event)
                 "brute_force_detection" brute_force_detection m0).1)
    as Hrec.
  { unfold record. rewrite recordEvent_unfold, Hstore, Hr, Hrules.
    rewrite loop_cons.
    destruct (checkThreatRule now (fullEventOf eid now event)
                "brute_force_detection" brute_force_detection m0)
      as [m1 [[]|err]] eqn:Hstep.
    - rewrite !loop_skip; [done| |];
        rewrite Hty'; by intros ?%list_elem_of_singleton.
    - rewrite checkThreatRule_eq, Hl, Hcd in Hstep.
      cbn [condition brute_force_detection] in Hstep.
      destruct (bool_decide _); [destruct (some_source_at_least _ _)|];
        discriminate. }
  rewrite Hrec, checkThreatRule_eq, Hty', Hl, Hcd.
  rewrite bool_decide_true by (by apply list_elem_of_singleton).
  cbn [condition brute_force_detection].
  pose proof (some_source_at_least_spec 5
                (λ e, type e = AUTHENTICATION_FAILURE
                      ∧ now - timestamp e < 300000) (events m0)) as Hspec.
  split.
  - intros Hoff. rewrite (proj2 (Hspec ltac:(lia)) Hoff). cbn [fst].
    destruct (fire_self now (fullEventOf eid now event)
                "brute_force_detection" brute_force_detection m0 eq_refl)
      as (Hl1 & Hf1 & _).
    destruct (fire_block now (fullEventOf eid now event)
                ("brute_force_detection", brute_force_detection) m0 eq_refl)
      as (threat & Hem1).
    rewrite emit_securityEvent_firings. cbn [emit lastRuleTrigger emitted].
    rewrite Hl1, Hf1, Hem1. unfold firings. rewrite Hem.
    split_and!; [done..|].
    rewrite !elem_of_app. left. right. right. by left.
  - intros Hoff.
    destruct (some_source_at_least 5 _) eqn:Hb.
    { destruct Hoff. by apply Hspec. }
    cbn [fst emit emitted lastRuleTrigger]. rewrite Hem, Hl.
    split; [by eexists|done].
Qed.

Lemma brute_force_fires_exactly_when_witness :
  let m := recordAll four_auth_failures monitor_default in
  firings "brute_force_detection"
    (record 1004 (input AUTHENTICATION_FAILURE medium "1.2.3.4") m)
  = firings "brute_force_detection" m + 1.
Proof.
  cbn zeta.
  destruct (brute_force_fires_exactly_when (λ n, pretty n) None
              four_auth_failures 1004
              (input AUTHENTICATION_FAILURE medium "1.2.3.4"))
    as [H _].
  - reflexivity.
  - vm_compute. reflexivity.
  - destruct H as (Hf & _).
    + exists "1.2.3.4". vm_compute. discriminate.
    + exact Hf.
Defined.

(** *** Reports *)

Lemma sort_insert_Permutation {A} (cmp : A → A → Z) (x : A) (l : list A) :
  sort_insert cmp x l ≡ₚ x :: l.
Proof.
  induction l as [|y l IH]; cbn; [done|].
  case_decide; [done|]. rewrite IH. apply Permutation_swap.
Qed.

Lemma js_sort_Permutation {A} (cmp : A → A → Z) (l : list A) :
  js_sort cmp l ≡ₚ l.
Proof.
  induction l as [|x l IH]; [done|].
  cbn [js_sort foldr]. fold (js_sort cmp l).
  by rewrite sort_insert_Permutation, IH.
Qed.

Lemma js_sort_sorted_by {A} (key : A → Z) (l : list A) :
  StronglySorted (λ a b, key a >= key b)
    (js_sort (λ a b, key b - key a) l).
Proof.
  induction l as [|x l IH]; [constructor|].
  cbn [js_sort foldr]. fold (js_sort (λ a b, key b - key a) l).
  generalize dependent (js_sort (λ a b, key b - key a) l). clear l.
  intros s Hs. induction s as [|y s IHs]; cbn.
  - by repeat constructor.
  - apply StronglySorted_cons in Hs as [Hy Hs]. case_decide as Hcmp.
    + apply StronglySorted_cons. split.
      * constructor; [lia|].
        eapply Forall_impl; [exact Hy|]. cbn. intros; lia.
      * by apply StronglySorted_cons.
    + apply StronglySorted_cons. split; [|auto].
      apply Forall_sort_insert; [lia|done].
Qed.

Lemma count_exclusive {A} (P Q : A → Prop) `{∀ x, Decision (P x)}
    `{∀ x, Decision (Q x)} (l : list A) :
  (∀ x, P x → Q x → False) →
  count_where P l + count_where Q l <= Z.of_nat (length l).
Proof.
  intros Hex. unfold count_where.
  induction l as [|x l IH]; [done|].
  rewrite !filter_cons. cbn [length].
  destruct (decide (P x)), (decide (Q x)); cbn [length];
    try lia. exfalso. eauto.
Qed.

Lemma remove_dups_length `{EqDecision A} (l : list A) :
  (length (remove_dups l) ≤ length l)%nat.
Proof.
  induction l as [|x l IH]; cbn; [done|].
  destruct (decide_rel _ _ _); cbn; lia.
Qed.

Lemma getEventsInRange_empty (startTime endTime : Z) (m : t) :
  endTime < startTime → getEventsInRange startTime endTime m = [].
Proof.
  intros Hlt. unfold getEventsInRange.
  induction (events m) as [|e l IH]; [done|].
  rewrite filter_cons, decide_False by lia. done.
Qed.

(** X18: in a report, the summary counts the events of the range:
    critical and high events together are no more than the total, and
    the number of distinct sources is between 0 and the total and is 0
    only for an empty range.  [topThreats] has at most 10 entries, of
    distinct types, in descending order of count, each with the exact
    positive number of events of its type in the range.  A range whose
    end is before its start gives the empty report. *)
Theorem report_counts_the_range (m : t) (startTime endTime : Z) :
  let r := generateReport startTime endTime m in
  let evs := getEventsInRange startTime endTime m in
  sum_totalEvents (summary r) = Z.of_nat (length evs)
  ∧ 0 <= criticalEvents (summary r) + highSeverityEvents (summary r)
      <= sum_totalEvents (summary r)
  ∧ 0 <= uniqueSources (summary r) <= sum_totalEvents (summary r)
  ∧ (uniqueSources (summary r) = 0 ↔ sum_totalEvents (summary r) = 0)
  ∧ (length (topThreats r) ≤ 10)%nat
  ∧ StronglySorted (λ a b, a.2 >= b.2) (topThreats r)
  ∧ NoDup (topThreats r).*1
  ∧ (∀ ty c, (ty, c) ∈ topThreats r →
             c = count_where (λ e, type e = ty) evs ∧ c > 0)
  ∧ (endTime < startTime → r = empty_report).
Proof.
  cbn zeta. unfold generateReport.
  generalize (getEventsInRange_empty startTime endTime m).
  generalize (getEventsInRange startTime endTime m). intros evs Hempty.
  cbn [summary sum_totalEvents criticalEvents highSeverityEvents
       uniqueSources topThreats].
  assert (NoDup (tally (type <$> evs)).*1) as Hnd
    by apply tally_from_NoDup, NoDup_nil_2.
  split; [done|]. split; [|split; [|split; [|split; [|split; [|split;
    [|split]]]]]].
  - split; [unfold count_where; lia|].
    apply count_exclusive. intros x ->. discriminate.
  - split; [lia|].
    pose proof (remove_dups_length (source <$> evs)) as Hlen.
    rewrite length_fmap in Hlen. lia.
  - destruct evs as [|e0 evs]; [done|]. cbn [fmap list_fmap length].
    split; [|lia]. intros Hz.
    assert (source e0 ∈ remove_dups (source e0 :: (source <$> evs))) as Hin
      by (apply elem_of_remove_dups; by left).
    destruct (remove_dups (source e0 :: (source <$> evs)));
      [by apply elem_of_nil in Hin|]. cbn in Hz. lia.
  - rewrite length_take. lia.
  - pose proof (js_sort_sorted_by (λ a : SecurityEventType * Z, a.2)
                  (tally (type <$> evs))) as Hs.
    rewrite <- (take_drop 10 (js_sort _ _)) in Hs.
    by apply StronglySorted_app_1_l in Hs.
  - rewrite fmap_take. eapply sublist_NoDup; [|apply sublist_take].
    by rewrite js_sort_Permutation.
  - intros ty c Hin.
    pose proof (elem_of_sublist _ _ _ Hin (sublist_take _ _)) as Hin'.
    clear Hin. rewrite js_sort_Permutation in Hin'.
    apply (assoc_get_unique _ _ _ Hnd) in Hin'.
    pose proof (tally_from_get ty (type <$> evs) []) as Hget.
    fold (tally (type <$> evs)) in Hget. rewrite Hin' in Hget.
    cbn [assoc_get default] in Hget. case_decide as Hnil; [done|].
    injection Hget as ->. unfold count_where.
    rewrite (filter_fmap_length type (λ ty', ty' = ty)) in *.
    split; [lia|].
    destruct (filter (λ e, type e = ty) evs) eqn:Hf; cbn; [|lia].
    destruct Hnil. clear -Hf. induction evs as [|e evs IH]; [done|].
    rewrite fmap_cons, filter_cons. rewrite filter_cons in Hf.
    destruct (decide (type e = ty)); [done|]. by apply IH.
  - intros Hlt. by rewrite (Hempty Hlt).
Qed.

Lemma report_counts_the_range_witness :
  generateReport 2000 1000 (recordAll five_auth_failures monitor_default)
  = empty_report.
Proof.
  destruct (report_counts_the_range
              (recordAll five_auth_failures monitor_default) 2000 1000)
    as (_ & _ & _ & _ & _ & _ & _ & _ & H).
  apply H. reflexivity.
Defined.

End SecurityMonitorExtra.
